(** * serial-task: the iteration engines and the option normalizer

    A shallow embedding of [src/serial-task-sync.ts], [src/serial-task-async.ts],
    [src/common.ts] and [src/promise-try.ts], and the properties of the
    produced callables.

    The embedding keeps the dynamic typing of the source: every value is a
    [Val], a value is called through [call] and applied through
    [fn_apply], and a non-function callee or a primitive argument list
    raises the [TypeError] the runtime raises.

    - The caller's task array is the one shared mutable object the engines
      read.  It lives in the [World], next to a user store of any type,
      and every call into user code may change both; the engines read the
      array anew wherever the source reads it.  All other values are
      immutable data; in particular the argument array of an invocation
      is handed to the hooks as a value, so a hook that writes into that
      array is outside the embedding.
    - What user code does is a parameter, the environment [Env]: the
      behaviour of each user function, the settling of a future-like
      object that is awaited, the reading of an array-like object by
      [Function.prototype.apply], and what runs while an asynchronous
      function is suspended.  A call into the environment returns or
      raises; a function that never returns is outside the embedding.
    - The loops may run for ever (a hook may append a task at every turn),
      so they take fuel, and a run is a record, a raised failure, or no
      answer within the fuel.  [enough_fuel] bounds the fuel needed.
    - The asynchronous engine is suspended at every [await], also of a
      settled promise or of a plain value: what the environment has ready
      by then (queued jobs, the continuation of the caller) runs, and may
      change the world, before the engine resumes.
    - Every call an engine makes is recorded, with its outcome, in a call
      list carried by the state.  Nothing reads the list; it is there for
      the statements about which calls are made, and in which order. *)

From Stdlib Require Import ZArith String List Bool Lia.
From stdpp Require Import base list.
Import ListNotations.
Local Open Scope string_scope.
Local Open Scope list_scope.

(** ** Values *)

(** The fragment of JavaScript values the program inspects.  Numbers are
    the integers (indices, counters and the arithmetic of the scenarios).
    A function is known by an identifier and carries its declared
    parameter count (its [length] property); what it does is given by the
    environment.  An array is a list of slots, [None] being a hole (a
    never-set slot).
    [VTasks] is the reference to the caller's task array, whose contents
    live in the world.  [VPromise rejected v] is a native promise already
    settled, as [Promise.resolve] and [Promise.reject] make them; any other
    future-like value is an object whose [then] property is a function. *)
#[warnings="-register-all"]
Inductive Val : Type :=
| VUndefined
| VNull
| VBool (b : bool)
| VNum (n : Z)
| VStr (s : string)
| VFun (id : nat) (arity : nat)
| VArr (xs : list (option Val))
| VTasks
| VPromise (rejected : bool) (v : Val)
| VObj (ps : list (string * Val)).

(** [typeof v]. *)
Definition typeof (v : Val) : string :=
  match v with
  | VUndefined => "undefined"
  | VNull => "object"
  | VBool _ => "boolean"
  | VNum _ => "number"
  | VStr _ => "string"
  | VFun _ _ => "function"
  | VArr _ | VTasks | VPromise _ _ | VObj _ => "object"
  end.

Definition is_function (v : Val) : bool := String.eqb (typeof v) "function".
Definition is_object_type (v : Val) : bool := String.eqb (typeof v) "object".
Definition is_string (v : Val) : bool := String.eqb (typeof v) "string".

Definition is_null (v : Val) : bool :=
  match v with VNull => true | _ => false end.

Definition is_undefined (v : Val) : bool :=
  match v with VUndefined => true | _ => false end.

(** JavaScript truthiness, as [if (toBreak)] and [if (toSkip)] apply it. *)
Definition truthy (v : Val) : bool :=
  match v with
  | VUndefined | VNull => false
  | VBool b => b
  | VNum n => negb (n =? 0)%Z
  | VStr s => negb (String.eqb s "")
  | VFun _ _ | VArr _ | VTasks | VPromise _ _ | VObj _ => true
  end.

(** Own property lookup in a property list. *)
Fixpoint assoc (k : string) (ps : list (string * Val)) : option Val :=
  match ps with
  | [] => None
  | (k', v) :: ps' => if String.eqb k k' then Some v else assoc k ps'
  end.

(** [o.k] for the property names the program reads by name ([name],
    [tasks], the three hooks, [then], [apply]): an absent property reads
    as [undefined], and arrays and functions carry none of them.  (The
    [then] of a native promise is accounted for in [isThenable].) *)
Definition get (o : Val) (k : string) : Val :=
  match o with
  | VObj ps => match assoc k ps with Some v => v | None => VUndefined end
  | _ => VUndefined
  end.

(** [Array.isArray]. *)
Definition isArray (v : Val) : bool :=
  match v with VArr _ | VTasks => true | _ => false end.

(** [isThenable] of [common.ts]. *)
Definition isThenable (value : Val) : bool :=
  if (negb (is_object_type value) || is_null value) && negb (is_function value)
  then false
  else match value with
       | VPromise _ _ => true
       | _ => is_function (get value "then")
       end.

(** [new TypeError(msg)]. *)
Definition TypeError (msg : string) : Val :=
  VObj [("name", VStr "TypeError"); ("message", VStr msg)].

(** A slot read as a value: a hole reads as [undefined]. *)
Definition slot_val (s : option Val) : Val :=
  match s with Some v => v | None => VUndefined end.

(** [xs[i]] for [i] a natural index: holes and indices past the end read
    as [undefined]. *)
Definition elem (xs : list (option Val)) (i : nat) : Val :=
  match xs !! i with Some s => slot_val s | None => VUndefined end.

(** [xs[j]] for an integer [j]: a negative index is no array index and
    reads as [undefined] too. *)
Definition arr_read (xs : list (option Val)) (j : Z) : Val :=
  if (j <? 0)%Z then VUndefined else elem xs (Z.to_nat j).

(** A slot that was never assigned: a hole, or past the end. *)
Definition unset (xs : list (option Val)) (i : nat) : Prop :=
  xs !! i = None \/ xs !! i = Some None.

(** [xs[i] = v]: assignment in range replaces the slot, assignment past the
    end extends the array, leaving holes in between. *)
Definition arr_set (xs : list (option Val)) (i : nat) (v : Val) : list (option Val) :=
  if (i <? length xs)%nat then <[i := Some v]> xs
  else xs ++ replicate (i - length xs) None ++ [Some v].

(** [new Array(n)]: [n] holes. *)
Definition new_Array (n : nat) : list (option Val) := replicate n None.

(** ** The world, outcomes and the environment *)

(** The caller's task array and the rest of the caller's state. *)
Record World (U : Type) : Type := mkWorld {
  wtasks : list (option Val);
  wuser : U
}.
Arguments mkWorld {U} _ _.
Arguments wtasks {U} _.
Arguments wuser {U} _.

(** What a call into user code gives back. *)
Inductive Outcome (U A : Type) : Type :=
| Returns (a : A) (w : World U)
| Throws (e : Val) (w : World U).
Arguments Returns {U A} _ _.
Arguments Throws {U A} _ _.

(** The behaviour of what lies outside the engines: the user's functions,
    by identifier; the settling of a future-like object, awaited in a given
    world; the argument list [Function.prototype.apply] reads off an
    array-like object that is not an array (through its [length] and index
    properties); and what runs while an asynchronous function is
    suspended at an [await] before it resumes (the jobs queued by then,
    the caller's continuation), which may change the world but neither
    returns to the engine nor raises into it. *)
Record Env (U : Type) : Type := mkEnv {
  user_fn : nat -> list Val -> World U -> Outcome U Val;
  settle : Val -> World U -> Outcome U Val;
  array_like : list (string * Val) -> World U -> Outcome U (list Val);
  meanwhile : World U -> World U
}.
Arguments mkEnv {U} _ _ _ _.
Arguments user_fn {U} _ _ _ _.
Arguments settle {U} _ _ _.
Arguments array_like {U} _ _ _.
Arguments meanwhile {U} _ _.

(** ** Calls observed *)

Inductive Hook : Type := Wrap | Break | Skip.

Inductive Settled : Type :=
| Yielded (v : Val)
| Failed (e : Val).

(** One call made by an engine during an invocation, with what came back
    (for the asynchronous engine: what the awaited call settled to). *)
Inductive Event : Type :=
| HookCall (h : Hook) (i : nat) (task last : Val) (out : Settled)
| TaskCall (i : nat) (task input : Val) (out : Settled).

Definition ev_index (ev : Event) : nat :=
  match ev with HookCall _ i _ _ _ => i | TaskCall i _ _ _ => i end.

Definition ev_out (ev : Event) : Settled :=
  match ev with HookCall _ _ _ _ o => o | TaskCall _ _ _ o => o end.

(** The state threaded through an invocation: the world, and the calls made
    so far, newest first.  The call list is observation only: nothing in
    the engines reads it. *)
Record St (U : Type) : Type := mkSt {
  world : World U;
  calls : list Event
}.
Arguments mkSt {U} _ _.
Arguments world {U} _.
Arguments calls {U} _.

(** The result of running a piece of an engine: a value, a raised failure,
    or no answer within the given number of loop iterations. *)
Inductive Res (U A : Type) : Type :=
| Ok (a : A) (s : St U)
| Err (e : Val) (s : St U)
| Diverge.
Arguments Ok {U A} _ _.
Arguments Err {U A} _ _.
Arguments Diverge {U A}.

Definition M (U A : Type) : Type := St U -> Res U A.

Definition ret {U A} (a : A) : M U A := fun s => Ok a s.

Definition bind {U A B} (m : M U A) (k : A -> M U B) : M U B :=
  fun s => match m s with
           | Ok a s' => k a s'
           | Err e s' => Err e s'
           | Diverge => Diverge
           end.

Definition throw {U A} (e : Val) : M U A := fun s => Err e s.

Definition diverge {U A} : M U A := fun _ => Diverge.

Notation "'let*' x ':=' m 'in' k" := (bind m (fun x => k))
  (at level 10, x name, m at level 200, k at level 200).

(** Run a call into the environment on the current world. *)
Definition lift {U A} (f : World U -> Outcome U A) : M U A :=
  fun s => match f (world s) with
           | Returns a w => Ok a (mkSt w (calls s))
           | Throws e w => Err e (mkSt w (calls s))
           end.

(** Record a call and how it ended. *)
Definition logged {U} (mk : Settled -> Event) (m : M U Val) : M U Val :=
  fun s => match m s with
           | Ok v s' => Ok v (mkSt (world s') (mk (Yielded v) :: calls s'))
           | Err e s' => Err e (mkSt (world s') (mk (Failed e) :: calls s'))
           | Diverge => Diverge
           end.

(** The elements of an array value: the shared task array is read from the
    world at the time of the read. *)
Definition elems {U} (a : Val) (w : World U) : list (option Val) :=
  match a with
  | VArr xs => xs
  | VTasks => wtasks w
  | _ => []
  end.

Definition read_elems {U} (a : Val) : M U (list (option Val)) :=
  fun s => Ok (elems a (world s)) s.

(** A construction that either succeeds or raises. *)
Inductive Try (A : Type) : Type :=
| Success (a : A)
| Failure (e : Val).
Arguments Success {A} _.
Arguments Failure {A} _.

(** ** Configuration and results *)

(** A hook as the normalized options hold it: one of the two default
    functions of [common.ts], which are private to the module and so are
    no value user code can name, or the value the caller gave. *)
Inductive HookFn : Type :=
| DEFAULT_BREAKER
| DEFAULT_RESULT_WRAPPER
| Given (v : Val).

(** [const DEFAULT_SKIPPER = DEFAULT_BREAKER]: one shared instance. *)
Definition DEFAULT_SKIPPER : HookFn := DEFAULT_BREAKER.

(** [typeof hook === 'function']. *)
Definition hook_is_function (h : HookFn) : bool :=
  match h with
  | DEFAULT_BREAKER | DEFAULT_RESULT_WRAPPER => true
  | Given v => is_function v
  end.

(** [StrictSerialTaskOptions]. *)
Record StrictOptions : Type := mkOptions {
  name : Val;
  tasks : Val;
  breakCondition : HookFn;
  skipCondition : HookFn;
  resultWrapper : HookFn
}.

(** [TaskReturn]. *)
Record TaskReturn : Type := mkReturn {
  value : Val;
  results : list (option Val);
  trivial : bool;
  breakAt : Z;
  skipped : list nat
}.

(** The record of the empty-list fast path. *)
Definition trivial_return : TaskReturn :=
  {| value := VUndefined; results := []; trivial := true;
     breakAt := (-1)%Z; skipped := [] |}.

(** The variables of one invocation: [last], [results], [breakAt],
    [skipped]. *)
Record Locals : Type := mkLocals {
  last : Val;
  l_results : list (option Val);
  l_breakAt : Z;
  l_skipped : list nat
}.

(** What a produced callable hands back: a record, or a future already
    run to its end, fulfilled with a record or rejected with a failure. *)
Inductive Returned : Type :=
| Plain (r : TaskReturn)
| Promised (p : Try TaskReturn).

(** The body a produced callable closes over. *)
Inductive Body : Type :=
| TrivialBody
| SyncBody (o : StrictOptions)
| AsyncBody (o : StrictOptions).

(** A produced callable: its [name] and [length] properties and its body. *)
Record Callable : Type := mkCallable {
  fn_name : Val;
  fn_length : Val;
  body : Body
}.

(** The argument list of a hook call: [(task, i, tasks, args, last)]. *)
Definition hook_args (o : StrictOptions) (task : Val) (i : nat)
    (args : list Val) (last : Val) : list Val :=
  [task; VNum (Z.of_nat i); tasks o; VArr (map Some args); last].

(** [Promise.resolve(v)], which [promise-try.ts] applies to values that
    are not future-like, and [Promise.reject(e)]. *)
Definition PromiseResolve (v : Val) : Val :=
  match v with VPromise _ _ => v | _ => VPromise false v end.

Definition PromiseReject (e : Val) : Val := VPromise true e.

(** ** The normalizer ([common.ts]) *)

(** A destructuring default: it applies when the property reads as
    [undefined]. *)
Definition or_default (v d : Val) : Val :=
  if is_undefined v then d else v.

Definition hook_or_default (v : Val) (d : HookFn) : HookFn :=
  if is_undefined v then d else Given v.

(** [tasks.some((task) => typeof task !== 'function')]: [some] visits the
    assigned slots only. *)
Definition some_not_function (xs : list (option Val)) : bool :=
  existsb (fun s => match s with
                    | Some task => negb (is_function task)
                    | None => false
                    end) xs.

Definition normalize {U} (options : Val) (w : World U) : Try StrictOptions :=
  if negb (is_object_type options) || is_null options then
    Failure (TypeError "__NAME__: 'options' must be an object")
  else
    let name := or_default (get options "name") (VStr "kskbTask") in
    let tasks := get options "tasks" in
    let breakCondition :=
      hook_or_default (get options "breakCondition") DEFAULT_BREAKER in
    let skipCondition :=
      hook_or_default (get options "skipCondition") DEFAULT_SKIPPER in
    let resultWrapper :=
      hook_or_default (get options "resultWrapper") DEFAULT_RESULT_WRAPPER in
    if negb (is_string name) then
      Failure (TypeError "__NAME__: 'name' must be a string or omitted")
    else if negb (isArray tasks) || some_not_function (elems tasks w) then
      Failure (TypeError "__NAME__: 'tasks' must be a function array")
    else if negb (hook_is_function breakCondition) then
      Failure (TypeError "__NAME__: 'breakCondition' must be a function or omitted")
    else if negb (hook_is_function skipCondition) then
      Failure (TypeError "__NAME__: 'skipCondition' must be a function or omitted")
    else if negb (hook_is_function resultWrapper) then
      Failure (TypeError "__NAME__: 'resultWrapper' must be a function or omitted")
    else
      Success {| name := name; tasks := tasks;
                 breakCondition := breakCondition;
                 skipCondition := skipCondition;
                 resultWrapper := resultWrapper |}.

(** ** Calling *)

Section Engines.
Context {U : Type} (E : Env U).

(** A call [f(...args)] of a value: only functions are callable. *)
Definition call (f : Val) (args : list Val) : M U Val :=
  match f with
  | VFun id _ => lift (user_fn E id args)
  | _ => throw (TypeError "not a function")
  end.

(** A call of a hook with its argument list
    [(task, index, tasks, args, lastReturn)]. *)
Definition call_hook (h : HookFn) (args : list Val) : M U Val :=
  match h with
  | DEFAULT_BREAKER => ret (VBool false)
  | DEFAULT_RESULT_WRAPPER =>
      (* index === 0 ? args : [lastReturn] *)
      match nth 1 args VUndefined with
      | VNum 0 => ret (nth 3 args VUndefined)
      | _ => ret (VArr [Some (nth 4 args VUndefined)])
      end
  | Given v => call v args
  end.

(** The argument list [Function.prototype.apply] makes of its second
    argument: none for [undefined] and [null], the elements of an array
    (holes read as [undefined]), the index properties of another object; a
    primitive raises. *)
Definition CreateListFromArrayLike (v : Val) : M U (list Val) :=
  match v with
  | VUndefined | VNull => ret []
  | VArr xs => ret (map slot_val xs)
  | VTasks => let* xs := read_elems VTasks in ret (map slot_val xs)
  | VFun _ arity => ret (replicate arity VUndefined)
  | VPromise _ _ => ret []
  | VObj ps => lift (array_like E ps)
  | VBool _ | VNum _ | VStr _ =>
      throw (TypeError "CreateListFromArrayLike called on non-object")
  end.

(** [task.apply(null, input)]. *)
Definition fn_apply (task input : Val) : M U Val :=
  match task with
  | VFun _ _ => let* argv := CreateListFromArrayLike input in call task argv
  | VObj _ => call (get task "apply") [VNull; input]
  | _ => throw (TypeError "task.apply is not a function")
  end.

(** ** The synchronous engine ([serial-task-sync.ts]) *)

(** The [for] loop of the produced function, from index [i]; [fuel] bounds
    the number of times the loop condition is evaluated. *)
Fixpoint sync_loop (fuel : nat) (o : StrictOptions) (args : list Val)
    (i : nat) (l : Locals) : M U Locals :=
  match fuel with
  | O => diverge
  | S fuel' =>
      let* ts := read_elems (tasks o) in
      if (i <? length ts)%nat then
        let task := elem ts i in
        let* input :=
          logged (HookCall Wrap i task (last l))
                 (call_hook (resultWrapper o) (hook_args o task i args (last l))) in
        let* toBreak :=
          logged (HookCall Break i task (last l))
                 (call_hook (breakCondition o) (hook_args o task i args (last l))) in
        if truthy toBreak then
          ret {| last := last l; l_results := l_results l;
                 l_breakAt := Z.of_nat i; l_skipped := l_skipped l |}
        else
          let* toSkip :=
            logged (HookCall Skip i task (last l))
                   (call_hook (skipCondition o) (hook_args o task i args (last l))) in
          if truthy toSkip then
            sync_loop fuel' o args (S i)
              {| last := last l; l_results := l_results l;
                 l_breakAt := l_breakAt l; l_skipped := l_skipped l ++ [i] |}
          else
            let* r := logged (TaskCall i task input) (fn_apply task input) in
            sync_loop fuel' o args (S i)
              {| last := r; l_results := arr_set (l_results l) i r;
                 l_breakAt := l_breakAt l; l_skipped := l_skipped l |}
      else ret l
  end.

(** The variables as the produced function initialises them. *)
Definition init_locals (n : nat) : Locals :=
  {| last := VUndefined; l_results := new_Array n;
     l_breakAt := (-1)%Z; l_skipped := [] |}.

Definition to_return (l : Locals) : TaskReturn :=
  {| value := last l; results := l_results l; trivial := false;
     breakAt := l_breakAt l; skipped := l_skipped l |}.

(** The produced function of the non-empty path. *)
Definition sync_fn (fuel : nat) (o : StrictOptions) (args : list Val)
    : M U TaskReturn :=
  let* ts := read_elems (tasks o) in
  let* l := sync_loop fuel o args 0 (init_locals (length ts)) in
  ret (to_return l).

(** ** The asynchronous engine ([serial-task-async.ts], [promise-try.ts]) *)

(** [PromiseTry(fn, null, ...args)]: the call, with a raised failure turned
    into a rejected promise and a plain result into a resolved one. *)
Definition PromiseTry (fn : HookFn) (args : list Val) : M U Val :=
  fun s => match call_hook fn args s with
           | Ok r s' => if isThenable r then Ok r s' else Ok (PromiseResolve r) s'
           | Err e s' => Ok (PromiseReject e) s'
           | Diverge => Diverge
           end.

(** [PromiseTrapply(fn, null, args)]. *)
Definition PromiseTrapply (fn : Val) (args : Val) : M U Val :=
  fun s => match fn_apply fn args s with
           | Ok r s' => if isThenable r then Ok r s' else Ok (PromiseResolve r) s'
           | Err e s' => Ok (PromiseReject e) s'
           | Diverge => Diverge
           end.

(** The function is suspended: what the environment has ready runs
    before it resumes. *)
Definition suspended : M U unit :=
  fun s => Ok tt (mkSt (meanwhile E (world s)) (calls s)).

(** [await v]: the function is suspended, and resumes with the value of a
    settled native promise, or raising its reason, or with a plain value
    itself; another future-like object is settled by the environment,
    which accounts for what runs until then. *)
Definition await (v : Val) : M U Val :=
  match v with
  | VPromise false r => let* _ := suspended in ret r
  | VPromise true e => let* _ := suspended in throw e
  | _ => if isThenable v then lift (settle E v) else let* _ := suspended in ret v
  end.

Fixpoint async_loop (fuel : nat) (o : StrictOptions) (args : list Val)
    (i : nat) (l : Locals) : M U Locals :=
  match fuel with
  | O => diverge
  | S fuel' =>
      let* ts := read_elems (tasks o) in
      if (i <? length ts)%nat then
        let task := elem ts i in
        let* input :=
          logged (HookCall Wrap i task (last l))
                 (let* p := PromiseTry (resultWrapper o)
                                       (hook_args o task i args (last l)) in
                  await p) in
        let* toBreak :=
          logged (HookCall Break i task (last l))
                 (let* p := PromiseTry (breakCondition o)
                                       (hook_args o task i args (last l)) in
                  await p) in
        if truthy toBreak then
          ret {| last := last l; l_results := l_results l;
                 l_breakAt := Z.of_nat i; l_skipped := l_skipped l |}
        else
          let* toSkip :=
            logged (HookCall Skip i task (last l))
                   (let* p := PromiseTry (skipCondition o)
                                         (hook_args o task i args (last l)) in
                    await p) in
          if truthy toSkip then
            async_loop fuel' o args (S i)
              {| last := last l; l_results := l_results l;
                 l_breakAt := l_breakAt l; l_skipped := l_skipped l ++ [i] |}
          else
            let* r := logged (TaskCall i task input)
                             (let* p := PromiseTrapply task input in await p) in
            async_loop fuel' o args (S i)
              {| last := r; l_results := arr_set (l_results l) i r;
                 l_breakAt := l_breakAt l; l_skipped := l_skipped l |}
      else ret l
  end.

Definition async_fn (fuel : nat) (o : StrictOptions) (args : list Val)
    : M U TaskReturn :=
  let* ts := read_elems (tasks o) in
  let* l := async_loop fuel o args 0 (init_locals (length ts)) in
  ret (to_return l).

(** ** Building and invoking *)

(** [v.length], as [tasks[0].length] reads it. *)
Definition length_of (v : Val) (w : World U) : Try Val :=
  match v with
  | VUndefined | VNull =>
      Failure (TypeError "Cannot read properties of undefined (reading 'length')")
  | VFun _ arity => Success (VNum (Z.of_nat arity))
  | VArr xs => Success (VNum (Z.of_nat (length xs)))
  | VTasks => Success (VNum (Z.of_nat (length (wtasks w))))
  | VStr s => Success (VNum (Z.of_nat (String.length s)))
  | VObj _ => Success (get v "length")
  | VBool _ | VNum _ | VPromise _ _ => Success VUndefined
  end.

(** The shared shape of the two builders: normalize, take the fast path
    when the list is empty now, else close over the options and set
    [name] and [length]. *)
Definition build (mk : StrictOptions -> Body) (opts : Val) (w : World U)
    : Try Callable :=
  match normalize opts w with
  | Failure e => Failure e
  | Success o =>
      let ts := elems (tasks o) w in
      if (length ts =? 0)%nat then
        Success {| fn_name := name o; fn_length := VNum 0; body := TrivialBody |}
      else
        match length_of (elem ts 0) w with
        | Failure e => Failure e
        | Success n =>
            Success {| fn_name := name o; fn_length := n; body := mk o |}
        end
  end.

Definition createSerialTask (opts : Val) (w : World U) : Try Callable :=
  build SyncBody opts w.

Definition createSerialTaskAsync (opts : Val) (w : World U) : Try Callable :=
  build AsyncBody opts w.

(** One invocation of a produced callable.  The synchronous function
    returns its record or raises; the asynchronous function returns a
    future, here with the settlement it reaches; the fast-path function
    returns the trivial record in both engines. *)
Definition invoke (c : Callable) (fuel : nat) (args : list Val) : M U Returned :=
  match body c with
  | TrivialBody => ret (Plain trivial_return)
  | SyncBody o => let* r := sync_fn fuel o args in ret (Plain r)
  | AsyncBody o =>
      fun s => match async_fn fuel o args s with
               | Ok r s' => Ok (Promised (Success r)) s'
               | Err e s' => Ok (Promised (Failure e)) s'
               | Diverge => Diverge
               end
  end.

(** [await] of what a callable handed back. *)
Definition await_returned (r : Returned) : M U TaskReturn :=
  match r with
  | Plain t => ret t
  | Promised (Success t) => ret t
  | Promised (Failure e) => throw e
  end.

End Engines.

(** ** The skeleton shared by the two engines

    Both loops are one loop over two ways of calling: how a hook is called
    and how a task is applied.  The skeleton is a device of the proofs;
    [sync_loop_skeleton] and [async_loop_skeleton] show that each engine's
    loop is an instance of it. *)

Inductive Step : Type :=
| Continue (l : Locals)
| Stop (l : Locals).

Section Skeleton.
Context {U : Type}.
Variable hook_call : HookFn -> list Val -> M U Val.
Variable task_call : Val -> Val -> M U Val.

(** One turn of the loop body at index [i], [task] being [tasks[i]]. *)
Definition iteration (o : StrictOptions) (args : list Val) (i : nat)
    (task : Val) (l : Locals) : M U Step :=
  let* input :=
    logged (HookCall Wrap i task (last l))
           (hook_call (resultWrapper o) (hook_args o task i args (last l))) in
  let* toBreak :=
    logged (HookCall Break i task (last l))
           (hook_call (breakCondition o) (hook_args o task i args (last l))) in
  if truthy toBreak then
    ret (Stop {| last := last l; l_results := l_results l;
                 l_breakAt := Z.of_nat i; l_skipped := l_skipped l |})
  else
    let* toSkip :=
      logged (HookCall Skip i task (last l))
             (hook_call (skipCondition o) (hook_args o task i args (last l))) in
    if truthy toSkip then
      ret (Continue {| last := last l; l_results := l_results l;
                       l_breakAt := l_breakAt l;
                       l_skipped := l_skipped l ++ [i] |})
    else
      let* r := logged (TaskCall i task input) (task_call task input) in
      ret (Continue {| last := r; l_results := arr_set (l_results l) i r;
                       l_breakAt := l_breakAt l; l_skipped := l_skipped l |}).

Fixpoint loop (fuel : nat) (o : StrictOptions) (args : list Val)
    (i : nat) (l : Locals) : M U Locals :=
  match fuel with
  | O => diverge
  | S fuel' =>
      let* ts := read_elems (tasks o) in
      if (i <? length ts)%nat then
        let* st := iteration o args i (elem ts i) l in
        match st with
        | Continue l' => loop fuel' o args (S i) l'
        | Stop l' => ret l'
        end
      else ret l
  end.

End Skeleton.

(** The two ways of calling. *)
Definition sync_hook {U} (E : Env U) : HookFn -> list Val -> M U Val :=
  call_hook E.

Definition sync_task {U} (E : Env U) : Val -> Val -> M U Val :=
  fn_apply E.

Definition async_hook {U} (E : Env U) (h : HookFn) (args : list Val) : M U Val :=
  let* p := PromiseTry E h args in await E p.

Definition async_task {U} (E : Env U) (task input : Val) : M U Val :=
  let* p := PromiseTrapply E task input in await E p.

(** ** The fold of the tasks, as the specification words it

    Task 0 is applied to the call arguments, each later task to the
    one-element list holding the previous task's result; the tasks are
    those found in the list as the fold proceeds. *)

(** A task applied to an argument list. *)
Definition apply_task {U} (E : Env U) (task : Val) (input : list Val) : M U Val :=
  fn_apply E task (VArr (map Some input)).

(** The outputs of the tasks from index [i] on, after [outs]. *)
Fixpoint fold_tasks {U} (E : Env U) (fuel : nat) (ts : Val) (i : nat)
    (input : list Val) (outs : list Val) : M U (list Val) :=
  match fuel with
  | O => diverge
  | S fuel' =>
      let* xs := read_elems ts in
      if (i <? length xs)%nat then
        let* r := apply_task E (elem xs i) input in
        fold_tasks E fuel' ts (S i) [r] (outs ++ [r])
      else ret outs
  end.

(** The record the specification promises for default hooks, for a list
    that had [n] tasks at the call: [value] the last output ([undefined]
    when there is none), [results] the outputs in order, padded with holes
    up to [n]. *)
Definition fold_record (n : nat) (outs : list Val) : TaskReturn :=
  {| value := List.last outs VUndefined;
     results := map Some outs ++ replicate (n - length outs) None;
     trivial := false; breakAt := (-1)%Z; skipped := [] |}.

Definition fold_return {U} (E : Env U) (fuel : nat) (ts : Val) (args : list Val)
    : M U TaskReturn :=
  let* xs := read_elems ts in
  let* outs := fold_tasks E fuel ts 0 args [] in
  ret (fold_record (length xs) outs).

(** Normalized options with every hook at its default. *)
Definition default_options (nm ts : Val) : StrictOptions :=
  {| name := nm; tasks := ts; breakCondition := DEFAULT_BREAKER;
     skipCondition := DEFAULT_SKIPPER; resultWrapper := DEFAULT_RESULT_WRAPPER |}.

(** A result without the observation: what the caller sees. *)
Definition outcome_of {U A} (r : Res U A) : option (Outcome U A) :=
  match r with
  | Ok a s => Some (Returns a (world s))
  | Err e s => Some (Throws e (world s))
  | Diverge => None
  end.


(** The call list of one turn of the loop at index [i], newest first, and
    how the turn ends: with the next variables, or with a failure.  A turn
    calls the wrapper, then the break condition, then the skip condition,
    then the task, and ends at the first call that fails, at a break, or
    at a skip.  A condition left at its default never fires. *)
Inductive turn (o : StrictOptions) (i : nat) (task : Val) (l : Locals)
    : list Event -> Step + Val -> Prop :=
| turn_wrap_fails e :
    turn o i task l [HookCall Wrap i task (last l) (Failed e)] (inr e)
| turn_break_fails input e :
    turn o i task l
      [HookCall Break i task (last l) (Failed e);
       HookCall Wrap i task (last l) (Yielded input)] (inr e)
| turn_breaks input b :
    truthy b = true ->
    breakCondition o <> DEFAULT_BREAKER ->
    turn o i task l
      [HookCall Break i task (last l) (Yielded b);
       HookCall Wrap i task (last l) (Yielded input)]
      (inl (Stop {| last := last l; l_results := l_results l;
                    l_breakAt := Z.of_nat i; l_skipped := l_skipped l |}))
| turn_skip_fails input b e :
    truthy b = false ->
    turn o i task l
      [HookCall Skip i task (last l) (Failed e);
       HookCall Break i task (last l) (Yielded b);
       HookCall Wrap i task (last l) (Yielded input)] (inr e)
| turn_skips input b k :
    truthy b = false ->
    truthy k = true ->
    skipCondition o <> DEFAULT_BREAKER ->
    turn o i task l
      [HookCall Skip i task (last l) (Yielded k);
       HookCall Break i task (last l) (Yielded b);
       HookCall Wrap i task (last l) (Yielded input)]
      (inl (Continue {| last := last l; l_results := l_results l;
                        l_breakAt := l_breakAt l;
                        l_skipped := l_skipped l ++ [i] |}))
| turn_task_fails input b k e :
    truthy b = false ->
    truthy k = false ->
    turn o i task l
      [TaskCall i task input (Failed e);
       HookCall Skip i task (last l) (Yielded k);
       HookCall Break i task (last l) (Yielded b);
       HookCall Wrap i task (last l) (Yielded input)] (inr e)
| turn_task input b k r :
    truthy b = false ->
    truthy k = false ->
    turn o i task l
      [TaskCall i task input (Yielded r);
       HookCall Skip i task (last l) (Yielded k);
       HookCall Break i task (last l) (Yielded b);
       HookCall Wrap i task (last l) (Yielded input)]
      (inl (Continue {| last := r; l_results := arr_set (l_results l) i r;
                        l_breakAt := l_breakAt l;
                        l_skipped := l_skipped l |})).

(** The calls made, newest first, by the turns at indices [0] to [i - 1],
    none of which broke or failed, and the variables they leave, starting
    from [n] holes. *)
Inductive history (o : StrictOptions) (n : nat)
    : nat -> Locals -> list Event -> Prop :=
| history_start : history o n 0 (init_locals n) []
| history_turn i l log task evs l' :
    history o n i l log ->
    turn o i task l evs (inl (Continue l')) ->
    history o n (S i) l' (evs ++ log).

(** How the loop ends: the list is exhausted at index [i], or the turn at
    index [i] breaks, or it fails. *)
Inductive ending (o : StrictOptions) (n : nat)
    : list Event -> nat -> Locals + Val -> Prop :=
| ending_exhausted i l log :
    history o n i l log -> ending o n log i (inl l)
| ending_break i l log task evs l' :
    history o n i l log ->
    turn o i task l evs (inl (Stop l')) ->
    ending o n (evs ++ log) i (inl l')
| ending_failure i l log task evs e :
    history o n i l log ->
    turn o i task l evs (inr e) ->
    ending o n (evs ++ log) i (inr e).

(** A way of calling that answers (it never runs out of fuel) and leaves
    the call list alone. *)
Definition quiet {U A} (m : M U A) : Prop :=
  forall s, match m s with
            | Ok _ s' => calls s' = calls s
            | Err _ s' => calls s' = calls s
            | Diverge => False
            end.

(** An invocation starts with no call observed. *)
Definition fresh {U} (w : World U) : St U := mkSt w [].

(** The record a caller gets from an invocation by awaiting what the
    callable handed back (for the synchronous engine, the record itself). *)
Definition awaited {U} (E : Env U) (c : Callable) (fuel : nat) (args : list Val)
    : M U TaskReturn :=
  let* r := invoke E c fuel args in await_returned r.

(** The state a run ends in, when it ends. *)
Definition state_of {U A} (r : Res U A) : option (St U) :=
  match r with
  | Ok _ s => Some s
  | Err _ s => Some s
  | Diverge => None
  end.

(** A list of indices that grows strictly from left to right. *)
Definition strictly_increasing (l : list nat) : Prop :=
  forall a b x y, l !! a = Some x -> l !! b = Some y -> (a < b)%nat -> (x < y)%nat.

(** ** The conditions of the normalizer contract, as the specification
    words them *)

(** The input is not a non-null object. *)
Definition not_non_null_object (v : Val) : Prop :=
  ~ (typeof v = "object" /\ v <> VNull).

(** A property is present (it does not read as [undefined]) but has not
    the given type. *)
Definition present_but_not (ty : string) (v : Val) : Prop :=
  v <> VUndefined /\ typeof v <> ty.

(** An array whose elements are all functions. *)
Definition function_array {U} (v : Val) (w : World U) : Prop :=
  isArray v = true
  /\ forall t, In (Some t) (elems v w) -> typeof t = "function".

(** The skip condition answered a truthy value at index [k]. *)
Definition skipped_at (k : nat) (log : list Event) : Prop :=
  exists t lst v, In (HookCall Skip k t lst (Yielded v)) log /\ truthy v = true.

(** The skip condition answered a truthy value at no index but [k]. *)
Definition skips_only_at (k : nat) (log : list Event) : Prop :=
  forall j t lst v,
    In (HookCall Skip j t lst (Yielded v)) log -> truthy v = true -> j = k.

(** The functions of the environment are plain synchronous functions:
    none returns a future-like value. *)
Definition plain_functions {U} (E : Env U) : Prop :=
  forall id args w v w',
    user_fn E id args w = Returns v w' -> isThenable v = false.

(** A computation whose outcome depends on the world only, not on the
    calls observed so far. *)
Definition indifferent {U A} (m : M U A) : Prop :=
  forall s1 s2, world s1 = world s2 -> outcome_of (m s1) = outcome_of (m s2).

(** The world a call into the environment leaves. *)
Definition after {U A} (o : Outcome U A) : World U :=
  match o with
  | Returns _ w => w
  | Throws _ w => w
  end.

(** Every call into the environment keeps a property of the world, and
    so does what runs while an engine is suspended. *)
Definition env_keeps {U} (E : Env U) (P : World U -> Prop) : Prop :=
  (forall id args w, P w -> P (after (user_fn E id args w)))
  /\ (forall v w, P w -> P (after (settle E v w)))
  /\ (forall ps w, P w -> P (after (array_like E ps w)))
  /\ (forall w, P w -> P (meanwhile E w)).

(** A computation that answers and keeps a property of the world. *)
Definition keeps {U A} (P : World U -> Prop) (m : M U A) : Prop :=
  forall s, P (world s) ->
    match m s with
    | Ok _ s' => P (world s')
    | Err _ s' => P (world s')
    | Diverge => False
    end.

(** The task list never holds more than [N] tasks. *)
Definition at_most {U} (N : nat) (ts : Val) (w : World U) : Prop :=
  (length (elems ts w) <= N)%nat.

(** ** The steps of an invocation, call by call

    What an invocation does according to the specification, told over the
    worlds its calls leave and without the engines: at each index the
    wrapper, the break condition, the skip condition and the task are
    called in this order, each call awaited by the asynchronous engine,
    and the first call that fails ends the invocation. *)

(** What a call made in the world [w] gives the loop.  In the
    synchronous engine, what the function returns or raises.  In the
    asynchronous engine, what awaiting its result gives: a function that
    raises [e] and a function that returns a future rejecting with [e]
    fail alike, with [e], once the suspended engine resumes. *)
Definition call_gives {U} (E : Env U) (async : bool) (m : M U Val) (w : World U)
    : option (Outcome U Val) :=
  if async then
    match outcome_of (m (fresh w)) with
    | Some (Returns r w1) => outcome_of (await E r (fresh w1))
    | Some (Throws e w1) => Some (Throws e (meanwhile E w1))
    | None => None
    end
  else outcome_of (m (fresh w)).

(** How the steps at one index end. *)
Inductive Step_end : Type :=
| Broke
| Skipped
| Ran (r : Val)
| FailedWith (e : Val).

Section Steps.
Context {U : Type} (E : Env U) (async : bool) (o : StrictOptions) (args : list Val).

Definition hook_gives (h : HookFn) (i : nat) (task lst : Val) (w : World U)
    : option (Outcome U Val) :=
  call_gives E async (call_hook E h (hook_args o task i args lst)) w.

Definition task_gives (task input : Val) (w : World U) : option (Outcome U Val) :=
  call_gives E async (fn_apply E task input) w.

(** The steps at index [i], for the task [task] and the latest output
    [lst], from the world [w]: how they end, and the world they leave. *)
Inductive index_steps (i : nat) (task lst : Val) (w : World U)
    : Step_end -> World U -> Prop :=
| steps_wrapper_fails e w1 :
    hook_gives (resultWrapper o) i task lst w = Some (Throws e w1) ->
    index_steps i task lst w (FailedWith e) w1
| steps_break_fails input w1 e w2 :
    hook_gives (resultWrapper o) i task lst w = Some (Returns input w1) ->
    hook_gives (breakCondition o) i task lst w1 = Some (Throws e w2) ->
    index_steps i task lst w (FailedWith e) w2
| steps_broke input w1 b w2 :
    hook_gives (resultWrapper o) i task lst w = Some (Returns input w1) ->
    hook_gives (breakCondition o) i task lst w1 = Some (Returns b w2) ->
    truthy b = true ->
    index_steps i task lst w Broke w2
| steps_skip_fails input w1 b w2 e w3 :
    hook_gives (resultWrapper o) i task lst w = Some (Returns input w1) ->
    hook_gives (breakCondition o) i task lst w1 = Some (Returns b w2) ->
    truthy b = false ->
    hook_gives (skipCondition o) i task lst w2 = Some (Throws e w3) ->
    index_steps i task lst w (FailedWith e) w3
| steps_skipped input w1 b w2 k w3 :
    hook_gives (resultWrapper o) i task lst w = Some (Returns input w1) ->
    hook_gives (breakCondition o) i task lst w1 = Some (Returns b w2) ->
    truthy b = false ->
    hook_gives (skipCondition o) i task lst w2 = Some (Returns k w3) ->
    truthy k = true ->
    index_steps i task lst w Skipped w3
| steps_task_fails input w1 b w2 k w3 e w4 :
    hook_gives (resultWrapper o) i task lst w = Some (Returns input w1) ->
    hook_gives (breakCondition o) i task lst w1 = Some (Returns b w2) ->
    truthy b = false ->
    hook_gives (skipCondition o) i task lst w2 = Some (Returns k w3) ->
    truthy k = false ->
    task_gives task input w3 = Some (Throws e w4) ->
    index_steps i task lst w (FailedWith e) w4
| steps_ran input w1 b w2 k w3 r w4 :
    hook_gives (resultWrapper o) i task lst w = Some (Returns input w1) ->
    hook_gives (breakCondition o) i task lst w1 = Some (Returns b w2) ->
    truthy b = false ->
    hook_gives (skipCondition o) i task lst w2 = Some (Returns k w3) ->
    truthy k = false ->
    task_gives task input w3 = Some (Returns r w4) ->
    index_steps i task lst w (Ran r) w4.

(** An invocation begun in the world [w0] comes to index [i] with the
    latest output [lst], in the world [w]: the steps at every index below
    [i] ended in a skip or in the task's output, each index being below
    the length the list had when its turn came. *)
Inductive reaches (w0 : World U) : nat -> Val -> World U -> Prop :=
| reaches_start : reaches w0 0 VUndefined w0
| reaches_skipped i lst w w' :
    reaches w0 i lst w ->
    (i < length (elems (tasks o) w))%nat ->
    index_steps i (elem (elems (tasks o) w) i) lst w Skipped w' ->
    reaches w0 (S i) lst w'
| reaches_ran i lst w r w' :
    reaches w0 i lst w ->
    (i < length (elems (tasks o) w))%nat ->
    index_steps i (elem (elems (tasks o) w) i) lst w (Ran r) w' ->
    reaches w0 (S i) r w'.

End Steps.

(** Nothing runs while a function is suspended: no job is queued when
    the invocation begins, the user's functions queue none, and the
    caller waits for the future. *)
Definition undisturbed {U} (E : Env U) : Prop :=
  forall w, meanwhile E w = w.

(** ** Notions for the further properties *)

(** The break condition answered a truthy value at index [k]. *)
Definition broke_at (k : nat) (log : list Event) : Prop :=
  exists t lst b, In (HookCall Break k t lst (Yielded b)) log /\ truthy b = true.

(** The task at index [j] ran and returned [v]. *)
Definition ran_at (j : nat) (v : Val) (log : list Event) : Prop :=
  exists t input, In (TaskCall j t input (Yielded v)) log.

(** A call of the result wrapper. *)
Definition is_wrap (ev : Event) : bool :=
  match ev with
  | HookCall Wrap _ _ _ _ => true
  | _ => false
  end.

(** The indices at which the wrapper was called, newest first. *)
Definition wrap_indices (log : list Event) : list nat :=
  map ev_index (filter is_wrap log).

(** Every task call in the list comes with the three hook calls of its
    turn: the wrapper yielded the task's input, the break and the skip
    condition answered falsy values. *)
Definition tasks_follow_hooks (log : list Event) : Prop :=
  forall i t input out,
    In (TaskCall i t input out) log ->
    exists lst b k,
      In (HookCall Wrap i t lst (Yielded input)) log
      /\ In (HookCall Break i t lst (Yielded b)) log /\ truthy b = false
      /\ In (HookCall Skip i t lst (Yielded k)) log /\ truthy k = false.

(** Every task call in the list, newest call first, is next after the
    three hook calls of its turn: the skip condition before it, the break
    condition before that, the wrapper first, all at the task's index,
    for the task and with the same latest output, both conditions having
    answered falsy values. *)
Definition hooks_precede_tasks (log : list Event) : Prop :=
  forall p i t input out,
    log !! p = Some (TaskCall i t input out) ->
    exists lst wrapped b k,
      log !! (p + 1) = Some (HookCall Skip i t lst (Yielded k))
      /\ truthy k = false
      /\ log !! (p + 2) = Some (HookCall Break i t lst (Yielded b))
      /\ truthy b = false
      /\ log !! (p + 3) = Some (HookCall Wrap i t lst (Yielded wrapped)).

(** The indices of the calls never grow from a newer call to an older
    one. *)
Definition descending (log : list Event) : Prop :=
  forall a b x y,
    log !! a = Some x -> log !! b = Some y -> (a <= b)%nat ->
    (ev_index y <= ev_index x)%nat.

(** [lst] is the output of the task that ran at the highest index below
    [j], or [undefined] when no task ran below [j]. *)
Definition latest_before (j : nat) (lst : Val) (log : list Event) : Prop :=
  (lst = VUndefined /\ forall j' v, (j' < j)%nat -> ~ ran_at j' v log)
  \/ (exists j0, (j0 < j)%nat /\ ran_at j0 lst log
        /\ forall j' v, (j0 < j')%nat -> (j' < j)%nat -> ~ ran_at j' v log).

(** The input the default wrapper hands the task at index [i]:
    [index === 0 ? args : [lastReturn]]. *)
Definition default_input (args : list Val) (i : nat) (lst : Val) : Val :=
  if (i =? 0)%nat then VArr (map Some args) else VArr [Some lst].

(** Every answer of the wrapper in the list is that of the default
    wrapper. *)
Definition wraps_default (args : list Val) (log : list Event) : Prop :=
  forall j t lst input,
    In (HookCall Wrap j t lst (Yielded input)) log -> input = default_input args j lst.

(** What [await v] gives in the world [w]. *)
Definition settled_outcome {U} (E : Env U) (v : Val) (w : World U) : Outcome U Val :=
  match v with
  | VPromise false r => Returns r (meanwhile E w)
  | VPromise true e => Throws e (meanwhile E w)
  | _ => if isThenable v then settle E v w else Returns v (meanwhile E w)
  end.

(** The environment whose functions are those of [E] followed by [await]
    of what they return. *)
Definition Awaited {U} (E : Env U) : Env U :=
  mkEnv (fun id args w =>
           match user_fn E id args w with
           | Returns v w' => settled_outcome E v w'
           | Throws e w' => Throws e (meanwhile E w')
           end)
        (settle E) (array_like E) (meanwhile E).

(** A computation that keeps a property of the world whenever it
    answers. *)
Definition preserves {U A} (P : World U -> Prop) (m : M U A) : Prop :=
  forall s, P (world s) ->
    match m s with
    | Ok _ s' => P (world s')
    | Err _ s' => P (world s')
    | Diverge => True
    end.

(** The function a call is about: the task called, or the task the hook
    was called for. *)
Definition ev_task (ev : Event) : Val :=
  match ev with HookCall _ _ t _ _ => t | TaskCall _ t _ _ => t end.

(** ** Concrete functions, for the scenarios *)

Module Scenario.

(** [new Error(msg)]. *)
Definition Error (msg : string) : Val :=
  VObj [("name", VStr "Error"); ("message", VStr msg)].

Definition num (v : Val) : Z :=
  match v with VNum n => n | _ => 0%Z end.

Definition arg (k : nat) (args : list Val) : Val := nth k args VUndefined.

(** User functions of the test scenarios that return no future, whatever
    they are given:
    - 0: [x => x + 1]; 1: [x => x * 2]; 2: [x => x - 1];
    - 3: [(task, index) => index === 1];
    - 4: [x => { throw new Error('Task failed') }];
    - 6: [() => true].
    Any other identifier stands for [() => undefined]. *)
Definition plain_user (id : nat) (args : list Val) (w : World unit)
    : Outcome unit Val :=
  match id with
  | 0 => Returns (VNum (num (arg 0 args) + 1)) w
  | 1 => Returns (VNum (num (arg 0 args) * 2)) w
  | 2 => Returns (VNum (num (arg 0 args) - 1)) w
  | 3 => Returns (VBool (num (arg 1 args) =? 1)%Z) w
  | 4 => Throws (Error "Task failed") w
  | 6 => Returns (VBool true) w
  | _ => Returns VUndefined w
  end.

(** Functions that change the task list:
    - 5: the wrapper of the dynamic-list test,
         [(task, index, taskArray, args, lastReturn) => {
            if (index === 0 && taskArray.length === 1) taskArray.push(x => x * 2);
            return index === 0 ? args : [lastReturn] }];
    - 7: [x => { tasks.length = 0; return x }].
    The others are those of [plain_user]. *)
Definition dynamic_user (id : nat) (args : list Val) (w : World unit)
    : Outcome unit Val :=
  match id with
  | 5 =>
      let w' :=
        if ((num (arg 1 args) =? 0)%Z && (length (wtasks w) =? 1)%nat)%bool
        then mkWorld (wtasks w ++ [Some (VFun 1 1)]) (wuser w)
        else w in
      Returns (if (num (arg 1 args) =? 0)%Z then arg 3 args
               else VArr [Some (arg 4 args)]) w'
  | 7 => Returns (arg 0 args) (mkWorld [] (wuser w))
  | _ => plain_user id args w
  end.

(** No array-like objects in the scenarios. *)
Definition no_array_like (ps : list (string * Val)) (w : World unit)
    : Outcome unit (list Val) := Returns [] w.

(** A foreign future-like object of the scenarios settles to its
    [value] property, or fails with its [reason] when it has one. *)
Definition settle_object (v : Val) (w : World unit) : Outcome unit Val :=
  if is_undefined (get v "reason") then Returns (get v "value") w
  else Throws (get v "reason") w.

(** Nothing is queued in the scenarios, and their callers wait for the
    future: nothing runs while a function is suspended. *)
Definition nothing_meanwhile (w : World unit) : World unit := w.

Definition plain_env : Env unit :=
  mkEnv plain_user settle_object no_array_like nothing_meanwhile.

Definition dynamic_env : Env unit :=
  mkEnv dynamic_user settle_object no_array_like nothing_meanwhile.

(** Functions that return futures:
    - 10: [async x => x + 1], already resolved when awaited;
    - 11: [x => Promise.reject(new Error('Promise rejected'))];
    - 12: a function returning a foreign future-like object that settles
          to 42;
    - 13: a function returning a foreign future-like object that fails;
    - 14: [x => x * 2], deferred: its future-like result settles later.
    The others are those of [plain_user]. *)
Definition async_user (id : nat) (args : list Val) (w : World unit)
    : Outcome unit Val :=
  match id with
  | 10 => Returns (VPromise false (VNum (num (arg 0 args) + 1))) w
  | 11 => Returns (VPromise true (Error "Promise rejected")) w
  | 12 => Returns (VObj [("then", VFun 100 2); ("value", VNum 42)]) w
  | 13 => Returns (VObj [("then", VFun 100 2); ("reason", Error "Later failure")]) w
  | 14 => Returns (VObj [("then", VFun 100 2);
                         ("value", VNum (num (arg 0 args) * 2))]) w
  | _ => plain_user id args w
  end.

Definition async_env : Env unit :=
  mkEnv async_user settle_object no_array_like nothing_meanwhile.

Definition task_plus1 : Val := VFun 0 1.
Definition task_times2 : Val := VFun 1 1.
Definition task_minus1 : Val := VFun 2 1.
Definition index_is_1 : Val := VFun 3 2.
Definition task_fails : Val := VFun 4 1.
Definition pushing_wrapper : Val := VFun 5 5.
Definition always_true : Val := VFun 6 0.
Definition task_clears : Val := VFun 7 1.

(** A world whose task array holds the given functions. *)
Definition world_of (ts : list Val) : World unit := mkWorld (map Some ts) tt.

Definition start (ts : list Val) : St unit := mkSt (world_of ts) [].

(** [{ tasks }]: the options naming the shared array and nothing else. *)
Definition only_tasks : Val := VObj [("tasks", VTasks)].

Definition three_tasks : list Val := [task_plus1; task_times2; task_minus1].

(** The callable a builder makes of the given options over the given
    task functions (the trivial one when the build raises, which the
    scenarios never do). *)
Definition built (mk : Val -> World unit -> Try Callable) (opts : Val)
    (ts : list Val) : Callable :=
  match mk opts (world_of ts) with
  | Success c => c
  | Failure _ => {| fn_name := VUndefined; fn_length := VUndefined; body := TrivialBody |}
  end.

(** Scenario B: [skipCondition: (task, index) => index === 1]. *)
Definition B_options : Val :=
  VObj [("tasks", VTasks); ("skipCondition", index_is_1)].

Definition B_return : TaskReturn :=
  {| value := VNum 5; results := [Some (VNum 6); None; Some (VNum 5)];
     trivial := false; breakAt := (-1)%Z; skipped := [1] |}.

(** Options with all three hooks supplied. *)
Definition hooked_options : Val :=
  VObj [("tasks", VTasks); ("resultWrapper", pushing_wrapper);
        ("breakCondition", always_true); ("skipCondition", index_is_1)].

(** Scenario C: [breakCondition: (task, index) => index === 1]. *)
Definition C_options : Val :=
  VObj [("tasks", VTasks); ("breakCondition", index_is_1)].

Definition C_return : TaskReturn :=
  {| value := VNum 6; results := [Some (VNum 6); None; None];
     trivial := false; breakAt := 1%Z; skipped := [] |}.

Definition C_calls : list Event :=
  [HookCall Break 1 task_times2 (VNum 6) (Yielded (VBool true));
   HookCall Wrap 1 task_times2 (VNum 6) (Yielded (VArr [Some (VNum 6)]));
   TaskCall 0 task_plus1 (VArr [Some (VNum 5)]) (Yielded (VNum 6));
   HookCall Skip 0 task_plus1 VUndefined (Yielded (VBool false));
   HookCall Break 0 task_plus1 VUndefined (Yielded (VBool false));
   HookCall Wrap 0 task_plus1 VUndefined (Yielded (VArr [Some (VNum 5)]))].

Definition B_calls : list Event :=
  [TaskCall 2 task_minus1 (VArr [Some (VNum 6)]) (Yielded (VNum 5));
   HookCall Skip 2 task_minus1 (VNum 6) (Yielded (VBool false));
   HookCall Break 2 task_minus1 (VNum 6) (Yielded (VBool false));
   HookCall Wrap 2 task_minus1 (VNum 6) (Yielded (VArr [Some (VNum 6)]));
   HookCall Skip 1 task_times2 (VNum 6) (Yielded (VBool true));
   HookCall Break 1 task_times2 (VNum 6) (Yielded (VBool false));
   HookCall Wrap 1 task_times2 (VNum 6) (Yielded (VArr [Some (VNum 6)]));
   TaskCall 0 task_plus1 (VArr [Some (VNum 5)]) (Yielded (VNum 6));
   HookCall Skip 0 task_plus1 VUndefined (Yielded (VBool false));
   HookCall Break 0 task_plus1 VUndefined (Yielded (VBool false));
   HookCall Wrap 0 task_plus1 VUndefined (Yielded (VArr [Some (VNum 5)]))].

(** A task that raises mid-sequence. *)
Definition failing_tasks : list Val := [task_plus1; task_fails; task_minus1].

Definition failing_calls : list Event :=
  [TaskCall 1 task_fails (VArr [Some (VNum 6)]) (Failed (Error "Task failed"));
   HookCall Skip 1 task_fails (VNum 6) (Yielded (VBool false));
   HookCall Break 1 task_fails (VNum 6) (Yielded (VBool false));
   HookCall Wrap 1 task_fails (VNum 6) (Yielded (VArr [Some (VNum 6)]));
   TaskCall 0 task_plus1 (VArr [Some (VNum 5)]) (Yielded (VNum 6));
   HookCall Skip 0 task_plus1 VUndefined (Yielded (VBool false));
   HookCall Break 0 task_plus1 VUndefined (Yielded (VBool false));
   HookCall Wrap 0 task_plus1 VUndefined (Yielded (VArr [Some (VNum 5)]))].

(** Scenario A: the three arithmetic tasks, no hook. *)
Definition A_return : TaskReturn :=
  {| value := VNum 11;
     results := [Some (VNum 6); Some (VNum 12); Some (VNum 11)];
     trivial := false; breakAt := (-1)%Z; skipped := [] |}.

(** The dynamic-list test: one task, and a wrapper that appends a second
    one during the turn at index 0. *)
Definition pushing_options : Val :=
  VObj [("tasks", VTasks); ("resultWrapper", pushing_wrapper)].

Definition pushing_return : TaskReturn :=
  {| value := VNum 12; results := [Some (VNum 6); Some (VNum 12)];
     trivial := false; breakAt := (-1)%Z; skipped := [] |}.

Definition pushing_calls : list Event :=
  [TaskCall 1 task_times2 (VArr [Some (VNum 6)]) (Yielded (VNum 12));
   HookCall Skip 1 task_times2 (VNum 6) (Yielded (VBool false));
   HookCall Break 1 task_times2 (VNum 6) (Yielded (VBool false));
   HookCall Wrap 1 task_times2 (VNum 6) (Yielded (VArr [Some (VNum 6)]));
   TaskCall 0 task_plus1 (VArr [Some (VNum 5)]) (Yielded (VNum 6));
   HookCall Skip 0 task_plus1 VUndefined (Yielded (VBool false));
   HookCall Break 0 task_plus1 VUndefined (Yielded (VBool false));
   HookCall Wrap 0 task_plus1 VUndefined (Yielded (VArr [Some (VNum 5)]))].

(** The same wrapper with a break condition that always fires. *)
Definition push_and_break_options : Val :=
  VObj [("tasks", VTasks); ("resultWrapper", pushing_wrapper);
        ("breakCondition", always_true)].

(** Built over three tasks, called when the list has been emptied. *)
Definition emptied_return : TaskReturn :=
  {| value := VUndefined; results := []; trivial := false;
     breakAt := (-1)%Z; skipped := [] |}.

(** Scenario D: the arithmetic of scenario A, with a resolved promise, a
    deferred future and a plain function. *)
Definition D_tasks : list Val := [VFun 10 1; VFun 14 1; task_minus1].

(** Scenario C on the asynchronous engine. *)
Definition C_async : Callable := built createSerialTaskAsync C_options three_tasks.

(** Scenario B on the asynchronous engine. *)
Definition B_async : Callable := built createSerialTaskAsync B_options three_tasks.

(** A sparse task array, [[ , x => x + 1]]: a hole in the first slot. *)
Definition sparse_world : World unit := mkWorld [None; Some task_plus1] tt.

(** The options of the validation-order test: a numeric [name], a
    [tasks] array holding a string, a string as [breakCondition]. *)
Definition all_wrong_options : Val :=
  VObj [("name", VNum 123); ("tasks", VArr [Some (VStr "not a function")]);
        ("breakCondition", VStr "not a function")].

(** [{ name: 'customTask', tasks }] over a first task of three
    parameters. *)
Definition named_options : Val :=
  VObj [("name", VStr "customTask"); ("tasks", VTasks)].

Definition task_of_three : Val := VFun 0 3.

(** A synchronous callable given an [async] break condition. *)
Definition async_break_options : Val :=
  VObj [("tasks", VTasks); ("breakCondition", VFun 10 1)].

(** A future that rejects mid-sequence: [async x => x + 1], then
    [x => Promise.reject(new Error('Promise rejected'))]. *)
Definition rejecting_tasks : list Val := [VFun 10 1; VFun 11 1; task_minus1].

(** The options as the normalizer returns them for [{ tasks }]. *)
Definition plain_options : StrictOptions :=
  mkOptions (VStr "kskbTask") VTasks DEFAULT_BREAKER DEFAULT_SKIPPER
            DEFAULT_RESULT_WRAPPER.

(** Deferred work.  The user's program holds a variable [factor] and the
    jobs it has queued with [queueMicrotask], each an assignment to
    [factor]:
    - 20: [x => { queueMicrotask(() => { factor = 100 }); return x + 1 }];
    - 21: [x => x * factor].
    Any other identifier stands for [() => undefined].  While a function
    is suspended the queued jobs run, in order. *)
Definition deferring_user (id : nat) (args : list Val) (w : World (Z * list Z))
    : Outcome (Z * list Z) Val :=
  match id with
  | 20 => Returns (VNum (num (arg 0 args) + 1))
                  (mkWorld (wtasks w) (fst (wuser w), snd (wuser w) ++ [100%Z]))
  | 21 => Returns (VNum (num (arg 0 args) * fst (wuser w))) w
  | _ => Returns VUndefined w
  end.

Definition run_jobs (w : World (Z * list Z)) : World (Z * list Z) :=
  mkWorld (wtasks w) (fold_left (fun _ n => n) (snd (wuser w)) (fst (wuser w)), []).

Definition deferring_env : Env (Z * list Z) :=
  mkEnv deferring_user
        (fun v w => Returns (get v "value") (run_jobs w))
        (fun _ w => Returns [] w)
        run_jobs.

(** [factor = 2], nothing queued, and the two tasks. *)
Definition deferring_world : World (Z * list Z) :=
  mkWorld [Some (VFun 20 1); Some (VFun 21 1)] (2%Z, []).

Definition deferring_sync : Callable :=
  {| fn_name := VStr "kskbTask"; fn_length := VNum 1; body := SyncBody plain_options |}.

Definition deferring_async : Callable :=
  {| fn_name := VStr "kskbTask"; fn_length := VNum 1; body := AsyncBody plain_options |}.

End Scenario.

(** * Properties *)

(** ** The monad and the ways of calling *)

Section Calling.
Context {U : Type} (E : Env U).

Lemma quiet_ret {A} (a : A) : quiet (@ret U A a).
Proof. intros s. reflexivity. Qed.

Lemma quiet_throw {A} (e : Val) : quiet (@throw U A e).
Proof. intros s. reflexivity. Qed.

Lemma quiet_lift {A} (f : World U -> Outcome U A) : quiet (lift f).
Proof. intros s. unfold lift. destruct (f (world s)); reflexivity. Qed.

Lemma quiet_bind {A B} (m : M U A) (k : A -> M U B) :
  quiet m -> (forall a, quiet (k a)) -> quiet (bind m k).
Proof.
  intros Hm Hk s. unfold bind. specialize (Hm s).
  destruct (m s) as [a s'|e s'|]; try assumption.
  specialize (Hk a s'). destruct (k a s'); congruence.
Qed.

Lemma quiet_read_elems (a : Val) : quiet (@read_elems U a).
Proof. intros s. reflexivity. Qed.

Lemma quiet_call (f : Val) (args : list Val) : quiet (call E f args).
Proof.
  destruct f; simpl; auto using quiet_throw, quiet_lift.
Qed.

Lemma quiet_call_hook (h : HookFn) (args : list Val) : quiet (call_hook E h args).
Proof.
  destruct h; simpl; auto using quiet_ret, quiet_call.
  destruct (nth 1 args VUndefined) as [| |?|[| |]|?|? ?|?| |? ?|?];
    apply quiet_ret.
Qed.

Lemma quiet_CreateListFromArrayLike (v : Val) :
  quiet (CreateListFromArrayLike E v).
Proof.
  destruct v; simpl; auto using quiet_ret, quiet_throw, quiet_lift.
  apply quiet_bind; auto using quiet_read_elems, quiet_ret.
Qed.

Lemma quiet_fn_apply (task input : Val) : quiet (fn_apply E task input).
Proof.
  destruct task; simpl; auto using quiet_throw, quiet_call.
  apply quiet_bind; auto using quiet_CreateListFromArrayLike, quiet_call.
  intros a. apply (quiet_call (VFun id arity)).
Qed.

Lemma quiet_suspended : quiet (suspended E).
Proof. intros s. reflexivity. Qed.

Lemma quiet_await (v : Val) : quiet (await E v).
Proof.
  assert (Hr : forall r : Val, quiet (let* _ := suspended E in ret r))
    by (intros r; apply quiet_bind; auto using quiet_suspended, quiet_ret).
  assert (Ht : forall e : Val, quiet (let* _ := suspended E in @throw U Val e))
    by (intros e; apply quiet_bind; auto using quiet_suspended, quiet_throw).
  destruct v; simpl; auto using quiet_lift.
  - destruct rejected; auto.
  - destruct (isThenable (VObj ps)); auto using quiet_lift.
Qed.

Lemma quiet_PromiseTry (h : HookFn) (args : list Val) :
  quiet (PromiseTry E h args).
Proof.
  intros s. unfold PromiseTry. pose proof (quiet_call_hook h args s) as H.
  destruct (call_hook E h args s) as [r s'|e s'|]; try assumption.
  destruct (isThenable r); assumption.
Qed.

Lemma quiet_PromiseTrapply (fn args : Val) : quiet (PromiseTrapply E fn args).
Proof.
  intros s. unfold PromiseTrapply. pose proof (quiet_fn_apply fn args s) as H.
  destruct (fn_apply E fn args s) as [r s'|e s'|]; try assumption.
  destruct (isThenable r); assumption.
Qed.

Lemma quiet_sync_hook h args : quiet (sync_hook E h args).
Proof. apply quiet_call_hook. Qed.

Lemma quiet_sync_task task input : quiet (sync_task E task input).
Proof. apply quiet_fn_apply. Qed.

Lemma quiet_async_hook h args : quiet (async_hook E h args).
Proof.
  apply quiet_bind; auto using quiet_PromiseTry, quiet_await.
Qed.

Lemma quiet_async_task task input : quiet (async_task E task input).
Proof.
  apply quiet_bind; auto using quiet_PromiseTrapply, quiet_await.
Qed.

End Calling.

(** ** The loop skeleton *)

Lemma cons_log {A} (x : A) (evs l l' : list A) :
  l' = evs ++ l -> x :: l' = (x :: evs) ++ l.
Proof. intros ->. reflexivity. Qed.

(** Closes a case of [iteration_turn]: the equations on the call lists
    give the calls of the turn, a constructor of [turn] accepts them. *)
Ltac close_turn :=
  eexists; split;
  [ repeat match goal with
           | H : calls ?x = _ |- calls ?x = _ => rewrite H; apply cons_log
           end;
    symmetry; apply app_nil_l
  | econstructor; eassumption ].

Section SkeletonFacts.
Context {U : Type}.
Variable hook_call : HookFn -> list Val -> M U Val.
Variable task_call : Val -> Val -> M U Val.
Hypothesis hook_quiet : forall h args, quiet (hook_call h args).
Hypothesis task_quiet : forall task input, quiet (task_call task input).
Hypothesis hook_default :
  forall args s v s', hook_call DEFAULT_BREAKER args s = Ok v s' -> truthy v = false.

Lemma logged_quiet (mk : Settled -> Event) (m : M U Val) (s : St U) :
  quiet m ->
  match logged mk m s with
  | Ok v s' => calls s' = mk (Yielded v) :: calls s /\ exists s0, m s = Ok v s0
  | Err e s' => calls s' = mk (Failed e) :: calls s
  | Diverge => False
  end.
Proof.
  intros Hq. unfold logged. specialize (Hq s).
  destruct (m s) as [v s'|e s'|]; simpl; [split; [congruence|eauto]|congruence|assumption].
Qed.

Lemma default_never_fires h args s v s0 :
  hook_call h args s = Ok v s0 -> truthy v = true -> h <> DEFAULT_BREAKER.
Proof.
  intros Hc Hv ->. apply hook_default in Hc. congruence.
Qed.

(** A turn of the loop makes the calls of one of the seven cases of
    [turn], and always answers. *)
Lemma iteration_turn o args i task l s :
  match iteration hook_call task_call o args i task l s with
  | Ok st s' => exists evs, calls s' = evs ++ calls s /\ turn o i task l evs (inl st)
  | Err e s' => exists evs, calls s' = evs ++ calls s /\ turn o i task l evs (inr e)
  | Diverge => False
  end.
Proof.
  unfold iteration, bind.
  pose proof (logged_quiet (HookCall Wrap i task (last l)) _ s
                (hook_quiet (resultWrapper o) (hook_args o task i args (last l)))) as H1.
  destruct (logged (HookCall Wrap i task (last l)) _ s) as [input s1|e s1|];
    [destruct H1 as [H1 _] | close_turn | assumption ].
  pose proof (logged_quiet (HookCall Break i task (last l)) _ s1
                (hook_quiet (breakCondition o) (hook_args o task i args (last l)))) as H2.
  destruct (logged (HookCall Break i task (last l)) _ s1) as [b s2|e s2|];
    [destruct H2 as [H2 [sb Hcb]] | close_turn | assumption ].
  destruct (truthy b) eqn:Hb.
  { pose proof (default_never_fires _ _ _ _ _ Hcb Hb). simpl. close_turn. }
  pose proof (logged_quiet (HookCall Skip i task (last l)) _ s2
                (hook_quiet (skipCondition o) (hook_args o task i args (last l)))) as H3.
  destruct (logged (HookCall Skip i task (last l)) _ s2) as [k s3|e s3|];
    [destruct H3 as [H3 [sk Hck]] | close_turn | assumption ].
  destruct (truthy k) eqn:Hk.
  { pose proof (default_never_fires _ _ _ _ _ Hck Hk). simpl. close_turn. }
  pose proof (logged_quiet (TaskCall i task input) _ s3
                (task_quiet task input)) as H4.
  destruct (logged (TaskCall i task input) _ s3) as [r s4|e s4|];
    [destruct H4 as [H4 _] | close_turn | assumption ].
  simpl; close_turn.
Qed.

(** The invariant rule of the loop: an invariant kept by every turn that
    continues gives the postcondition at a break, at a failure, and when
    the index has reached the current length of the list. *)
Lemma loop_rule o args
    (Inv : nat -> Locals -> St U -> Prop)
    (Post : Locals -> St U -> Prop) (PostE : Val -> St U -> Prop) :
  (forall i l s s' evs l',
      Inv i l s -> (i < length (elems (tasks o) (world s)))%nat ->
      calls s' = evs ++ calls s ->
      turn o i (elem (elems (tasks o) (world s)) i) l evs (inl (Continue l')) ->
      Inv (S i) l' s') ->
  (forall i l s s' evs l',
      Inv i l s -> (i < length (elems (tasks o) (world s)))%nat ->
      calls s' = evs ++ calls s ->
      turn o i (elem (elems (tasks o) (world s)) i) l evs (inl (Stop l')) ->
      Post l' s') ->
  (forall i l s s' evs e,
      Inv i l s -> (i < length (elems (tasks o) (world s)))%nat ->
      calls s' = evs ++ calls s ->
      turn o i (elem (elems (tasks o) (world s)) i) l evs (inr e) ->
      PostE e s') ->
  (forall i l s,
      Inv i l s -> (length (elems (tasks o) (world s)) <= i)%nat -> Post l s) ->
  forall fuel i l s,
    Inv i l s ->
    match loop hook_call task_call fuel o args i l s with
    | Ok l' s' => Post l' s'
    | Err e s' => PostE e s'
    | Diverge => True
    end.
Proof.
  intros Hcont Hstop Hfail Hexit fuel.
  induction fuel as [|fuel IH]; intros i l s HInv; simpl; [exact I|].
  unfold bind at 1. simpl.
  destruct (Nat.ltb_spec i (length (elems (tasks o) (world s)))) as [Hlt|Hge].
  - unfold bind.
    pose proof (iteration_turn o args i (elem (elems (tasks o) (world s)) i) l s) as Ht.
    destruct (iteration hook_call task_call o args i _ l s) as [st s'|e s'|].
    + destruct Ht as (evs & Hc & Ht). destruct st as [l'|l'].
      * apply IH. eapply Hcont; eassumption.
      * simpl. eapply Hstop; eassumption.
    + destruct Ht as (evs & Hc & Ht). eapply Hfail; eassumption.
    + exact I.
  - simpl. eapply Hexit; eassumption.
Qed.

(** Every run of the loop from index 0 is a history followed by one of the
    three endings; when no break is recorded, the index has reached the
    length the list has at the end. *)
Lemma loop_ending o args n fuel s :
  calls s = [] ->
  match loop hook_call task_call fuel o args 0 (init_locals n) s with
  | Ok l s' =>
      exists i, ending o n (calls s') i (inl l)
                /\ (l_breakAt l = (-1)%Z ->
                    (length (elems (tasks o) (world s')) <= i)%nat)
  | Err e s' => exists i, ending o n (calls s') i (inr e)
  | Diverge => True
  end.
Proof.
  intros Hs.
  apply (loop_rule o args
           (fun i l s => history o n i l (calls s))
           (fun l s' => exists i, ending o n (calls s') i (inl l)
                                  /\ (l_breakAt l = (-1)%Z ->
                                      (length (elems (tasks o) (world s')) <= i)%nat))
           (fun e s' => exists i, ending o n (calls s') i (inr e))).
  - intros i l s0 s' evs l' Hh _ -> Ht. econstructor; eassumption.
  - intros i l s0 s' evs l' Hh _ -> Ht. exists i. split.
    + econstructor; eassumption.
    + inversion Ht; subst; simpl; lia.
  - intros i l s0 s' evs e Hh _ -> Ht. exists i. econstructor; eassumption.
  - intros i l s0 Hh Hlen. exists i. split; [constructor; assumption | auto].
  - rewrite Hs. constructor.
Qed.

End SkeletonFacts.

(** One unfolding of the loop. *)
Lemma loop_S {U} (hc : HookFn -> list Val -> M U Val) (tc : Val -> Val -> M U Val)
    fuel o args i l s :
  loop hc tc (S fuel) o args i l s
  = if (i <? length (elems (tasks o) (world s)))%nat then
      match iteration hc tc o args i (elem (elems (tasks o) (world s)) i) l s with
      | Ok (Continue l') s' => loop hc tc fuel o args (S i) l' s'
      | Ok (Stop l') s' => Ok l' s'
      | Err e s' => Err e s'
      | Diverge => Diverge
      end
    else Ok l s.
Proof.
  simpl. unfold bind, read_elems.
  destruct (i <? length (elems (tasks o) (world s)))%nat; [|reflexivity].
  destruct (iteration hc tc o args i _ l s) as [[l'|l'] s'|e s'|]; reflexivity.
Qed.

(** The loop depends on the ways of calling only through the calls it
    makes: hooks on hook argument lists, tasks on any input. *)
Lemma loop_ext {U} (hc1 hc2 : HookFn -> list Val -> M U Val)
    (tc1 tc2 : Val -> Val -> M U Val) o args :
  (forall h task i last s,
      hc1 h (hook_args o task i args last) s = hc2 h (hook_args o task i args last) s) ->
  (forall task input s, tc1 task input s = tc2 task input s) ->
  forall fuel i l s,
    loop hc1 tc1 fuel o args i l s = loop hc2 tc2 fuel o args i l s.
Proof.
  intros Hh Ht fuel. induction fuel as [|fuel IH]; intros i l s; [reflexivity|].
  rewrite !loop_S.
  destruct (i <? length (elems (tasks o) (world s)))%nat; [|reflexivity].
  assert (Hit : forall task s0,
             iteration hc1 tc1 o args i task l s0 = iteration hc2 tc2 o args i task l s0).
  { intros task s0. unfold iteration, bind, logged.
    rewrite Hh. destruct (hc2 (resultWrapper o) _ s0) as [input s1|?|]; try reflexivity.
    rewrite Hh. destruct (hc2 (breakCondition o) _ _) as [b s2|?|]; try reflexivity.
    destruct (truthy b); [reflexivity|].
    rewrite Hh. destruct (hc2 (skipCondition o) _ _) as [k s3|?|]; try reflexivity.
    destruct (truthy k); [reflexivity|].
    rewrite Ht. reflexivity. }
  rewrite Hit.
  destruct (iteration hc2 tc2 o args i _ l s) as [[l'|l'] s'|e s'|];
    try reflexivity.
  apply IH.
Qed.

Section Instances.
Context {U : Type} (E : Env U).

(** The loop of the synchronous engine is the skeleton over plain calls. *)
Lemma sync_loop_skeleton fuel o args i l s :
  sync_loop E fuel o args i l s
  = loop (sync_hook E) (sync_task E) fuel o args i l s.
Proof.
  revert i l s. induction fuel as [|fuel IH]; intros i l s; [reflexivity|].
  rewrite loop_S. cbn [sync_loop]. unfold bind at 1. cbn [read_elems].
  destruct (i <? length (elems (tasks o) (world s)))%nat; [|reflexivity].
  unfold iteration, sync_hook, sync_task, bind.
  destruct (logged (HookCall Wrap i _ (last l)) _ s) as [input s1|?|]; try reflexivity.
  destruct (logged (HookCall Break i _ (last l)) _ s1) as [b s2|?|]; try reflexivity.
  destruct (truthy b); [reflexivity|].
  destruct (logged (HookCall Skip i _ (last l)) _ s2) as [k s3|?|]; try reflexivity.
  destruct (truthy k); [apply IH|].
  destruct (logged (TaskCall i _ input) _ s3) as [r s4|?|]; try reflexivity.
  apply IH.
Qed.

(** The loop of the asynchronous engine is the skeleton over awaited
    calls. *)
Lemma async_loop_skeleton fuel o args i l s :
  async_loop E fuel o args i l s
  = loop (async_hook E) (async_task E) fuel o args i l s.
Proof.
  revert i l s. induction fuel as [|fuel IH]; intros i l s; [reflexivity|].
  rewrite loop_S. cbn [async_loop]. unfold bind at 1. cbn [read_elems].
  destruct (i <? length (elems (tasks o) (world s)))%nat; [|reflexivity].
  unfold iteration, async_hook, async_task, bind.
  destruct (logged (HookCall Wrap i _ (last l)) _ s) as [input s1|?|]; try reflexivity.
  destruct (logged (HookCall Break i _ (last l)) _ s1) as [b s2|?|]; try reflexivity.
  destruct (truthy b); [reflexivity|].
  destruct (logged (HookCall Skip i _ (last l)) _ s2) as [k s3|?|]; try reflexivity.
  destruct (truthy k); [apply IH|].
  destruct (logged (TaskCall i _ input) _ s3) as [r s4|?|]; try reflexivity.
  apply IH.
Qed.

Lemma sync_hook_default args s v s' :
  sync_hook E DEFAULT_BREAKER args s = Ok v s' -> truthy v = false.
Proof. cbv. intros [= <- _]. reflexivity. Qed.

Lemma async_hook_default args s v s' :
  async_hook E DEFAULT_BREAKER args s = Ok v s' -> truthy v = false.
Proof. cbv. intros [= <- _]. reflexivity. Qed.

(** What an awaited invocation of a looping callable of either engine
    gives: the variables of an ending, as a record. *)
Lemma awaited_ending c o fuel args w :
  body c = SyncBody o \/ body c = AsyncBody o ->
  match awaited E c fuel args (fresh w) with
  | Ok r s' =>
      exists i l, r = to_return l
        /\ ending o (length (elems (tasks o) w)) (calls s') i (inl l)
        /\ (breakAt r = (-1)%Z -> (length (elems (tasks o) (world s')) <= i)%nat)
  | Err e s' => exists i, ending o (length (elems (tasks o) w)) (calls s') i (inr e)
  | Diverge => True
  end.
Proof.
  intros [Hb|Hb]; unfold awaited, invoke; rewrite Hb.
  - unfold sync_fn, bind, read_elems. simpl.
    rewrite sync_loop_skeleton.
    pose proof (loop_ending (sync_hook E) (sync_task E)
                  (quiet_sync_hook E) (quiet_sync_task E) sync_hook_default
                  o args (length (elems (tasks o) w)) fuel (fresh w) eq_refl) as H.
    destruct (loop _ _ fuel o args 0 _ (fresh w)) as [l s'|e s'|]; simpl; auto.
    destruct H as (i & He & Hx). exists i, l. auto.
  - unfold async_fn, bind, read_elems. simpl.
    rewrite async_loop_skeleton.
    pose proof (loop_ending (async_hook E) (async_task E)
                  (quiet_async_hook E) (quiet_async_task E) async_hook_default
                  o args (length (elems (tasks o) w)) fuel (fresh w) eq_refl) as H.
    destruct (loop _ _ fuel o args 0 _ (fresh w)) as [l s'|e s'|]; simpl; auto.
    destruct H as (i & He & Hx). exists i, l. auto.
Qed.

(** A trivial callable answers at once, whatever the fuel. *)
Lemma awaited_trivial c fuel args s :
  body c = TrivialBody -> awaited E c fuel args s = Ok trivial_return s.
Proof. intros Hb. unfold awaited, invoke. rewrite Hb. reflexivity. Qed.

End Instances.

(** ** Arrays with holes *)

Lemma unset_new_Array n j : unset (new_Array n) j.
Proof.
  unfold unset, new_Array.
  destruct (replicate n (@None Val) !! j) as [x|] eqn:Hx; [|auto].
  apply lookup_replicate in Hx as [-> _]. auto.
Qed.

Lemma lookup_arr_set_eq xs i v : arr_set xs i v !! i = Some (Some v).
Proof.
  unfold arr_set. destruct (Nat.ltb_spec i (length xs)) as [Hlt|Hge].
  - apply list_lookup_insert_eq. assumption.
  - rewrite lookup_app_r by assumption.
    rewrite lookup_app_r by (rewrite length_replicate; lia).
    rewrite length_replicate. replace (i - length xs - (i - length xs)) with 0 by lia.
    reflexivity.
Qed.

Lemma lookup_arr_set_ne xs i j v u :
  i <> j -> xs !! j = Some (Some u) -> arr_set xs i v !! j = Some (Some u).
Proof.
  intros Hne Hj. unfold arr_set.
  destruct (Nat.ltb_spec i (length xs)) as [Hlt|Hge].
  - rewrite list_lookup_insert_ne by assumption. assumption.
  - apply lookup_app_l_Some. assumption.
Qed.

Lemma unset_arr_set_ne xs i j v :
  i <> j -> unset xs j -> unset (arr_set xs i v) j.
Proof.
  intros Hne Hu. unfold unset, arr_set in *.
  destruct (Nat.ltb_spec i (length xs)) as [Hlt|Hge].
  - rewrite list_lookup_insert_ne by assumption. assumption.
  - destruct (Nat.lt_ge_cases j (length xs)) as [Hj|Hj].
    + rewrite lookup_app_l by assumption. assumption.
    + rewrite lookup_app_r by assumption.
      destruct (Nat.lt_ge_cases j i) as [Hji|Hji].
      * right. rewrite lookup_app_l by (rewrite length_replicate; lia).
        apply lookup_replicate. split; [reflexivity | lia].
      * left. apply lookup_ge_None.
        rewrite length_app, length_replicate. simpl. lia.
Qed.

Lemma strictly_increasing_nil : strictly_increasing [].
Proof. intros a b x y Ha. rewrite lookup_nil in Ha. discriminate. Qed.

Lemma strictly_increasing_snoc l i :
  strictly_increasing l -> (forall j, In j l -> (j < i)%nat) ->
  strictly_increasing (l ++ [i]).
Proof.
  intros Hl Hlt a b x y Ha Hb Hab.
  assert (Hb' : (b < length (l ++ [i]))%nat) by (eapply lookup_lt_Some; eassumption).
  rewrite length_app in Hb'. simpl in Hb'.
  rewrite lookup_app_l in Ha by lia.
  destruct (Nat.lt_ge_cases b (length l)) as [Hbl|Hbl].
  - rewrite lookup_app_l in Hb by assumption. eapply Hl; eassumption.
  - rewrite lookup_app_r in Hb by assumption.
    replace (b - length l) with 0 in Hb by lia. injection Hb as <-.
    apply Hlt. apply list_elem_of_In. eapply list_elem_of_lookup_2. eassumption.
Qed.

(** ** Histories *)

Section Histories.
Variable o : StrictOptions.
Variable n : nat.

(** What every history leaves in the variables. *)
Lemma history_shape i l log :
  history o n i l log ->
  l_breakAt l = (-1)%Z
  /\ strictly_increasing (l_skipped l)
  /\ (forall j, In j (l_skipped l) -> (j < i)%nat)
  /\ (forall j, In j (l_skipped l) -> unset (l_results l) j)
  /\ (forall j, (i <= j)%nat -> unset (l_results l) j).
Proof.
  induction 1 as [|i l log task evs l' Hh (Hb & Hinc & Hlt & Hsk & Hun) Ht].
  - simpl. repeat split; auto using strictly_increasing_nil, unset_new_Array;
      intros j [].
  - inversion Ht; subst; simpl.
    + repeat split; auto.
      * apply strictly_increasing_snoc; assumption.
      * intros j Hj. apply in_app_or in Hj as [Hj|[<-|[]]]; [apply Hlt in Hj|]; lia.
      * intros j Hj. apply in_app_or in Hj as [Hj|[<-|[]]]; auto.
      * intros j Hj. apply Hun. lia.
    + repeat split; auto.
      * intros j Hj. apply Hlt in Hj. lia.
      * intros j Hj. apply unset_arr_set_ne; auto. apply Hlt in Hj. lia.
      * intros j Hj. apply unset_arr_set_ne; [lia|]. apply Hun. lia.
Qed.

End Histories.

(** What an ending leaves in the record. *)
Lemma ending_shape o n log i l :
  ending o n log i (inl l) ->
  strictly_increasing (l_skipped l)
  /\ (forall j, In j (l_skipped l) -> unset (l_results l) j)
  /\ ((0 <= l_breakAt l)%Z ->
      (forall j, In j (l_skipped l) -> (Z.of_nat j < l_breakAt l)%Z)
      /\ (forall j : nat, (l_breakAt l <= Z.of_nat j)%Z -> unset (l_results l) j)).
Proof.
  inversion 1 as [i0 l0 log0 Hh|i0 l0 log0 task evs l' Hh Ht|]; subst.
  - destruct (history_shape _ _ _ _ _ Hh) as (Hb & Hinc & Hlt & Hsk & Hun).
    repeat split; auto; lia.
  - destruct (history_shape _ _ _ _ _ Hh) as (Hb & Hinc & Hlt & Hsk & Hun).
    inversion Ht; subst; simpl.
    repeat split; auto.
    + intros j Hj. apply Hlt in Hj. lia.
    + intros j Hj. apply Hun. lia.
Qed.

(** ** The structural invariant of a returned record *)

(** C10.  In every record an invocation of either engine returns, the
    skipped indices grow strictly, the result slot of every skipped index
    is unset, and when a break is recorded ([breakAt >= 0]) it lies above
    every skipped index and every result slot from it on is unset. *)
Theorem return_well_formed {U} (E : Env U) c fuel args w r s' :
  awaited E c fuel args (fresh w) = Ok r s' ->
  strictly_increasing (skipped r)
  /\ (forall j, In j (skipped r) -> unset (results r) j)
  /\ ((0 <= breakAt r)%Z ->
      (forall j, In j (skipped r) -> (Z.of_nat j < breakAt r)%Z)
      /\ (forall j : nat, (breakAt r <= Z.of_nat j)%Z -> unset (results r) j)).
Proof.
  intros Hrun. destruct (body c) as [|o|o] eqn:Hb.
  - rewrite awaited_trivial in Hrun by assumption. injection Hrun as <- _.
    simpl. repeat split; auto using strictly_increasing_nil; try (intros j []); lia.
  - pose proof (awaited_ending E c o fuel args w (or_introl Hb)) as H.
    rewrite Hrun in H. destruct H as (i & l & -> & He & _).
    exact (ending_shape _ _ _ _ _ He).
  - pose proof (awaited_ending E c o fuel args w (or_intror Hb)) as H.
    rewrite Hrun in H. destruct H as (i & l & -> & He & _).
    exact (ending_shape _ _ _ _ _ He).
Qed.

(** Scenario B satisfies the invariant: [skipped = [1]], [results[1]]
    unset. *)
Lemma return_well_formed_witness :
  strictly_increasing (skipped Scenario.B_return)
  /\ (forall j, In j (skipped Scenario.B_return) ->
                unset (results Scenario.B_return) j)
  /\ ((0 <= breakAt Scenario.B_return)%Z ->
      (forall j, In j (skipped Scenario.B_return) ->
                 (Z.of_nat j < breakAt Scenario.B_return)%Z)
      /\ (forall j : nat, (breakAt Scenario.B_return <= Z.of_nat j)%Z ->
                          unset (results Scenario.B_return) j)).
Proof.
  eapply (return_well_formed Scenario.plain_env
            (Scenario.built createSerialTask Scenario.B_options Scenario.three_tasks)
            10 [VNum 5] (Scenario.world_of Scenario.three_tasks)).
  vm_compute. reflexivity.
Defined.

(** ** The normalizer *)

Lemma is_undefined_true v : is_undefined v = true <-> v = VUndefined.
Proof. destruct v; simpl; split; congruence. Qed.

Lemma is_null_true v : is_null v = true <-> v = VNull.
Proof. destruct v; simpl; split; congruence. Qed.

Lemma reject_input v :
  negb (is_object_type v) || is_null v = true <-> not_non_null_object v.
Proof.
  unfold not_non_null_object, is_object_type.
  rewrite orb_true_iff, negb_true_iff, is_null_true.
  destruct (String.eqb_spec (typeof v) "object") as [Ht|Ht]; split.
  - intros [? | ->]; [discriminate|]. intros [_ H]. congruence.
  - intros H. right. destruct v; try reflexivity; exfalso; apply H; split;
      solve [assumption | discriminate].
  - intros _ [? _]. contradiction.
  - intros _. left. reflexivity.
Qed.

Lemma reject_name v d :
  negb (is_string (or_default v (VStr d))) = true <-> present_but_not "string" v.
Proof.
  unfold present_but_not, or_default, is_string. rewrite negb_true_iff.
  destruct (is_undefined v) eqn:Hu.
  - apply is_undefined_true in Hu. subst. simpl. split; [discriminate|].
    intros [H _]. congruence.
  - assert (v <> VUndefined) by (intros ->; discriminate).
    destruct (String.eqb_spec (typeof v) "string"); split; intuition congruence.
Qed.

Lemma some_not_function_false xs :
  some_not_function xs = false <->
  forall t, In (Some t) xs -> typeof t = "function".
Proof.
  unfold some_not_function. induction xs as [|[t|] xs IH]; simpl.
  - split; [intros _ t []|reflexivity].
  - rewrite orb_false_iff, negb_false_iff, IH. unfold is_function.
    rewrite String.eqb_eq. split.
    + intros [Ht Hxs] t' [[= <-]|Hin]; auto.
    + intros H. split; [apply H; auto | intros t' Hin; apply H; auto].
  - rewrite IH. split.
    + intros H t [?|Hin]; [discriminate | auto].
    + intros H t Hin. apply H. auto.
Qed.

Lemma reject_tasks {U} v (w : World U) :
  negb (isArray v) || some_not_function (elems v w) = true <-> ~ function_array v w.
Proof.
  unfold function_array. rewrite <- some_not_function_false.
  destruct (isArray v), (some_not_function (elems v w)); simpl;
    split; intuition congruence.
Qed.

Lemma reject_hook v d :
  hook_is_function d = true ->
  negb (hook_is_function (hook_or_default v d)) = true <->
  present_but_not "function" v.
Proof.
  intros Hd. unfold present_but_not, hook_or_default. rewrite negb_true_iff.
  destruct (is_undefined v) eqn:Hu.
  - apply is_undefined_true in Hu. subst. rewrite Hd. split; [discriminate|].
    intros [H _]. congruence.
  - assert (v <> VUndefined) by (intros ->; discriminate).
    simpl. unfold is_function.
    destruct (String.eqb_spec (typeof v) "function"); split; intuition congruence.
Qed.

Lemma not_true_iff (b : bool) (P : Prop) : (b = true <-> P) -> b = false -> ~ P.
Proof. intros H Hb HP. apply H in HP. congruence. Qed.

(** The fields of normalized options. *)
Lemma normalize_fields {U} (options : Val) (w : World U) o :
  normalize options w = Success o ->
  name o = or_default (get options "name") (VStr "kskbTask")
  /\ tasks o = get options "tasks"
  /\ breakCondition o
     = hook_or_default (get options "breakCondition") DEFAULT_BREAKER
  /\ skipCondition o
     = hook_or_default (get options "skipCondition") DEFAULT_BREAKER
  /\ resultWrapper o
     = hook_or_default (get options "resultWrapper") DEFAULT_RESULT_WRAPPER.
Proof.
  unfold normalize. cbv zeta. intros Hn.
  repeat match type of Hn with
         | (if ?b then _ else _) = _ => destruct b; [discriminate|]
         end.
  injection Hn as <-. repeat split.
Qed.


(** ** Building *)

(** A builder succeeds on normalized options, with the trivial body when
    the list is empty at that time and the looping body otherwise. *)
Lemma build_cases {U} mk opts (w0 : World U) c :
  build mk opts w0 = Success c ->
  exists o, normalize opts w0 = Success o
    /\ ((elems (get opts "tasks") w0 = [] /\ body c = TrivialBody)
        \/ (elems (get opts "tasks") w0 <> [] /\ body c = mk o)).
Proof.
  unfold build. intros Hb.
  destruct (normalize opts w0) as [o|e] eqn:Hn; [|discriminate].
  destruct (normalize_fields _ _ _ Hn) as (_ & Ht & _).
  exists o. split; [reflexivity|]. rewrite <- Ht.
  destruct (elems (tasks o) w0) as [|x xs] eqn:He; simpl in Hb.
  - injection Hb as <-. left. auto.
  - right. split; [discriminate|].
    destruct (length_of (elem (x :: xs) 0) w0); [|discriminate].
    injection Hb as <-. reflexivity.
Qed.

(** ** The empty-list fast path *)

(** C8.  When the task list is empty at build time, every later call of
    the produced callable of either engine, with any arguments, in any
    state and with any hooks in the options, returns the trivial record
    and leaves the state as it was: no hook and no task is called. *)
Theorem empty_at_build_is_trivial {U} (E : Env U) opts (w0 : World U) c
    fuel args s :
  createSerialTask opts w0 = Success c \/ createSerialTaskAsync opts w0 = Success c ->
  elems (get opts "tasks") w0 = [] ->
  invoke E c fuel args s
  = Ok (Plain {| value := VUndefined; results := []; trivial := true;
                 breakAt := (-1)%Z; skipped := [] |}) s.
Proof.
  intros Hb He.
  assert (Hbody : body c = TrivialBody).
  { destruct Hb as [Hb|Hb]; apply build_cases in Hb as (o & _ & [[_ H]|[H _]]);
      solve [assumption | contradiction]. }
  unfold invoke. rewrite Hbody. reflexivity.
Qed.

(** Built over an empty list with all three hooks supplied, then called
    when the list holds three tasks: the trivial record, and no call. *)
Lemma empty_at_build_is_trivial_witness :
  invoke Scenario.plain_env
    (Scenario.built createSerialTask Scenario.hooked_options [])
    10 [VNum 5] (Scenario.start Scenario.three_tasks)
  = Ok (Plain {| value := VUndefined; results := []; trivial := true;
                 breakAt := (-1)%Z; skipped := [] |})
       (Scenario.start Scenario.three_tasks).
Proof.
  apply (empty_at_build_is_trivial Scenario.plain_env Scenario.hooked_options
           (Scenario.world_of [])).
  - left. reflexivity.
  - reflexivity.
Defined.

(** ** When a record is trivial *)

(** C4, as stated, fails in both directions: a callable built over an
    empty list answers [trivial = true] when the list holds three tasks at
    the call, and a callable built over three tasks answers
    [trivial = false] when the list is empty at the call. *)
Lemma trivial_at_call_time_counterexample :
  (createSerialTask Scenario.only_tasks (Scenario.world_of [])
   = Success (Scenario.built createSerialTask Scenario.only_tasks [])
   /\ awaited Scenario.plain_env
        (Scenario.built createSerialTask Scenario.only_tasks [])
        10 [VNum 5] (fresh (Scenario.world_of Scenario.three_tasks))
      = Ok trivial_return (fresh (Scenario.world_of Scenario.three_tasks))
   /\ trivial trivial_return = true
   /\ elems VTasks (Scenario.world_of Scenario.three_tasks) <> [])
  /\
  (createSerialTask Scenario.only_tasks (Scenario.world_of Scenario.three_tasks)
   = Success (Scenario.built createSerialTask Scenario.only_tasks Scenario.three_tasks)
   /\ awaited Scenario.plain_env
        (Scenario.built createSerialTask Scenario.only_tasks Scenario.three_tasks)
        10 [VNum 5] (fresh (Scenario.world_of []))
      = Ok {| value := VUndefined; results := []; trivial := false;
              breakAt := (-1)%Z; skipped := [] |}
           (fresh (Scenario.world_of []))
   /\ elems VTasks (Scenario.world_of []) = []).
Proof.
  repeat split; try reflexivity. discriminate.
Qed.

(** C4, amended.  The [trivial] field of the record an invocation of
    either engine returns is true if and only if the task list was empty
    when the callable was built; when it is true, the record is the
    trivial one and the invocation called nothing. *)
Theorem trivial_iff_empty_at_build {U} (E : Env U) opts (w0 : World U) c
    fuel args w r s' :
  createSerialTask opts w0 = Success c \/ createSerialTaskAsync opts w0 = Success c ->
  awaited E c fuel args (fresh w) = Ok r s' ->
  (trivial r = true <-> elems (get opts "tasks") w0 = [])
  /\ (trivial r = true ->
      r = {| value := VUndefined; results := []; trivial := true;
             breakAt := (-1)%Z; skipped := [] |}
      /\ s' = fresh w).
Proof.
  intros Hb Hrun.
  assert (Hc : exists o, (elems (get opts "tasks") w0 = [] /\ body c = TrivialBody)
                 \/ (elems (get opts "tasks") w0 <> []
                     /\ (body c = SyncBody o \/ body c = AsyncBody o))).
  { destruct Hb as [Hb|Hb]; apply build_cases in Hb as (o & _ & [H|[H1 H2]]);
      exists o; auto. }
  destruct Hc as (o & [[He Hbody]|[He Hbody]]).
  - rewrite awaited_trivial in Hrun by assumption. injection Hrun as <- <-.
    split; [split; auto|auto].
  - pose proof (awaited_ending E c o fuel args w Hbody) as H.
    rewrite Hrun in H. destruct H as (i & l & -> & _). simpl.
    split; [split; [discriminate|contradiction]|discriminate].
Qed.

(** Built over three tasks and called when the list is empty:
    [trivial = false]. *)
Lemma trivial_iff_empty_at_build_witness :
  (trivial Scenario.emptied_return = true <->
   elems (get Scenario.only_tasks "tasks")
         (Scenario.world_of Scenario.three_tasks) = [])
  /\ (trivial Scenario.emptied_return = true ->
      Scenario.emptied_return
      = {| value := VUndefined; results := []; trivial := true;
           breakAt := (-1)%Z; skipped := [] |}
      /\ fresh (Scenario.world_of []) = fresh (Scenario.world_of [])).
Proof.
  apply (trivial_iff_empty_at_build Scenario.plain_env Scenario.only_tasks
           (Scenario.world_of Scenario.three_tasks)
           (Scenario.built createSerialTask Scenario.only_tasks Scenario.three_tasks)
           10 [VNum 5] (Scenario.world_of [])
           Scenario.emptied_return
           (fresh (Scenario.world_of []))).
  - left. reflexivity.
  - reflexivity.
Defined.

(** ** Breaking *)

Lemma invoke_plain_awaited {U} (E : Env U) c fuel args s r s' :
  invoke E c fuel args s = Ok (Plain r) s' -> awaited E c fuel args s = Ok r s'.
Proof. unfold awaited, bind. intros ->. reflexivity. Qed.

(** The calls of a history: below the current index, none failed, no
    break condition fired. *)
Lemma history_events o n i l log :
  history o n i l log ->
  forall ev, In ev log ->
    (ev_index ev < i)%nat
    /\ (forall e, ev_out ev <> Failed e)
    /\ (forall j t lst b, ev = HookCall Break j t lst (Yielded b) -> truthy b = false).
Proof.
  induction 1 as [|i l log task evs l' Hh IH Ht]; intros ev Hin; [destruct Hin|].
  apply in_app_or in Hin as [Hin|Hin].
  - inversion Ht; subst; simpl in Hin;
      repeat (destruct Hin as [<-|Hin]; [simpl; repeat split; try lia; congruence|]);
      destruct Hin.
  - destruct (IH _ Hin) as (Hlt & Hf & Hb). repeat split; auto; lia.
Qed.

(** With the default skip condition nothing is skipped, and [last] is
    the result stored at the previous index. *)
Lemma history_no_skip o n i l log :
  skipCondition o = DEFAULT_BREAKER ->
  history o n i l log ->
  l_skipped l = []
  /\ (i = 0%nat -> last l = VUndefined)
  /\ (forall j, i = S j -> l_results l !! j = Some (Some (last l))).
Proof.
  intros Hd. induction 1 as [|i l log task evs l' Hh (Hs & H0 & HS) Ht].
  - simpl. repeat split; auto. discriminate.
  - inversion Ht; subst; simpl; [contradiction|].
    repeat split; auto; [discriminate|].
    intros j [= <-]. apply lookup_arr_set_eq.
Qed.

Lemma arr_read_pred_set xs j v :
  xs !! j = Some (Some v) -> arr_read xs (Z.of_nat (S j) - 1) = v.
Proof.
  intros H. unfold arr_read, elem.
  destruct (Z.ltb_spec (Z.of_nat (S j) - 1) 0); [lia|].
  replace (Z.to_nat (Z.of_nat (S j) - 1)) with j by lia. rewrite H. reflexivity.
Qed.

(** C2.  In an invocation of a callable of the synchronous engine whose
    skip condition is the default, if the break condition answers a
    truthy value at index [k], then the returned record has
    [breakAt = k], every result slot from [k] on is unset, [value] is
    [results[k-1]] ([undefined] when [k = 0]), no call is made at an
    index above [k], and neither the skip condition nor the task is
    called at index [k] or above.  (That the break condition answered
    falsy values before [k] need not be assumed: the loop would have
    stopped there.) *)
Theorem break_stops_the_loop {U} (E : Env U) opts (w0 : World U) c
    fuel args w r s' k task lst b :
  createSerialTask opts w0 = Success c ->
  get opts "skipCondition" = VUndefined ->
  invoke E c fuel args (fresh w) = Ok (Plain r) s' ->
  In (HookCall Break k task lst (Yielded b)) (calls s') ->
  truthy b = true ->
  breakAt r = Z.of_nat k
  /\ (forall j, (k <= j)%nat -> unset (results r) j)
  /\ value r = arr_read (results r) (Z.of_nat k - 1)
  /\ (k = 0%nat -> value r = VUndefined)
  /\ (forall j, k = S j -> results r !! j = Some (Some (value r)))
  /\ (forall ev, In ev (calls s') -> (ev_index ev <= k)%nat)
  /\ (forall j t input out,
        (k <= j)%nat -> ~ In (TaskCall j t input out) (calls s'))
  /\ (forall j t lst' out,
        (k <= j)%nat -> ~ In (HookCall Skip j t lst' out) (calls s')).
Proof.
  intros Hbuild Hskip Hrun Hin Hb.
  apply build_cases in Hbuild as (o & Hn & [[_ Hbody]|[_ Hbody]]).
  { unfold invoke in Hrun. rewrite Hbody in Hrun. injection Hrun as _ <-.
    destruct Hin. }
  apply normalize_fields in Hn as (_ & _ & _ & Hsk & _).
  rewrite Hskip in Hsk. simpl in Hsk.
  apply invoke_plain_awaited in Hrun.
  pose proof (awaited_ending E c o fuel args w (or_introl Hbody)) as H.
  rewrite Hrun in H. destruct H as (i & l & -> & He & _).
  inversion He as [i0 l0 log0 Hh|i0 l0 log0 tk evs l' Hh Ht|]; subst.
  - destruct (history_events _ _ _ _ _ Hh _ Hin) as (_ & _ & Hf).
    rewrite (Hf _ _ _ _ eq_refl) in Hb. discriminate.
  - destruct (history_no_skip _ _ _ _ _ Hsk Hh) as (Hs & H0 & HS).
    destruct (history_shape _ _ _ _ _ Hh) as (_ & _ & _ & _ & Hun).
    pose proof (history_events _ _ _ _ _ Hh) as Hev.
    inversion Ht; subst. rewrite <- H in Hin. simpl in Hin.
    assert (k = i).
    { destruct Hin as [[= -> _ _ _]|[[=]|Hin]]; [reflexivity|].
      destruct (Hev _ Hin) as (_ & _ & Hf).
      rewrite (Hf _ _ _ _ eq_refl) in Hb. discriminate. }
    subst k. simpl. repeat split.
    + assumption.
    + destruct i as [|j]; [rewrite H0 by reflexivity; reflexivity|].
      symmetry. apply arr_read_pred_set. apply HS. reflexivity.
    + assumption.
    + assumption.
    + intros ev [<-|[<-|Hev']]; simpl; try lia.
      destruct (Hev _ Hev') as (Hlt & _). lia.
    + intros j t inp out Hj [[=]|[[=]|Hin']].
      destruct (Hev _ Hin') as (Hlt & _). simpl in Hlt. lia.
    + intros j t lst' out Hj [[=]|[[=]|Hin']].
      destruct (Hev _ Hin') as (Hlt & _). simpl in Hlt. lia.
Qed.

(** Scenario C breaks at index 1. *)
Lemma break_stops_the_loop_witness :
  breakAt Scenario.C_return = 1%Z
  /\ (forall j, (1 <= j)%nat -> unset (results Scenario.C_return) j)
  /\ value Scenario.C_return = arr_read (results Scenario.C_return) (1 - 1)
  /\ (1%nat = 0%nat -> value Scenario.C_return = VUndefined)
  /\ (forall j, 1%nat = S j ->
        results Scenario.C_return !! j = Some (Some (value Scenario.C_return)))
  /\ (forall ev, In ev Scenario.C_calls -> (ev_index ev <= 1)%nat)
  /\ (forall j t input out,
        (1 <= j)%nat -> ~ In (TaskCall j t input out) Scenario.C_calls)
  /\ (forall j t lst' out,
        (1 <= j)%nat -> ~ In (HookCall Skip j t lst' out) Scenario.C_calls).
Proof.
  apply (break_stops_the_loop Scenario.plain_env Scenario.C_options
           (Scenario.world_of Scenario.three_tasks)
           (Scenario.built createSerialTask Scenario.C_options Scenario.three_tasks)
           10 [VNum 5] (Scenario.world_of Scenario.three_tasks)
           Scenario.C_return
           (mkSt (Scenario.world_of Scenario.three_tasks) Scenario.C_calls)
           1 Scenario.task_times2 (VNum 6) (VBool true)).
  - reflexivity.
  - reflexivity.
  - vm_compute. reflexivity.
  - simpl. left. reflexivity.
  - reflexivity.
Defined.

(** ** Skipping *)

Lemma elem_unset xs j : unset xs j -> elem xs j = VUndefined.
Proof. unfold elem. intros [->| ->]; reflexivity. Qed.

Lemma elem_arr_set_ne xs i j v : i <> j -> elem (arr_set xs i v) j = elem xs j.
Proof.
  intros Hne. destruct (xs !! j) as [[u|]|] eqn:Hj.
  - unfold elem. erewrite lookup_arr_set_ne by eassumption. rewrite Hj. reflexivity.
  - assert (Hu : unset xs j) by (right; assumption).
    rewrite (elem_unset xs j Hu). apply elem_unset.
    apply unset_arr_set_ne; assumption.
  - assert (Hu : unset xs j) by (left; assumption).
    rewrite (elem_unset xs j Hu). apply elem_unset.
    apply unset_arr_set_ne; assumption.
Qed.

Lemma arr_read_arr_set_ne xs i j v :
  Z.of_nat i <> j -> arr_read (arr_set xs i v) j = arr_read xs j.
Proof.
  intros Hne. unfold arr_read. destruct (Z.ltb_spec j 0); [reflexivity|].
  apply elem_arr_set_ne. lia.
Qed.

Lemma arr_read_arr_set_eq xs i v :
  arr_read (arr_set xs i v) (Z.of_nat (S i) - 1) = v.
Proof. exact (arr_read_pred_set _ _ _ (lookup_arr_set_eq xs i v)). Qed.

Lemma skips_only_at_app k evs log :
  skips_only_at k (evs ++ log) -> skips_only_at k evs /\ skips_only_at k log.
Proof.
  intros H. split; intros j t lst v Hin Hv;
    (eapply H; [apply in_or_app; eauto | exact Hv]).
Qed.

(** A history in which the skip condition fired at no index but [k]:
    up to [k] nothing is skipped and [last] is the result stored just
    before; once [k] was skipped, [k] is the one skipped index, its slot
    is unset, and the hook calls at [k + 1] received as [last] the result
    stored at [k - 1]. *)
Lemma history_one_skip o n k i l log :
  history o n i l log ->
  skips_only_at k log ->
  ((i <= k)%nat ->
     l_skipped l = [] /\ last l = arr_read (l_results l) (Z.of_nat i - 1))
  /\ ((k < i)%nat -> skipped_at k log ->
       l_skipped l = [k]
       /\ unset (l_results l) k
       /\ (forall h t lst out,
             In (HookCall h (S k) t lst out) log ->
             lst = arr_read (l_results l) (Z.of_nat k - 1))
       /\ (i = S k -> last l = arr_read (l_results l) (Z.of_nat k - 1))).
Proof.
  induction 1 as [|i l log task evs l' Hh IH Ht]; intros Honly.
  - split; [intros _; split; reflexivity | lia].
  - apply skips_only_at_app in Honly as [Hevs Hlog].
    destruct (IH Hlog) as [IHle IHgt]. clear IH.
    pose proof (history_events _ _ _ _ _ Hh) as Hev.
    destruct (history_shape _ _ _ _ _ Hh) as (_ & _ & _ & _ & Hun).
    assert (Hk_in_log : forall t lst v,
               In (HookCall Skip k t lst (Yielded v)) log -> (k < i)%nat).
    { intros t lst v Hin. destruct (Hev _ Hin) as (Hlt & _). exact Hlt. }
    inversion Ht; subst.
    + (* the turn at [i] skips: [i = k] *)
      assert (i = k) by (eapply Hevs; [left; reflexivity | assumption]).
      subst i. split; [lia|]. intros _ _. simpl.
      destruct (IHle (Nat.le_refl k)) as [Hs Hl]. rewrite Hs. simpl.
      repeat split; auto.
      intros h t lst out Hin. exfalso.
      destruct Hin as [[=]|[[=]|[[=]|Hin]]]; try lia.
      destruct (Hev _ Hin) as (Hlt & _). simpl in Hlt. lia.
    + (* the turn at [i] runs the task *)
      split.
      * intros Hle. destruct (IHle ltac:(lia)) as [Hs Hl]. simpl.
        split; [assumption|]. symmetry. apply arr_read_arr_set_eq.
      * intros Hlt [t [lst [v [Hin Hv]]]]. simpl.
        assert (Hin_log : In (HookCall Skip k t lst (Yielded v)) log).
        { destruct Hin as [[=]|[Hin|[[=]|[[=]|Hin]]]]; [|assumption].
          injection Hin as -> _ _ ->. congruence. }
        assert (Hki : (k < i)%nat) by eauto.
        destruct (IHgt Hki) as (Hs & Hu & Hh1 & Hl1).
        { exists t, lst, v. auto. }
        repeat split.
        -- assumption.
        -- apply unset_arr_set_ne; [lia | assumption].
        -- intros h t' lst' out Hin'.
           rewrite arr_read_arr_set_ne by lia.
           destruct Hin' as [[=]|[Hin'|[Hin'|[Hin'|Hin']]]];
             try (injection Hin' as _ Hi _ <- _; apply Hl1; exact Hi).
           eapply Hh1; eassumption.
        -- lia.
Qed.

(** C3.  In an invocation of a callable of the synchronous engine whose
    break condition is the default, if the skip condition answers a
    truthy value at index [k] and at no other index, then the returned
    record has [skipped = [k]], the result slot of [k] is unset, and
    every hook call at index [k + 1] (wrapper, break condition, skip
    condition) received as [last] the value of [results[k-1]]
    ([undefined] when [k = 0]): the skip left [last] as it was. *)
Theorem skip_leaves_last {U} (E : Env U) opts (w0 : World U) c
    fuel args w r s' k :
  createSerialTask opts w0 = Success c ->
  get opts "breakCondition" = VUndefined ->
  invoke E c fuel args (fresh w) = Ok (Plain r) s' ->
  skipped_at k (calls s') ->
  skips_only_at k (calls s') ->
  skipped r = [k]
  /\ unset (results r) k
  /\ (forall h t lst out,
        In (HookCall h (S k) t lst out) (calls s') ->
        lst = arr_read (results r) (Z.of_nat k - 1)).
Proof.
  intros Hbuild Hbreak Hrun Hat Honly.
  apply build_cases in Hbuild as (o & Hn & [[_ Hbody]|[_ Hbody]]).
  { unfold invoke in Hrun. rewrite Hbody in Hrun. injection Hrun as _ <-.
    destruct Hat as (t & lst & v & [] & _). }
  apply normalize_fields in Hn as (_ & _ & Hbr & _).
  rewrite Hbreak in Hbr. simpl in Hbr.
  apply invoke_plain_awaited in Hrun.
  pose proof (awaited_ending E c o fuel args w (or_introl Hbody)) as H.
  rewrite Hrun in H. destruct H as (i & l & -> & He & _).
  inversion He as [i0 l0 log0 Hh|i0 l0 log0 tk evs l' Hh Ht|]; subst.
  - destruct (history_one_skip _ _ k _ _ _ Hh Honly) as [_ Hgt].
    assert (Hki : (k < i)%nat).
    { destruct Hat as (t & lst & v & Hin & _).
      destruct (history_events _ _ _ _ _ Hh _ Hin) as (Hlt & _). exact Hlt. }
    destruct (Hgt Hki Hat) as (Hs & Hu & Hh1 & _). simpl. auto.
  - inversion Ht; subst. contradiction.
Qed.

(** Scenario B skips index 1 only. *)
Lemma skip_leaves_last_witness :
  skipped Scenario.B_return = [1]
  /\ unset (results Scenario.B_return) 1
  /\ (forall h t lst out,
        In (HookCall h 2 t lst out) Scenario.B_calls ->
        lst = arr_read (results Scenario.B_return) (1 - 1)).
Proof.
  apply (skip_leaves_last Scenario.plain_env Scenario.B_options
           (Scenario.world_of Scenario.three_tasks)
           (Scenario.built createSerialTask Scenario.B_options Scenario.three_tasks)
           10 [VNum 5] (Scenario.world_of Scenario.three_tasks)
           Scenario.B_return
           (mkSt (Scenario.world_of Scenario.three_tasks) Scenario.B_calls) 1).
  - reflexivity.
  - reflexivity.
  - vm_compute. reflexivity.
  - exists Scenario.task_times2, (VNum 6), (VBool true). split; [|reflexivity].
    simpl. do 4 right. left. reflexivity.
  - intros j t lst v Hin Hv. simpl in Hin.
    repeat (destruct Hin as [Hin|Hin];
            [ try discriminate Hin;
              injection Hin as <- <- <- <-; try reflexivity; discriminate Hv |]).
    destruct Hin.
Defined.

(** ** Failures *)

(** What a callable hands back, from what awaiting it gives. *)
Lemma invoke_sync {U} (E : Env U) c o fuel args s :
  body c = SyncBody o ->
  invoke E c fuel args s
  = match awaited E c fuel args s with
    | Ok r s' => Ok (Plain r) s'
    | Err e s' => Err e s'
    | Diverge => Diverge
    end.
Proof.
  intros Hb. unfold awaited, invoke, bind. rewrite Hb.
  destruct (sync_fn E fuel o args s); reflexivity.
Qed.

Lemma invoke_async {U} (E : Env U) c o fuel args s :
  body c = AsyncBody o ->
  invoke E c fuel args s
  = match awaited E c fuel args s with
    | Ok r s' => Ok (Promised (Success r)) s'
    | Err e s' => Ok (Promised (Failure e)) s'
    | Diverge => Diverge
    end.
Proof.
  intros Hb. unfold awaited, invoke, bind. rewrite Hb.
  destruct (async_fn E fuel o args s); reflexivity.
Qed.

(** A failed call ends the run: it is the newest call, and the run ends
    with its failure. *)
Lemma ending_failed o n log i res ev e :
  ending o n log i res ->
  In ev log -> ev_out ev = Failed e ->
  res = inr e /\ head log = Some ev.
Proof.
  intros He Hin Hout.
  assert (Hhist : forall i0 l0 log0, history o n i0 l0 log0 -> ~ In ev log0).
  { intros i0 l0 log0 Hh Hin0.
    destruct (history_events _ _ _ _ _ Hh _ Hin0) as (_ & Hf & _).
    exact (Hf e Hout). }
  inversion He as [i0 l0 log0 Hh|i0 l0 log0 tk evs l' Hh Ht|i0 l0 log0 tk evs e' Hh Ht];
    subst.
  - exfalso. eapply Hhist; eassumption.
  - exfalso. apply in_app_or in Hin as [Hin|Hin]; [|eapply Hhist; eassumption].
    inversion Ht; subst. simpl in Hin.
    destruct Hin as [<-|[<-|[]]]; discriminate.
  - apply in_app_or in Hin as [Hin|Hin]; [|exfalso; eapply Hhist; eassumption].
    inversion Ht; subst; simpl in Hin;
      repeat (destruct Hin as [<-|Hin];
              [ first [ discriminate Hout
                      | injection Hout as <-; split; reflexivity ] |]);
      destruct Hin.
Qed.

Section Indifference.
Context {U : Type} (E : Env U).

Lemma indifferent_ret {A} (a : A) : indifferent (@ret U A a).
Proof. intros s1 s2 Hw. simpl. rewrite Hw. reflexivity. Qed.

Lemma indifferent_throw {A} (e : Val) : indifferent (@throw U A e).
Proof. intros s1 s2 Hw. simpl. rewrite Hw. reflexivity. Qed.

Lemma indifferent_lift {A} (f : World U -> Outcome U A) : indifferent (lift f).
Proof.
  intros s1 s2 Hw. unfold lift. rewrite Hw.
  destruct (f (world s2)); reflexivity.
Qed.

Lemma indifferent_read_elems (a : Val) : indifferent (@read_elems U a).
Proof. intros s1 s2 Hw. simpl. rewrite Hw. reflexivity. Qed.

Lemma indifferent_bind {A B} (m : M U A) (k : A -> M U B) :
  indifferent m -> (forall a, indifferent (k a)) -> indifferent (bind m k).
Proof.
  intros Hm Hk s1 s2 Hw. unfold bind. specialize (Hm s1 s2 Hw).
  destruct (m s1) as [a1 t1|e1 t1|], (m s2) as [a2 t2|e2 t2|];
    simpl in Hm; try discriminate; try reflexivity.
  - injection Hm as -> Ht. apply Hk. assumption.
  - injection Hm as -> Ht. simpl. rewrite Ht. reflexivity.
Qed.

Lemma indifferent_call f args : indifferent (call E f args).
Proof.
  destruct f; simpl; auto using indifferent_throw, indifferent_lift.
Qed.

Lemma indifferent_CreateListFromArrayLike v :
  indifferent (CreateListFromArrayLike E v).
Proof.
  destruct v; simpl; auto using indifferent_ret, indifferent_throw, indifferent_lift.
  apply indifferent_bind; auto using indifferent_read_elems, indifferent_ret.
Qed.

Lemma indifferent_fn_apply task input : indifferent (fn_apply E task input).
Proof.
  destruct task; simpl; auto using indifferent_throw, indifferent_call.
  apply indifferent_bind; auto using indifferent_CreateListFromArrayLike.
  intros a. apply (indifferent_call (VFun id arity)).
Qed.

Lemma outcome_of_logged mk (m : M U Val) s :
  outcome_of (logged mk m s) = outcome_of (m s).
Proof. unfold logged. destruct (m s); reflexivity. Qed.

Lemma indifferent_call_hook h args : indifferent (call_hook E h args).
Proof.
  destruct h; simpl; auto using indifferent_ret, indifferent_call.
  destruct (nth 1 args VUndefined) as [| |?|[| |]|?|? ?|?| |? ?|?];
    apply indifferent_ret.
Qed.

Lemma indifferent_suspended : indifferent (suspended E).
Proof. intros s1 s2 Hw. simpl. rewrite Hw. reflexivity. Qed.

Lemma indifferent_await v : indifferent (await E v).
Proof.
  assert (Hr : forall r : Val, indifferent (let* _ := suspended E in ret r))
    by (intros r; apply indifferent_bind;
        auto using indifferent_suspended, indifferent_ret).
  assert (Ht : forall e : Val, indifferent (let* _ := suspended E in @throw U Val e))
    by (intros e; apply indifferent_bind;
        auto using indifferent_suspended, indifferent_throw).
  destruct v; simpl; auto using indifferent_lift.
  - destruct rejected; auto.
  - destruct (isThenable (VObj ps)); auto using indifferent_lift.
Qed.

End Indifference.

Lemma outcome_of_Returns {U A} (r : Res U A) a w :
  outcome_of r = Some (Returns a w) -> exists s, r = Ok a s /\ world s = w.
Proof.
  destruct r as [a' s|e s|]; simpl; try discriminate.
  intros [= <- <-]. eauto.
Qed.

Lemma outcome_of_Throws {U A} (r : Res U A) e w :
  outcome_of r = Some (Throws e w) -> exists s, r = Err e s /\ world s = w.
Proof.
  destruct r as [a' s|e' s|]; simpl; try discriminate.
  intros [= <- <-]. eauto.
Qed.

Lemma logged_Returns {U} mk (m : M U Val) s v w :
  outcome_of (m s) = Some (Returns v w) ->
  exists s1, logged mk m s = Ok v s1 /\ world s1 = w.
Proof.
  intros H. apply outcome_of_Returns in H as (s1 & H & Hw).
  unfold logged. rewrite H. eauto.
Qed.

Lemma logged_Throws {U} mk (m : M U Val) s e w :
  outcome_of (m s) = Some (Throws e w) ->
  exists s1, logged mk m s = Err e s1 /\ world s1 = w
             /\ head (calls s1) = Some (mk (Failed e)).
Proof.
  intros H. apply outcome_of_Throws in H as (s1 & H & Hw).
  unfold logged. rewrite H. eauto.
Qed.

(** The calls of the two engines give what the steps say. *)
Section Awaiting.
Context {U : Type} (E : Env U).

Lemma await_PromiseResolve v s :
  isThenable v = false -> await E (PromiseResolve v) s = await E v s.
Proof.
  intros Hv. destruct v; try reflexivity; try discriminate.
  unfold await. rewrite Hv. reflexivity.
Qed.

Lemma await_not_thenable v s :
  isThenable v = false ->
  await E v s = Ok v (mkSt (meanwhile E (world s)) (calls s)).
Proof.
  intros Hv. destruct v; try reflexivity; try discriminate.
  unfold await. rewrite Hv. reflexivity.
Qed.

(** Awaiting what [PromiseTry] and [PromiseTrapply] make of a call. *)
Lemma try_then_await (m : M U Val) s :
  indifferent m ->
  outcome_of (match m s with
              | Ok r s' => await E (if isThenable r then r else PromiseResolve r) s'
              | Err e s' => await E (PromiseReject e) s'
              | Diverge => Diverge
              end)
  = call_gives E true m (world s).
Proof.
  intros Hm. unfold call_gives.
  specialize (Hm s (fresh (world s)) eq_refl).
  destruct (m s) as [r s1|e s1|], (m (fresh (world s))) as [r2 s2|e2 s2|];
    simpl in Hm; try discriminate; try reflexivity.
  - injection Hm as <- Hw. cbn [outcome_of]. rewrite <- Hw.
    destruct (isThenable r) eqn:Hr.
    + apply indifferent_await. reflexivity.
    + rewrite await_PromiseResolve by assumption.
      apply indifferent_await. reflexivity.
  - injection Hm as <- Hw. cbn [outcome_of]. rewrite <- Hw. reflexivity.
Qed.

Lemma sync_hook_gives h args s :
  outcome_of (sync_hook E h args s) = call_gives E false (call_hook E h args) (world s).
Proof. apply indifferent_call_hook. reflexivity. Qed.

Lemma sync_task_gives task input s :
  outcome_of (sync_task E task input s)
  = call_gives E false (fn_apply E task input) (world s).
Proof. apply indifferent_fn_apply. reflexivity. Qed.

Lemma async_hook_gives h args s :
  outcome_of (async_hook E h args s) = call_gives E true (call_hook E h args) (world s).
Proof.
  rewrite <- (try_then_await _ s (indifferent_call_hook E h args)).
  unfold async_hook, bind, PromiseTry.
  destruct (call_hook E h args s) as [r s1|e s1|]; try reflexivity.
  destruct (isThenable r); reflexivity.
Qed.

Lemma async_task_gives task input s :
  outcome_of (async_task E task input s)
  = call_gives E true (fn_apply E task input) (world s).
Proof.
  rewrite <- (try_then_await _ s (indifferent_fn_apply E task input)).
  unfold async_task, bind, PromiseTrapply.
  destruct (fn_apply E task input s) as [r s1|e s1|]; try reflexivity.
  destruct (isThenable r); reflexivity.
Qed.

End Awaiting.

(** The loop follows the steps. *)
Section FollowingTheSteps.
Context {U : Type} (E : Env U) (async : bool) (o : StrictOptions) (args : list Val).
Variable hook_call : HookFn -> list Val -> M U Val.
Variable task_call : Val -> Val -> M U Val.
Hypothesis hook_spec :
  forall h i task lst s,
    outcome_of (hook_call h (hook_args o task i args lst) s)
    = hook_gives E async o args h i task lst (world s).
Hypothesis task_spec :
  forall task input s,
    outcome_of (task_call task input s) = task_gives E async task input (world s).

(** Brings a step of [index_steps] to the call the loop makes. *)
Ltac step_returns H s1 :=
  rewrite <- hook_spec in H;
  let Hw := fresh "Hw" in
  let He := fresh "He" in
  eapply logged_Returns in H as (s1 & He & Hw);
  rewrite He; clear He; subst.

Lemma iteration_steps i task l s en w' :
  index_steps E async o args i task (last l) (world s) en w' ->
  exists s', world s' = w'
    /\ match en with
       | Broke =>
           iteration hook_call task_call o args i task l s
           = Ok (Stop {| last := last l; l_results := l_results l;
                         l_breakAt := Z.of_nat i; l_skipped := l_skipped l |}) s'
       | Skipped =>
           iteration hook_call task_call o args i task l s
           = Ok (Continue {| last := last l; l_results := l_results l;
                             l_breakAt := l_breakAt l;
                             l_skipped := l_skipped l ++ [i] |}) s'
       | Ran r =>
           iteration hook_call task_call o args i task l s
           = Ok (Continue {| last := r; l_results := arr_set (l_results l) i r;
                             l_breakAt := l_breakAt l;
                             l_skipped := l_skipped l |}) s'
       | FailedWith e =>
           iteration hook_call task_call o args i task l s = Err e s'
           /\ exists ev, head (calls s') = Some ev
                         /\ ev_out ev = Failed e /\ ev_index ev = i
       end.
Proof.
  intros Hst. unfold iteration, bind.
  inversion Hst as [e w1 H1|input w1 e w2 H1 H2|input w1 b w2 H1 H2 Hb
                   |input w1 b w2 e w3 H1 H2 Hb H3
                   |input w1 b w2 k w3 H1 H2 Hb H3 Hk
                   |input w1 b w2 k w3 e w4 H1 H2 Hb H3 Hk H4
                   |input w1 b w2 k w3 r w4 H1 H2 Hb H3 Hk H4]; subst.
  - rewrite <- hook_spec in H1.
    eapply logged_Throws in H1 as (s1 & -> & Hw & Hh). eauto 8.
  - step_returns H1 s1. rewrite <- hook_spec in H2.
    eapply logged_Throws in H2 as (s2 & -> & Hw & Hh). eauto 8.
  - step_returns H1 s1. step_returns H2 s2. rewrite Hb. eauto.
  - step_returns H1 s1. step_returns H2 s2. rewrite Hb.
    rewrite <- hook_spec in H3.
    eapply logged_Throws in H3 as (s3 & -> & Hw & Hh). eauto 8.
  - step_returns H1 s1. step_returns H2 s2. rewrite Hb.
    step_returns H3 s3. rewrite Hk. eauto.
  - step_returns H1 s1. step_returns H2 s2. rewrite Hb.
    step_returns H3 s3. rewrite Hk.
    rewrite <- task_spec in H4.
    eapply logged_Throws in H4 as (s4 & -> & Hw & Hh). eauto 8.
  - step_returns H1 s1. step_returns H2 s2. rewrite Hb.
    step_returns H3 s3. rewrite Hk.
    rewrite <- task_spec in H4.
    eapply logged_Returns in H4 as (s4 & -> & Hw). eauto.
Qed.

(** An invocation that comes to an index is the loop continued from
    there. *)
Lemma reaches_loop n s0 i lst w :
  reaches E async o args (world s0) i lst w ->
  exists l s,
    last l = lst /\ world s = w
    /\ forall fuel,
         loop hook_call task_call (i + fuel) o args 0 (init_locals n) s0
         = loop hook_call task_call fuel o args i l s.
Proof.
  induction 1 as [|i lst w w' Hr IH Hlt Hst|i lst w r w' Hr IH Hlt Hst].
  - exists (init_locals n), s0. auto.
  - destruct IH as (l & s & <- & <- & IH).
    apply iteration_steps in Hst as (s' & Hw & Hit).
    exists {| last := last l; l_results := l_results l;
              l_breakAt := l_breakAt l; l_skipped := l_skipped l ++ [i] |}, s'.
    split; [reflexivity|]. split; [exact Hw|].
    intros fuel. replace (S i + fuel) with (i + S fuel) by lia.
    rewrite IH, loop_S.
    apply Nat.ltb_lt in Hlt. rewrite Hlt, Hit. reflexivity.
  - destruct IH as (l & s & <- & <- & IH).
    apply iteration_steps in Hst as (s' & Hw & Hit).
    exists {| last := r; l_results := arr_set (l_results l) i r;
              l_breakAt := l_breakAt l; l_skipped := l_skipped l |}, s'.
    split; [reflexivity|]. split; [exact Hw|].
    intros fuel. replace (S i + fuel) with (i + S fuel) by lia.
    rewrite IH, loop_S.
    apply Nat.ltb_lt in Hlt. rewrite Hlt, Hit. reflexivity.
Qed.

(** When the steps at an index the invocation comes to end in a failure,
    the loop ends with this failure, whatever lies ahead. *)
Lemma loop_fails n s0 i lst w e w' fuel :
  reaches E async o args (world s0) i lst w ->
  (i < length (elems (tasks o) w))%nat ->
  index_steps E async o args i (elem (elems (tasks o) w) i) lst w (FailedWith e) w' ->
  (i < fuel)%nat ->
  exists s' ev,
    loop hook_call task_call fuel o args 0 (init_locals n) s0 = Err e s'
    /\ world s' = w'
    /\ head (calls s') = Some ev /\ ev_out ev = Failed e /\ ev_index ev = i.
Proof.
  intros Hr Hlt Hst Hfuel.
  destruct (reaches_loop n s0 i lst w Hr) as (l & s & <- & <- & Hloop).
  apply iteration_steps in Hst as (s' & Hw & Hit & ev & Hev).
  exists s', ev. split; [|auto].
  replace fuel with (i + S (fuel - S i)) by lia.
  rewrite Hloop, loop_S.
  apply Nat.ltb_lt in Hlt. rewrite Hlt, Hit. reflexivity.
Qed.

End FollowingTheSteps.

(** C6.  When the steps at an index an invocation comes to end in a
    failure [e] (of the wrapper, a condition or the task; raised by the
    function or, in the asynchronous engine, carried by a future it
    returned that rejects), the invocation ends there with exactly [e]
    and no record: the synchronous callable raises [e], the asynchronous
    callable returns a future rejected with [e]; the failed call is the
    last call made and the world is as this call left it.  Conversely a
    failed call is always the last call of its invocation, which ends
    with its failure.  To the asynchronous engine a function that raises
    [e] and a function that returns a future rejected with [e] are the
    same failure. *)
Theorem failure_propagates {U} (E : Env U) c o (async : bool) fuel args w0 :
  body c = (if async then AsyncBody o else SyncBody o) ->
  (forall i lst w e w',
      reaches E async o args w0 i lst w ->
      (i < length (elems (tasks o) w))%nat ->
      index_steps E async o args i (elem (elems (tasks o) w) i) lst w
                  (FailedWith e) w' ->
      (i < fuel)%nat ->
      exists s' ev,
        invoke E c fuel args (fresh w0)
        = (if async then Ok (Promised (Failure e)) s' else Err e s')
        /\ world s' = w'
        /\ head (calls s') = Some ev /\ ev_out ev = Failed e /\ ev_index ev = i)
  /\ (forall s' ev e,
        state_of (invoke E c fuel args (fresh w0)) = Some s' ->
        In ev (calls s') -> ev_out ev = Failed e ->
        head (calls s') = Some ev
        /\ invoke E c fuel args (fresh w0)
           = (if async then Ok (Promised (Failure e)) s' else Err e s'))
  /\ (forall (m : M U Val) w e w1,
        outcome_of (m (fresh w)) = Some (Throws e w1)
        \/ outcome_of (m (fresh w)) = Some (Returns (VPromise true e) w1) ->
        call_gives E true m w = Some (Throws e (meanwhile E w1))).
Proof.
  intros Hb. split; [|split].
  - intros i lst w e w' Hr Hlt Hst Hfuel. unfold invoke. rewrite Hb.
    destruct async.
    + destruct (loop_fails E true o args (async_hook E) (async_task E)
                  (fun h i0 task lst0 s => async_hook_gives E h _ s)
                  (async_task_gives E)
                  (length (elems (tasks o) w0)) (fresh w0) i lst w e w' fuel
                  Hr Hlt Hst Hfuel) as (s' & ev & Hl & Hev).
      exists s', ev. split; [|exact Hev].
      unfold async_fn, bind, read_elems. cbn [world fresh].
      rewrite async_loop_skeleton, Hl. reflexivity.
    + destruct (loop_fails E false o args (sync_hook E) (sync_task E)
                  (fun h i0 task lst0 s => sync_hook_gives E h _ s)
                  (sync_task_gives E)
                  (length (elems (tasks o) w0)) (fresh w0) i lst w e w' fuel
                  Hr Hlt Hst Hfuel) as (s' & ev & Hl & Hev).
      exists s', ev. split; [|exact Hev].
      unfold sync_fn, bind, read_elems. cbn [world fresh].
      rewrite sync_loop_skeleton, Hl. reflexivity.
  - intros s' ev e Hst Hin Hout. destruct async.
    + pose proof (awaited_ending E c o fuel args w0 (or_intror Hb)) as H.
      rewrite (invoke_async E c o) in Hst |- * by assumption.
      destruct (awaited E c fuel args (fresh w0)) as [r s1|e1 s1|]; [| |discriminate];
        injection Hst as ->.
      * destruct H as (i & l & _ & He & _).
        destruct (ending_failed _ _ _ _ _ _ _ He Hin Hout) as [[=] _].
      * destruct H as (i & He).
        destruct (ending_failed _ _ _ _ _ _ _ He Hin Hout) as [[= ->] Hhd]. auto.
    + pose proof (awaited_ending E c o fuel args w0 (or_introl Hb)) as H.
      rewrite (invoke_sync E c o) in Hst |- * by assumption.
      destruct (awaited E c fuel args (fresh w0)) as [r s1|e1 s1|]; [| |discriminate];
        injection Hst as ->.
      * destruct H as (i & l & _ & He & _).
        destruct (ending_failed _ _ _ _ _ _ _ He Hin Hout) as [[=] _].
      * destruct H as (i & He).
        destruct (ending_failed _ _ _ _ _ _ _ He Hin Hout) as [[= ->] Hhd]. auto.
  - intros m w e w1 [H|H]; unfold call_gives; rewrite H; reflexivity.
Qed.

(** On the asynchronous engine: the second of three tasks returns a
    future that rejects; the second of three tasks raises.  Both
    invocations come to index 1 with the output 6 and end there, the
    returned future rejected with the failure. *)
Lemma failure_propagates_witness :
  (body (Scenario.built createSerialTaskAsync Scenario.only_tasks
                        Scenario.rejecting_tasks)
   = AsyncBody Scenario.plain_options
   /\ exists s',
       invoke Scenario.async_env
         (Scenario.built createSerialTaskAsync Scenario.only_tasks
                         Scenario.rejecting_tasks)
         4 [VNum 5] (fresh (Scenario.world_of Scenario.rejecting_tasks))
       = Ok (Promised (Failure (Scenario.Error "Promise rejected"))) s'
       /\ world s' = Scenario.world_of Scenario.rejecting_tasks)
  /\ (body (Scenario.built createSerialTaskAsync Scenario.only_tasks
                           Scenario.failing_tasks)
      = AsyncBody Scenario.plain_options
      /\ exists s',
          invoke Scenario.async_env
            (Scenario.built createSerialTaskAsync Scenario.only_tasks
                            Scenario.failing_tasks)
            4 [VNum 5] (fresh (Scenario.world_of Scenario.failing_tasks))
          = Ok (Promised (Failure (Scenario.Error "Task failed"))) s'
          /\ world s' = Scenario.world_of Scenario.failing_tasks).
Proof.
  split; (split; [reflexivity|]).
  - destruct (proj1 (failure_propagates Scenario.async_env
                       (Scenario.built createSerialTaskAsync Scenario.only_tasks
                                       Scenario.rejecting_tasks)
                       Scenario.plain_options true 4 [VNum 5]
                       (Scenario.world_of Scenario.rejecting_tasks) eq_refl)
                    1 (VNum 6) (Scenario.world_of Scenario.rejecting_tasks)
                    (Scenario.Error "Promise rejected")
                    (Scenario.world_of Scenario.rejecting_tasks))
      as (s' & ev & Hrun & Hw & _).
    + apply (reaches_ran _ _ _ _ _ 0 VUndefined
               (Scenario.world_of Scenario.rejecting_tasks)).
      * apply reaches_start.
      * simpl. lia.
      * apply (steps_ran _ _ _ _ _ _ _ _
                 (VArr [Some (VNum 5)]) (Scenario.world_of Scenario.rejecting_tasks)
                 (VBool false) (Scenario.world_of Scenario.rejecting_tasks)
                 (VBool false) (Scenario.world_of Scenario.rejecting_tasks));
          reflexivity.
    + simpl. lia.
    + apply (steps_task_fails _ _ _ _ _ _ _ _
               (VArr [Some (VNum 6)]) (Scenario.world_of Scenario.rejecting_tasks)
               (VBool false) (Scenario.world_of Scenario.rejecting_tasks)
               (VBool false) (Scenario.world_of Scenario.rejecting_tasks));
        reflexivity.
    + lia.
    + exists s'. split; assumption.
  - destruct (proj1 (failure_propagates Scenario.async_env
                       (Scenario.built createSerialTaskAsync Scenario.only_tasks
                                       Scenario.failing_tasks)
                       Scenario.plain_options true 4 [VNum 5]
                       (Scenario.world_of Scenario.failing_tasks) eq_refl)
                    1 (VNum 6) (Scenario.world_of Scenario.failing_tasks)
                    (Scenario.Error "Task failed")
                    (Scenario.world_of Scenario.failing_tasks))
      as (s' & ev & Hrun & Hw & _).
    + apply (reaches_ran _ _ _ _ _ 0 VUndefined
               (Scenario.world_of Scenario.failing_tasks)).
      * apply reaches_start.
      * simpl. lia.
      * apply (steps_ran _ _ _ _ _ _ _ _
                 (VArr [Some (VNum 5)]) (Scenario.world_of Scenario.failing_tasks)
                 (VBool false) (Scenario.world_of Scenario.failing_tasks)
                 (VBool false) (Scenario.world_of Scenario.failing_tasks));
          reflexivity.
    + simpl. lia.
    + apply (steps_task_fails _ _ _ _ _ _ _ _
               (VArr [Some (VNum 6)]) (Scenario.world_of Scenario.failing_tasks)
               (VBool false) (Scenario.world_of Scenario.failing_tasks)
               (VBool false) (Scenario.world_of Scenario.failing_tasks));
        reflexivity.
    + lia.
    + exists s'. split; assumption.
Defined.

(** ** The two engines on plain functions *)

Section Plain.
Context {U : Type} (E : Env U).
Hypothesis plain : plain_functions E.
Hypothesis calm : undisturbed E.

Lemma call_plain f args s v s' :
  call E f args s = Ok v s' -> isThenable v = false.
Proof.
  destruct f; simpl; try discriminate. unfold lift.
  destruct (user_fn E id args (world s)) as [r w'|e w'] eqn:Hu; [|discriminate].
  intros [= <- _]. eapply plain. eassumption.
Qed.

Lemma fn_apply_plain task input s v s' :
  fn_apply E task input s = Ok v s' -> isThenable v = false.
Proof.
  destruct task; simpl; try discriminate.
  - unfold bind. destruct (CreateListFromArrayLike E input s) as [argv s1|?|];
      try discriminate.
    apply (call_plain (VFun id arity)).
  - apply call_plain.
Qed.

Lemma call_hook_plain h o task i args lst s v s' :
  call_hook E h (hook_args o task i args lst) s = Ok v s' -> isThenable v = false.
Proof.
  destruct h; simpl.
  - intros [= <- _]. reflexivity.
  - destruct i; simpl; intros [= <- _]; reflexivity.
  - apply call_plain.
Qed.

(** Awaiting a plain value gives the value back, nothing having run
    meanwhile. *)
Lemma await_plain v s :
  isThenable v = false -> await E (PromiseResolve v) s = Ok v s.
Proof.
  intros Hv. rewrite await_PromiseResolve, await_not_thenable by assumption.
  rewrite calm. destruct s; reflexivity.
Qed.

(** Awaiting a rejection raises its reason, nothing having run
    meanwhile. *)
Lemma await_rejected e s : await E (PromiseReject e) s = Err e s.
Proof.
  unfold PromiseReject, await, bind, suspended, throw.
  rewrite calm. destruct s; reflexivity.
Qed.

Lemma async_hook_plain h o task i args lst s :
  async_hook E h (hook_args o task i args lst) s
  = sync_hook E h (hook_args o task i args lst) s.
Proof.
  unfold async_hook, sync_hook, bind, PromiseTry.
  destruct (call_hook E h _ s) as [v s'|e s'|] eqn:Hc;
    [|apply await_rejected|reflexivity].
  rewrite (call_hook_plain _ _ _ _ _ _ _ _ _ Hc).
  apply await_plain. eapply call_hook_plain. eassumption.
Qed.

Lemma async_task_plain task input s :
  async_task E task input s = sync_task E task input s.
Proof.
  unfold async_task, sync_task, bind, PromiseTrapply.
  destruct (fn_apply E task input s) as [v s'|e s'|] eqn:Hc;
    [|apply await_rejected|reflexivity].
  rewrite (fn_apply_plain _ _ _ _ _ Hc).
  apply await_plain. eapply fn_apply_plain. eassumption.
Qed.

Lemma async_fn_plain fuel o args s :
  async_fn E fuel o args s = sync_fn E fuel o args s.
Proof.
  unfold async_fn, sync_fn, bind. simpl.
  rewrite async_loop_skeleton, sync_loop_skeleton.
  rewrite (loop_ext (async_hook E) (sync_hook E) (async_task E) (sync_task E));
    [reflexivity | |].
  - intros h task i lst s0. apply async_hook_plain.
  - apply async_task_plain.
Qed.

End Plain.



Lemma plain_env_plain : plain_functions Scenario.plain_env.
Proof.
  intros n args w v w'. simpl. unfold Scenario.plain_user.
  destruct n as [|[|[|[|[|[|[|n]]]]]]];
    first [ discriminate | intros [= <- _]; reflexivity ].
Qed.

Lemma plain_env_undisturbed : undisturbed Scenario.plain_env.
Proof. intros w. reflexivity. Qed.


(** ** Default hooks: the fold of the tasks *)

Lemma insert_after {A} (l1 : list A) (x y : A) (l2 : list A) k :
  k = length l1 -> <[k := x]> (l1 ++ y :: l2) = l1 ++ x :: l2.
Proof.
  intros ->. induction l1 as [|a l1 IH]; simpl; [reflexivity|].
  f_equal. exact IH.
Qed.

Lemma arr_set_fill n outs r :
  arr_set (map Some outs ++ replicate (n - length outs) None) (length outs) r
  = map Some (outs ++ [r]) ++ replicate (n - length (outs ++ [r])) None.
Proof.
  unfold arr_set. rewrite !length_app, length_map, length_replicate. simpl.
  rewrite map_app. simpl.
  destruct (Nat.ltb_spec (length outs) (length outs + (n - length outs))) as [Hlt|Hge].
  - replace (n - length outs) with (S (n - (length outs + 1))) by lia.
    simpl. rewrite insert_after by (rewrite length_map; reflexivity).
    rewrite <- app_assoc. reflexivity.
  - replace (n - length outs) with 0 by lia.
    replace (n - (length outs + 1)) with 0 by lia.
    replace (length outs - (length outs + 0)) with 0 by lia.
    simpl. rewrite !app_nil_r. reflexivity.
Qed.

Section DefaultHooks.
Context {U : Type} (E : Env U).
Variable ts : Val.
Variable nm : Val.

(** One turn of the loop under default hooks: three hook calls that
    change nothing, then the task on the arguments (index 0) or on the
    last result. *)
Lemma sync_loop_default_S fuel args i l s :
  sync_loop E (S fuel) (default_options nm ts) args i l s
  = if (i <? length (elems ts (world s)))%nat then
      let task := elem (elems ts (world s)) i in
      let input := match i with
                   | O => VArr (map Some args)
                   | S _ => VArr [Some (last l)]
                   end in
      match logged (TaskCall i task input) (fn_apply E task input)
              (mkSt (world s)
                 (HookCall Skip i task (last l) (Yielded (VBool false))
                  :: HookCall Break i task (last l) (Yielded (VBool false))
                  :: HookCall Wrap i task (last l) (Yielded input)
                  :: calls s)) with
      | Ok r s' =>
          sync_loop E fuel (default_options nm ts) args (S i)
            {| last := r; l_results := arr_set (l_results l) i r;
               l_breakAt := l_breakAt l; l_skipped := l_skipped l |} s'
      | Err e s' => Err e s'
      | Diverge => Diverge
      end
    else Ok l s.
Proof.
  cbn [sync_loop]. unfold bind at 1. cbn [read_elems default_options tasks].
  destruct (i <? length (elems ts (world s)))%nat; [|reflexivity].
  destruct i; reflexivity.
Qed.

Lemma fold_tasks_S fuel i input outs s :
  fold_tasks E (S fuel) ts i input outs s
  = if (i <? length (elems ts (world s)))%nat then
      match apply_task E (elem (elems ts (world s)) i) input s with
      | Ok r s' => fold_tasks E fuel ts (S i) [r] (outs ++ [r]) s'
      | Err e s' => Err e s'
      | Diverge => Diverge
      end
    else Ok outs s.
Proof.
  cbn [fold_tasks]. unfold bind, read_elems.
  destruct (i <? length (elems ts (world s)))%nat; reflexivity.
Qed.

Lemma last_snoc_val (outs : list Val) r : List.last (outs ++ [r]) VUndefined = r.
Proof. apply last_last. Qed.

(** The loop under default hooks and the fold go in step. *)
Lemma sync_loop_is_fold n args fuel :
  forall i l input outs s1 s2,
    world s1 = world s2 ->
    i = length outs ->
    l = {| last := List.last outs VUndefined;
           l_results := map Some outs ++ replicate (n - length outs) None;
           l_breakAt := (-1)%Z; l_skipped := [] |} ->
    input = match i with O => args | S _ => [List.last outs VUndefined] end ->
    outcome_of (bind (sync_loop E fuel (default_options nm ts) args i l)
                     (fun l' => ret (to_return l')) s1)
    = outcome_of (bind (fold_tasks E fuel ts i input outs)
                       (fun outs' => ret (fold_record n outs')) s2).
Proof.
  induction fuel as [|fuel IH]; intros i l input outs s1 s2 Hw Hi Hl Hin;
    [reflexivity|].
  unfold bind at 1 2. rewrite sync_loop_default_S, fold_tasks_S. rewrite Hw.
  destruct (i <? length (elems ts (world s2)))%nat.
  - cbv zeta. unfold apply_task.
    set (task := elem (elems ts (world s2)) i).
    set (s3 := mkSt _ _).
    assert (Hinput : match i with
                     | O => VArr (map Some args)
                     | S _ => VArr [Some (last l)]
                     end = VArr (map Some input)).
    { subst input l. destruct i; reflexivity. }
    rewrite Hinput.
    pose proof (indifferent_fn_apply E task (VArr (map Some input)) s3 s2 eq_refl) as Hap.
    rewrite <- (outcome_of_logged (TaskCall i task (VArr (map Some input)))) in Hap.
    destruct (logged _ _ s3) as [r t1|e t1|],
             (fn_apply E task (VArr (map Some input)) s2) as [r2 t2|e2 t2|];
      simpl in Hap; try discriminate; try reflexivity.
    + injection Hap as -> Ht.
      apply (IH (S i) _ [r2] (outs ++ [r2]) t1 t2 Ht).
      * rewrite length_app. simpl. lia.
      * subst l i. simpl. rewrite last_snoc_val, arr_set_fill. reflexivity.
      * rewrite last_snoc_val. reflexivity.
    + injection Hap as -> Ht. simpl. rewrite Ht. reflexivity.
  - subst l. simpl. rewrite Hw. reflexivity.
Qed.

(** The synchronous function under default hooks returns the record of
    the fold. *)
Lemma sync_fn_is_fold fuel args s :
  outcome_of (sync_fn E fuel (default_options nm ts) args s)
  = outcome_of (fold_return E fuel ts args s).
Proof.
  unfold sync_fn, fold_return. unfold bind at 1 3. simpl.
  apply (sync_loop_is_fold (length (elems ts (world s))) args fuel 0 _ args [] s s);
    try reflexivity.
  unfold init_locals, new_Array. simpl. rewrite Nat.sub_0_r. reflexivity.
Qed.

End DefaultHooks.

Lemma lookup_map_Some (outs : list Val) i v (rest : list (option Val)) :
  outs !! i = Some v -> (map Some outs ++ rest) !! i = Some (Some v).
Proof.
  intros H. apply lookup_app_l_Some.
  change (map Some outs) with (Some <$> outs).
  rewrite list_lookup_fmap, H. reflexivity.
Qed.

(** C1.  A callable the synchronous engine builds over a non-empty task
    list with the three hooks left at their defaults does, on every
    invocation, what the fold of the tasks does: the same outcome (a
    record, a raised failure, or no answer within the same number of
    turns) and the same effects on the world.  The record has [value] the
    output of the last task run, [results[i]] the output of task [i] for
    every task run, [breakAt = -1] and [skipped] empty; task 0 was
    applied to the call arguments and each later task to the one-element
    list of the previous output. *)
Theorem default_hooks_fold {U} (E : Env U) opts (w0 : World U) c fuel args s :
  createSerialTask opts w0 = Success c ->
  elems (get opts "tasks") w0 <> [] ->
  get opts "breakCondition" = VUndefined ->
  get opts "skipCondition" = VUndefined ->
  get opts "resultWrapper" = VUndefined ->
  outcome_of (invoke E c fuel args s)
  = outcome_of ((let* r := fold_return E fuel (get opts "tasks") args in
                 ret (Plain r)) s)
  /\ (forall r w',
        outcome_of (invoke E c fuel args s) = Some (Returns (Plain r) w') ->
        exists outs,
          outcome_of (fold_tasks E fuel (get opts "tasks") 0 args [] s)
          = Some (Returns outs w')
          /\ value r = List.last outs VUndefined
          /\ (forall i v, outs !! i = Some v -> results r !! i = Some (Some v))
          /\ trivial r = false
          /\ breakAt r = (-1)%Z
          /\ skipped r = []).
Proof.
  intros Hbuild Hne Hb Hs Hw.
  apply build_cases in Hbuild as (o & Hn & [[He _]|[_ Hbody]]); [contradiction|].
  apply normalize_fields in Hn as (_ & Ht & Hbr & Hsk & Hwr).
  rewrite Hb in Hbr. rewrite Hs in Hsk. rewrite Hw in Hwr. simpl in Hbr, Hsk, Hwr.
  assert (Ho : o = default_options (name o) (get opts "tasks")).
  { destruct o; simpl in *; subst; reflexivity. }
  pose proof (sync_fn_is_fold E (get opts "tasks") (name o) fuel args s) as Hfold.
  rewrite <- Ho in Hfold.
  assert (Heq : outcome_of (invoke E c fuel args s)
                = outcome_of ((let* r := fold_return E fuel (get opts "tasks") args in
                               ret (Plain r)) s)).
  { unfold invoke. rewrite Hbody. unfold bind at 1 2.
    destruct (sync_fn E fuel o args s), (fold_return E fuel (get opts "tasks") args s);
      simpl in Hfold |- *; congruence. }
  split; [exact Heq|].
  intros r w' Hr. rewrite Heq in Hr.
  unfold fold_return, bind, read_elems in Hr.
  destruct (fold_tasks E fuel (get opts "tasks") 0 args [] s) as [outs s1|e s1|];
    simpl in Hr; try discriminate.
  injection Hr as <- <-. exists outs. simpl. repeat split.
  intros i v. apply lookup_map_Some.
Qed.

(** Scenario A: [value = 11], [results = [6, 12, 11]]. *)
Lemma default_hooks_fold_witness :
  outcome_of (invoke Scenario.plain_env
                (Scenario.built createSerialTask Scenario.only_tasks
                                Scenario.three_tasks)
                10 [VNum 5] (Scenario.start Scenario.three_tasks))
  = Some (Returns (Plain Scenario.A_return)
                  (Scenario.world_of Scenario.three_tasks)).
Proof.
  rewrite (proj1 (default_hooks_fold Scenario.plain_env Scenario.only_tasks
                    (Scenario.world_of Scenario.three_tasks)
                    (Scenario.built createSerialTask Scenario.only_tasks
                                    Scenario.three_tasks)
                    10 [VNum 5] (Scenario.start Scenario.three_tasks)
                    eq_refl ltac:(discriminate) eq_refl eq_refl eq_refl)).
  vm_compute. reflexivity.
Defined.

(** ** A list that grows during the loop *)

(** Every index below the current one was visited. *)
Lemma history_visits o n i l log :
  history o n i l log ->
  forall j, (j < i)%nat ->
    exists task lst out, In (HookCall Wrap j task lst out) log.
Proof.
  induction 1 as [|i l log task evs l' Hh IH Ht]; intros j Hj; [lia|].
  destruct (Nat.eq_dec j i) as [->|Hne].
  - exists task, (last l).
    inversion Ht; subst; eexists; apply in_or_app; left; simpl; eauto 6.
  - destruct (IH j ltac:(lia)) as (t & lst & out & Hin).
    exists t, lst, out. apply in_or_app. auto.
Qed.




(** ** Enough fuel gives an answer *)

Section Keeping.
Context {U : Type} (E : Env U) (P : World U -> Prop).
Hypothesis kept : env_keeps E P.

Lemma keeps_ret {A} (a : A) : keeps P (@ret U A a).
Proof. intros s Hs. exact Hs. Qed.

Lemma keeps_throw {A} (e : Val) : keeps P (@throw U A e).
Proof. intros s Hs. exact Hs. Qed.

Lemma keeps_read_elems (a : Val) : keeps P (@read_elems U a).
Proof. intros s Hs. exact Hs. Qed.

Lemma keeps_bind {A B} (m : M U A) (k : A -> M U B) :
  keeps P m -> (forall a, keeps P (k a)) -> keeps P (bind m k).
Proof.
  intros Hm Hk s Hs. unfold bind. specialize (Hm s Hs).
  destruct (m s) as [a s'|e s'|]; try assumption.
  apply Hk. assumption.
Qed.

Lemma keeps_logged mk (m : M U Val) : keeps P m -> keeps P (logged mk m).
Proof.
  intros Hm s Hs. unfold logged. specialize (Hm s Hs).
  destruct (m s); assumption.
Qed.

Lemma keeps_call f args : keeps P (call E f args).
Proof.
  destruct f; simpl; auto using keeps_throw.
  intros s Hs. unfold lift. destruct kept as (Hu & _ & _ & _).
  specialize (Hu id args (world s) Hs).
  destruct (user_fn E id args (world s)); exact Hu.
Qed.

Lemma keeps_call_hook h args : keeps P (call_hook E h args).
Proof.
  destruct h; simpl; auto using keeps_ret, keeps_call.
  destruct (nth 1 args VUndefined) as [| |?|[| |]|?|? ?|?| |? ?|?];
    apply keeps_ret.
Qed.

Lemma keeps_CreateListFromArrayLike v : keeps P (CreateListFromArrayLike E v).
Proof.
  destruct v; simpl; auto using keeps_ret, keeps_throw.
  - apply keeps_bind; auto using keeps_read_elems, keeps_ret.
  - intros s Hs. unfold lift. destruct kept as (_ & _ & Ha & _).
    specialize (Ha ps (world s) Hs).
    destruct (array_like E ps (world s)); exact Ha.
Qed.

Lemma keeps_fn_apply task input : keeps P (fn_apply E task input).
Proof.
  destruct task; simpl; auto using keeps_throw, keeps_call.
  apply keeps_bind; auto using keeps_CreateListFromArrayLike.
  intros a. apply (keeps_call (VFun id arity)).
Qed.

Lemma keeps_settle v : keeps P (lift (settle E v)).
Proof.
  intros s Hs. unfold lift. destruct kept as (_ & Hst & _ & _).
  specialize (Hst v (world s) Hs). destruct (settle E v (world s)); exact Hst.
Qed.

Lemma keeps_suspended : keeps P (suspended E).
Proof.
  intros s Hs. destruct kept as (_ & _ & _ & Hm). simpl. auto.
Qed.

Lemma keeps_await v : keeps P (await E v).
Proof.
  assert (Hr : forall r : Val, keeps P (let* _ := suspended E in ret r))
    by (intros r; apply keeps_bind; auto using keeps_suspended, keeps_ret).
  assert (Ht : forall e : Val, keeps P (let* _ := suspended E in @throw U Val e))
    by (intros e; apply keeps_bind; auto using keeps_suspended, keeps_throw).
  destruct v; simpl; auto.
  - destruct rejected; auto.
  - destruct (isThenable (VObj ps)); auto using keeps_settle.
Qed.

Lemma keeps_sync_hook h args : keeps P (sync_hook E h args).
Proof. apply keeps_call_hook. Qed.

Lemma keeps_sync_task task input : keeps P (sync_task E task input).
Proof. apply keeps_fn_apply. Qed.

Lemma keeps_async_hook h args : keeps P (async_hook E h args).
Proof.
  apply keeps_bind; [|apply keeps_await].
  intros s Hs. unfold PromiseTry. pose proof (keeps_call_hook h args s Hs) as H.
  destruct (call_hook E h args s) as [r s'|e s'|]; try assumption.
  destruct (isThenable r); assumption.
Qed.

Lemma keeps_async_task task input : keeps P (async_task E task input).
Proof.
  apply keeps_bind; [|apply keeps_await].
  intros s Hs. unfold PromiseTrapply. pose proof (keeps_fn_apply task input s Hs) as H.
  destruct (fn_apply E task input s) as [r s'|e s'|]; try assumption.
  destruct (isThenable r); assumption.
Qed.

End Keeping.

Section Answering.
Context {U : Type}.
Variable hook_call : HookFn -> list Val -> M U Val.
Variable task_call : Val -> Val -> M U Val.
Variable o : StrictOptions.
Variable N : nat.
Hypothesis hook_keeps : forall h args, keeps (at_most N (tasks o)) (hook_call h args).
Hypothesis task_keeps : forall t i, keeps (at_most N (tasks o)) (task_call t i).

Lemma keeps_iteration args i task l :
  keeps (at_most N (tasks o)) (iteration hook_call task_call o args i task l).
Proof.
  unfold iteration.
  apply keeps_bind; [apply keeps_logged, hook_keeps|]. intros input.
  apply keeps_bind; [apply keeps_logged, hook_keeps|]. intros b.
  destruct (truthy b); [apply keeps_ret|].
  apply keeps_bind; [apply keeps_logged, hook_keeps|]. intros k.
  destruct (truthy k); [apply keeps_ret|].
  apply keeps_bind; [apply keeps_logged, task_keeps|]. intros r.
  apply keeps_ret.
Qed.

(** While the list holds at most [N] tasks, the loop from index [i]
    answers within [N - i + 1] evaluations of its condition. *)
Lemma loop_answers args fuel :
  forall i l s,
    at_most N (tasks o) (world s) -> (N - i < fuel)%nat ->
    loop hook_call task_call fuel o args i l s <> Diverge.
Proof.
  induction fuel as [|fuel IH]; intros i l s Hs Hfuel; [lia|].
  rewrite loop_S.
  destruct (Nat.ltb_spec i (length (elems (tasks o) (world s)))) as [Hlt|Hge];
    [|discriminate].
  pose proof (keeps_iteration args i (elem (elems (tasks o) (world s)) i) l s Hs) as Hk.
  destruct (iteration hook_call task_call o args i _ l s) as [[l'|l'] s'|e s'|];
    try discriminate; [|contradiction].
  apply IH; [assumption|]. unfold at_most in Hs. lia.
Qed.

End Answering.

(** An invocation answers when the fuel exceeds a bound that the length
    of the task list keeps throughout. *)
Lemma enough_fuel {U} (E : Env U) c N fuel args s :
  (forall o, body c = SyncBody o \/ body c = AsyncBody o ->
             env_keeps E (at_most N (tasks o)) /\ at_most N (tasks o) (world s)) ->
  (N < fuel)%nat ->
  invoke E c fuel args s <> Diverge.
Proof.
  intros Hk Hfuel. unfold invoke.
  destruct (body c) as [|o|o] eqn:Hb; [discriminate| |].
  - destruct (Hk o (or_introl eq_refl)) as [Hkeep Hs].
    unfold sync_fn, bind, read_elems. cbn [ret].
    rewrite sync_loop_skeleton.
    pose proof (loop_answers (sync_hook E) (sync_task E) o N
                  (keeps_sync_hook E _ Hkeep) (keeps_sync_task E _ Hkeep)
                  args fuel 0 (init_locals (length (elems (tasks o) (world s)))) s
                  Hs ltac:(lia)) as H.
    destruct (loop _ _ fuel o args 0 _ s); try discriminate. contradiction.
  - destruct (Hk o (or_intror eq_refl)) as [Hkeep Hs].
    unfold async_fn, bind, read_elems. cbn [ret].
    rewrite async_loop_skeleton.
    pose proof (loop_answers (async_hook E) (async_task E) o N
                  (keeps_async_hook E _ Hkeep) (keeps_async_task E _ Hkeep)
                  args fuel 0 (init_locals (length (elems (tasks o) (world s)))) s
                  Hs ltac:(lia)) as H.
    destruct (loop _ _ fuel o args 0 _ s); try discriminate. contradiction.
Qed.

(** The environment of the dynamic-list test never lets the list grow
    beyond two tasks, so three turns of fuel are enough there. *)
Lemma dynamic_env_at_most_2 :
  env_keeps Scenario.dynamic_env (at_most 2 VTasks).
Proof.
  unfold env_keeps, at_most. simpl. repeat split.
  - intros n args w Hw. unfold Scenario.dynamic_user, Scenario.plain_user.
    destruct n as [|[|[|[|[|[|[|[|n]]]]]]]]; simpl; try assumption; try lia.
    destruct (_ && _)%bool eqn:Hc; simpl; [|assumption].
    apply andb_true_iff in Hc as [_ Hc]. apply Nat.eqb_eq in Hc.
    rewrite length_app, Hc. simpl. lia.
  - intros v w Hw. unfold Scenario.settle_object.
    destruct (is_undefined _); assumption.
  - intros ps w Hw. assumption.
  - intros w Hw. assumption.
Qed.

(** ** The scenarios of the test suite, run *)

Example scenario_A :
  outcome_of (invoke Scenario.plain_env
                (Scenario.built createSerialTask Scenario.only_tasks
                                Scenario.three_tasks)
                4 [VNum 5] (Scenario.start Scenario.three_tasks))
  = Some (Returns (Plain Scenario.A_return)
                  (Scenario.world_of Scenario.three_tasks)).
Proof. vm_compute. reflexivity. Qed.

Example scenario_B :
  outcome_of (invoke Scenario.plain_env
                (Scenario.built createSerialTask Scenario.B_options
                                Scenario.three_tasks)
                4 [VNum 5] (Scenario.start Scenario.three_tasks))
  = Some (Returns (Plain Scenario.B_return)
                  (Scenario.world_of Scenario.three_tasks)).
Proof. vm_compute. reflexivity. Qed.

Example scenario_C :
  outcome_of (invoke Scenario.plain_env
                (Scenario.built createSerialTask Scenario.C_options
                                Scenario.three_tasks)
                4 [VNum 5] (Scenario.start Scenario.three_tasks))
  = Some (Returns (Plain Scenario.C_return)
                  (Scenario.world_of Scenario.three_tasks)).
Proof. vm_compute. reflexivity. Qed.

Example scenario_D :
  outcome_of (invoke Scenario.async_env
                (Scenario.built createSerialTaskAsync Scenario.only_tasks
                                Scenario.D_tasks)
                4 [VNum 5] (Scenario.start Scenario.D_tasks))
  = Some (Returns (Promised (Success Scenario.A_return))
                  (Scenario.world_of Scenario.D_tasks)).
Proof. vm_compute. reflexivity. Qed.

(** A foreign future-like result is awaited: 6, then 42, then 84. *)
Example scenario_thenable :
  outcome_of (invoke Scenario.async_env
                (Scenario.built createSerialTaskAsync Scenario.only_tasks
                                [Scenario.task_plus1; VFun 12 0; Scenario.task_times2])
                4 [VNum 5]
                (Scenario.start [Scenario.task_plus1; VFun 12 0; Scenario.task_times2]))
  = Some (Returns
            (Promised (Success
               {| value := VNum 84;
                  results := [Some (VNum 6); Some (VNum 42); Some (VNum 84)];
                  trivial := false; breakAt := (-1)%Z; skipped := [] |}))
            (Scenario.world_of
               [Scenario.task_plus1; VFun 12 0; Scenario.task_times2])).
Proof. vm_compute. reflexivity. Qed.

(** In the asynchronous engine a task that raises and a task that returns
    a rejected promise both reject the returned future. *)
Example scenario_async_raise :
  outcome_of (invoke Scenario.async_env
                (Scenario.built createSerialTaskAsync Scenario.only_tasks
                                Scenario.failing_tasks)
                4 [VNum 5] (Scenario.start Scenario.failing_tasks))
  = Some (Returns (Promised (Failure (Scenario.Error "Task failed")))
                  (Scenario.world_of Scenario.failing_tasks)).
Proof. vm_compute. reflexivity. Qed.

Example scenario_async_rejection :
  outcome_of (invoke Scenario.async_env
                (Scenario.built createSerialTaskAsync Scenario.only_tasks
                                [VFun 10 1; VFun 11 1; Scenario.task_minus1])
                4 [VNum 5]
                (Scenario.start [VFun 10 1; VFun 11 1; Scenario.task_minus1]))
  = Some (Returns (Promised (Failure (Scenario.Error "Promise rejected")))
                  (Scenario.world_of [VFun 10 1; VFun 11 1; Scenario.task_minus1])).
Proof. vm_compute. reflexivity. Qed.

(** With too little fuel there is no answer; the bound of [enough_fuel]
    is the length of the list plus one. *)
Example scenario_out_of_fuel :
  invoke Scenario.plain_env
    (Scenario.built createSerialTask Scenario.only_tasks Scenario.three_tasks)
    3 [VNum 5] (Scenario.start Scenario.three_tasks)
  = Diverge.
Proof. vm_compute. reflexivity. Qed.

(** * Further properties of the engines *)

(** ** What the record says, call by call *)

(** The record of an awaited invocation is the trivial one, with no call
    made, or the variables of an ending of the loop. *)
Lemma awaited_record {U} (E : Env U) c fuel args w r s' :
  awaited E c fuel args (fresh w) = Ok r s' ->
  (body c = TrivialBody /\ r = trivial_return /\ s' = fresh w)
  \/ (exists o i l,
        (body c = SyncBody o \/ body c = AsyncBody o)
        /\ r = to_return l
        /\ ending o (length (elems (tasks o) w)) (calls s') i (inl l)).
Proof.
  intros Hrun. destruct (body c) as [|o|o] eqn:Hb.
  - left. rewrite awaited_trivial in Hrun by assumption.
    injection Hrun as <- <-. auto.
  - right. pose proof (awaited_ending E c o fuel args w (or_introl Hb)) as H.
    rewrite Hrun in H. destruct H as (i & l & -> & He & _).
    exists o, i, l. auto.
  - right. pose proof (awaited_ending E c o fuel args w (or_intror Hb)) as H.
    rewrite Hrun in H. destruct H as (i & l & -> & He & _).
    exists o, i, l. auto.
Qed.

(** Membership in an explicit call list, case by case; the cases that
    equate different calls are closed. *)
Ltac in_turn H :=
  simpl in H;
  repeat (match type of H with _ \/ _ => destruct H as [H|H] end);
  try (match type of H with False => destruct H end);
  try discriminate H.

Lemma history_breakAt o n i l log :
  history o n i l log -> l_breakAt l = (-1)%Z.
Proof. intros Hh. apply (history_shape _ _ _ _ _ Hh). Qed.

Lemma history_never_broke o n i l log k :
  history o n i l log -> ~ broke_at k log.
Proof.
  intros Hh (t & lst & b & Hin & Hb).
  destruct (history_events _ _ _ _ _ Hh _ Hin) as (_ & _ & Hf).
  rewrite (Hf _ _ _ _ eq_refl) in Hb. discriminate.
Qed.

(** An ending records a break at [k] exactly when the break condition
    fired at [k]; the firing call is then the newest one, and no call was
    made above [k]. *)
Lemma ending_break_iff o n log i l :
  ending o n log i (inl l) ->
  (forall k, l_breakAt l = Z.of_nat k <-> broke_at k log)
  /\ (forall k, l_breakAt l = Z.of_nat k ->
        (exists t lst b, head log = Some (HookCall Break k t lst (Yielded b)))
        /\ (forall ev, In ev log -> (ev_index ev <= k)%nat))
  /\ (l_breakAt l = (-1)%Z \/ exists k, l_breakAt l = Z.of_nat k).
Proof.
  inversion 1 as [i0 l0 log0 Hh|i0 l0 log0 task evs l' Hh Ht|]; subst.
  - pose proof (history_breakAt _ _ _ _ _ Hh) as Hb.
    split; [|split].
    + intros k. split; [lia|].
      intros Hk. exfalso. eapply history_never_broke; eassumption.
    + intros k Hk. lia.
    + left. assumption.
  - pose proof (history_events _ _ _ _ _ Hh) as Hev.
    inversion Ht; subst. simpl.
    split; [|split].
    + intros k. split.
      * intros Hk. assert (k = i) by lia. subst k.
        exists task, (last l0), b. split; [left; reflexivity | assumption].
      * intros (t & lst & b' & Hin & Hb'). simpl in Hin.
        destruct Hin as [Hin|[Hin|Hin]]; try discriminate.
        -- injection Hin as -> _ _ _. reflexivity.
        -- exfalso. eapply history_never_broke; [eassumption|].
           exists t, lst, b'. eauto.
    + intros k Hk. assert (k = i) by lia. subst k. split; [eauto|].
      intros ev [<-|[<-|Hin]]; simpl; try lia.
      destruct (Hev _ Hin) as (Hlt & _). lia.
    + right. eauto.
Qed.

(** X1.  In every record an invocation of either engine returns,
    [breakAt = k] holds exactly when the break condition answered a truthy
    value at index [k]; that call is then the last one made, no call was
    made at an index above [k], and [breakAt] is [-1] otherwise. *)
Theorem breakAt_records_the_break {U} (E : Env U) c fuel args w r s' :
  awaited E c fuel args (fresh w) = Ok r s' ->
  (forall k, breakAt r = Z.of_nat k <-> broke_at k (calls s'))
  /\ (forall k, breakAt r = Z.of_nat k ->
        (exists t lst b, head (calls s') = Some (HookCall Break k t lst (Yielded b)))
        /\ (forall ev, In ev (calls s') -> (ev_index ev <= k)%nat))
  /\ (breakAt r = (-1)%Z \/ exists k, breakAt r = Z.of_nat k).
Proof.
  intros Hrun. apply awaited_record in Hrun as [(_ & -> & ->)|(o & i & l & _ & -> & He)].
  - simpl. split; [|split].
    + intros k. split; [lia|]. intros (t & lst & b & [] & _).
    + intros k Hk. lia.
    + left. reflexivity.
  - exact (ending_break_iff _ _ _ _ _ He).
Qed.

(** Scenario C on the asynchronous engine: the break at index 1. *)
Lemma breakAt_records_the_break_witness :
  (forall k, breakAt Scenario.C_return = Z.of_nat k <-> broke_at k Scenario.C_calls)
  /\ (forall k, breakAt Scenario.C_return = Z.of_nat k ->
        (exists t lst b,
            head Scenario.C_calls = Some (HookCall Break k t lst (Yielded b)))
        /\ (forall ev, In ev Scenario.C_calls -> (ev_index ev <= k)%nat))
  /\ (breakAt Scenario.C_return = (-1)%Z
      \/ exists k, breakAt Scenario.C_return = Z.of_nat k).
Proof.
  apply (breakAt_records_the_break Scenario.plain_env Scenario.C_async
           4 [VNum 5] (Scenario.world_of Scenario.three_tasks)
           Scenario.C_return
           (mkSt (Scenario.world_of Scenario.three_tasks) Scenario.C_calls)).
  vm_compute. reflexivity.
Defined.

Lemma lookup_arr_set_iff xs i j v u :
  arr_set xs i v !! j = Some (Some u)
  <-> (j = i /\ u = v) \/ (j <> i /\ xs !! j = Some (Some u)).
Proof.
  split.
  - intros H. destruct (Nat.eq_dec j i) as [->|Hne].
    + rewrite lookup_arr_set_eq in H. left. split; congruence.
    + right. split; [assumption|].
      destruct (xs !! j) as [[u'|]|] eqn:Hj.
      * erewrite lookup_arr_set_ne in H by eauto. congruence.
      * destruct (unset_arr_set_ne xs i j v) as [H'|H']; unfold unset; auto; congruence.
      * destruct (unset_arr_set_ne xs i j v) as [H'|H']; unfold unset; auto; congruence.
  - intros [[-> ->]|[Hne Hj]].
    + apply lookup_arr_set_eq.
    + apply lookup_arr_set_ne; auto.
Qed.

Lemma length_arr_set xs i v :
  length (arr_set xs i v) = Nat.max (length xs) (S i).
Proof.
  unfold arr_set. destruct (Nat.ltb_spec i (length xs)) as [Hlt|Hge].
  - rewrite length_insert. lia.
  - rewrite !length_app, length_replicate. simpl. lia.
Qed.

Lemma set_or_unset (xs : list (option Val)) j :
  unset xs j \/ exists v, xs !! j = Some (Some v).
Proof.
  unfold unset. destruct (xs !! j) as [[v|]|]; eauto.
Qed.

(** The calls of a turn are all at its index; a call of [turn]'s list is
    one of its at most four calls. *)
Lemma turn_index o i task l evs st ev :
  turn o i task l evs st -> In ev evs -> ev_index ev = i.
Proof.
  intros Ht Hin. inversion Ht; subst; simpl in Hin;
    repeat (destruct Hin as [<-|Hin]; [reflexivity|]); destruct Hin.
Qed.

(** A task ran in a turn exactly when the turn stores its output. *)
Lemma turn_ran o i task l evs st j v :
  turn o i task l evs st ->
  ran_at j v evs ->
  j = i /\ st = inl (Continue {| last := v; l_results := arr_set (l_results l) i v;
                                 l_breakAt := l_breakAt l;
                                 l_skipped := l_skipped l |}).
Proof.
  intros Ht (t & input & Hin).
  inversion Ht; subst; in_turn Hin.
  injection Hin as -> _ _ ->. auto.
Qed.

Lemma ran_at_app j v evs log :
  ran_at j v (evs ++ log) <-> ran_at j v evs \/ ran_at j v log.
Proof.
  unfold ran_at. split.
  - intros (t & input & Hin). apply in_app_or in Hin as [Hin|Hin]; eauto.
  - intros [(t & input & Hin)|(t & input & Hin)];
      exists t, input; apply in_or_app; auto.
Qed.

Lemma skipped_at_app j evs log :
  skipped_at j (evs ++ log) <-> skipped_at j evs \/ skipped_at j log.
Proof.
  unfold skipped_at. split.
  - intros (t & lst & v & Hin & Hv). apply in_app_or in Hin as [Hin|Hin]; eauto 7.
  - intros [(t & lst & v & Hin & Hv)|(t & lst & v & Hin & Hv)];
      exists t, lst, v; (split; [apply in_or_app; auto | assumption]).
Qed.

Lemma history_ran_below o n i l log j v :
  history o n i l log -> ran_at j v log -> (j < i)%nat.
Proof.
  intros Hh (t & input & Hin).
  destruct (history_events _ _ _ _ _ Hh _ Hin) as (Hlt & _). exact Hlt.
Qed.

(** The skipped indices of a history are those at which the skip
    condition fired. *)
Lemma history_skipped_iff o n i l log :
  history o n i l log ->
  forall j, In j (l_skipped l) <-> skipped_at j log.
Proof.
  induction 1 as [|i l log task evs l' Hh IH Ht]; intros j.
  - simpl. split; [intros []|intros (t & lst & v & [] & _)].
  - rewrite skipped_at_app, <- IH.
    inversion Ht; subst; simpl.
    + rewrite in_app_iff. simpl. split.
      * intros [Hj|[<-|[]]]; [right; assumption|].
        left. exists task, (last l), k. split; [left; reflexivity|assumption].
      * intros [(t & lst & v & Hin & Hv)|Hj]; [|left; assumption].
        simpl in Hin. destruct Hin as [Hin|[Hin|[Hin|[]]]]; try discriminate.
        injection Hin as -> _ _ _. right. left. reflexivity.
    + split; [intros Hj; right; assumption|].
      intros [(t & lst & v & Hin & Hv)|Hj]; [|assumption].
      simpl in Hin. destruct Hin as [Hin|[Hin|[Hin|[Hin|[]]]]]; try discriminate.
      injection Hin as _ _ _ ->. congruence.
Qed.

(** The result slots set by a history are the outputs of the tasks that
    ran. *)
Lemma history_results_iff o n i l log :
  history o n i l log ->
  forall j v, l_results l !! j = Some (Some v) <-> ran_at j v log.
Proof.
  induction 1 as [|i l log task evs l' Hh IH Ht]; intros j v.
  - simpl. split.
    + intros Hj. destruct (unset_new_Array n j) as [H|H]; congruence.
    + intros (t & input & []).
  - rewrite ran_at_app.
    inversion Ht; subst; simpl.
    + rewrite IH. split; [auto|].
      intros [(t & inp & Hin)|Hr]; [|assumption].
      simpl in Hin. destruct Hin as [Hin|[Hin|[Hin|[]]]]; discriminate.
    + rewrite lookup_arr_set_iff, IH. split.
      * intros [[-> ->]|[Hne Hr]]; [|auto].
        left. exists task, input. left. reflexivity.
      * intros [(t & inp & Hin)|Hr].
        -- simpl in Hin. destruct Hin as [Hin|[Hin|[Hin|[Hin|[]]]]]; try discriminate.
           injection Hin as -> _ _ ->. auto.
        -- right. split; [|assumption].
           apply (history_ran_below _ _ _ _ _ _ _ Hh) in Hr. lia.
Qed.

(** [last] after a history: the output of the task that ran at the
    highest index, [undefined] when none ran. *)
Lemma history_latest o n i l log :
  history o n i l log ->
  (last l = VUndefined /\ forall j v, ~ ran_at j v log)
  \/ (exists j, ran_at j (last l) log
                /\ forall j' v, (j < j')%nat -> ~ ran_at j' v log).
Proof.
  induction 1 as [|i l log task evs l' Hh IH Ht].
  - left. split; [reflexivity|]. intros j v (t & input & []).
  - assert (Hnone : forall st, turn o i task l evs st ->
                      (forall j v, ~ ran_at j v evs) ->
                      (last l = VUndefined /\ forall j v, ~ ran_at j v (evs ++ log))
                      \/ (exists j, ran_at j (last l) (evs ++ log)
                            /\ forall j' v, (j < j')%nat -> ~ ran_at j' v (evs ++ log))).
    { intros st _ Hno. destruct IH as [[Hl Hn]|(j & Hj & Hn)].
      - left. split; [assumption|]. intros j v Hr.
        apply ran_at_app in Hr as [Hr|Hr]; [eapply Hno|eapply Hn]; eassumption.
      - right. exists j. split; [apply ran_at_app; auto|].
        intros j' v Hlt Hr. apply ran_at_app in Hr as [Hr|Hr];
          [eapply Hno|eapply Hn]; eassumption. }
    inversion Ht; subst.
    + apply (Hnone _ Ht). intros j v (t & inp & Hin).
      simpl in Hin. destruct Hin as [Hin|[Hin|[Hin|[]]]]; discriminate.
    + right. exists i. split.
      * exists task, input. left. reflexivity.
      * intros j' v Hlt Hr. apply ran_at_app in Hr as [Hr|Hr].
        -- destruct (turn_ran _ _ _ _ _ _ _ _ Ht Hr) as [-> _]. lia.
        -- apply (history_ran_below _ _ _ _ _ _ _ Hh) in Hr. lia.
Qed.

(** The three facts carry over to the variables of an ending. *)
Lemma ending_record o n log i l :
  ending o n log i (inl l) ->
  (forall j, In j (l_skipped l) <-> skipped_at j log)
  /\ (forall j v, l_results l !! j = Some (Some v) <-> ran_at j v log)
  /\ ((last l = VUndefined /\ forall j v, ~ ran_at j v log)
      \/ (exists j, ran_at j (last l) log
                    /\ forall j' v, (j < j')%nat -> ~ ran_at j' v log)).
Proof.
  inversion 1 as [i0 l0 log0 Hh|i0 l0 log0 task evs l' Hh Ht|]; subst.
  - split; [exact (history_skipped_iff _ _ _ _ _ Hh)|].
    split; [exact (history_results_iff _ _ _ _ _ Hh)|].
    exact (history_latest _ _ _ _ _ Hh).
  - inversion Ht; subst. simpl.
    assert (Hno_ran : forall j v log1,
               ran_at j v ([HookCall Break i task (last l0) (Yielded b);
                            HookCall Wrap i task (last l0) (Yielded input)] ++ log1)
               <-> ran_at j v log1).
    { intros j v log1. rewrite ran_at_app. split; [|auto].
      intros [(t & inp & Hin)|Hr]; [|assumption].
      simpl in Hin. destruct Hin as [Hin|[Hin|[]]]; discriminate. }
    split; [|split].
    + intros j. rewrite (history_skipped_iff _ _ _ _ _ Hh).
      change (HookCall Break i task (last l0) (Yielded b)
              :: HookCall Wrap i task (last l0) (Yielded input) :: log0)
        with ([HookCall Break i task (last l0) (Yielded b);
               HookCall Wrap i task (last l0) (Yielded input)] ++ log0).
      rewrite skipped_at_app. split; [auto|].
      intros [(t & lst & v & Hin & _)|Hs]; [|assumption].
      simpl in Hin. destruct Hin as [Hin|[Hin|[]]]; discriminate.
    + intros j v. rewrite (history_results_iff _ _ _ _ _ Hh).
      symmetry. apply (Hno_ran j v log0).
    + destruct (history_latest _ _ _ _ _ Hh) as [[Hl Hn]|(j & Hj & Hn)].
      * left. split; [assumption|]. intros j v Hr.
        apply (Hno_ran j v log0) in Hr. eapply Hn. eassumption.
      * right. exists j. split; [apply (Hno_ran j _ log0); assumption|].
        intros j' v Hlt Hr. apply (Hno_ran j' v log0) in Hr.
        eapply Hn; eassumption.
Qed.

(** X2.  In every record an invocation of either engine returns,
    [skipped] holds exactly the indices at which the skip condition
    answered a truthy value. *)
Theorem skipped_records_the_skips {U} (E : Env U) c fuel args w r s' :
  awaited E c fuel args (fresh w) = Ok r s' ->
  forall j, In j (skipped r) <-> skipped_at j (calls s').
Proof.
  intros Hrun. apply awaited_record in Hrun as [(_ & -> & ->)|(o & i & l & _ & -> & He)].
  - intros j. simpl. split; [intros []|intros (t & lst & v & [] & _)].
  - apply (ending_record _ _ _ _ _ He).
Qed.

(** Scenario B on the asynchronous engine: index 1 and no other. *)
Lemma skipped_records_the_skips_witness :
  awaited Scenario.plain_env Scenario.B_async 4 [VNum 5]
          (fresh (Scenario.world_of Scenario.three_tasks))
  = Ok Scenario.B_return
       (mkSt (Scenario.world_of Scenario.three_tasks) Scenario.B_calls)
  /\ (forall j, In j (skipped Scenario.B_return) <-> skipped_at j Scenario.B_calls).
Proof.
  assert (Hrun : awaited Scenario.plain_env Scenario.B_async 4 [VNum 5]
                         (fresh (Scenario.world_of Scenario.three_tasks))
                 = Ok Scenario.B_return
                      (mkSt (Scenario.world_of Scenario.three_tasks) Scenario.B_calls))
    by (vm_compute; reflexivity).
  split; [exact Hrun|].
  exact (skipped_records_the_skips _ _ _ _ _ _ _ Hrun).
Defined.

(** The set slots of a returned record and the tasks that ran. *)
Lemma results_ran {U} (E : Env U) c fuel args w r s' :
  awaited E c fuel args (fresh w) = Ok r s' ->
  (forall j v, results r !! j = Some (Some v) <-> ran_at j v (calls s'))
  /\ (forall j, (forall v, ~ ran_at j v (calls s')) -> unset (results r) j).
Proof.
  intros Hrun.
  assert (H : forall j v, results r !! j = Some (Some v) <-> ran_at j v (calls s')).
  { apply awaited_record in Hrun as [(_ & -> & ->)|(o & i & l & _ & -> & He)].
    - intros j v. simpl. rewrite lookup_nil. split; [discriminate|].
      intros (t & input & []).
    - apply (ending_record _ _ _ _ _ He). }
  split; [exact H|].
  intros j Hno. destruct (set_or_unset (results r) j) as [Hu|[v Hv]]; [assumption|].
  apply H in Hv. exfalso. eapply Hno. eassumption.
Qed.

(** X3.  In every record an invocation of either engine returns, the
    slot [results[j]] is set, to [v], exactly when the task at index [j]
    was called and returned [v]; every other slot is a hole or lies past
    the end. *)
Theorem results_record_the_outputs {U} (E : Env U) c fuel args w r s' :
  awaited E c fuel args (fresh w) = Ok r s' ->
  (forall j v, results r !! j = Some (Some v) <-> ran_at j v (calls s'))
  /\ (forall j, (forall v, ~ ran_at j v (calls s')) -> unset (results r) j).
Proof. apply results_ran. Qed.

(** The dynamic-list test: both tasks ran, the appended one included. *)
Lemma results_record_the_outputs_witness :
  awaited Scenario.dynamic_env
    (Scenario.built createSerialTask Scenario.pushing_options [Scenario.task_plus1])
    4 [VNum 5] (fresh (Scenario.world_of [Scenario.task_plus1]))
  = Ok Scenario.pushing_return
       (mkSt (Scenario.world_of [Scenario.task_plus1; Scenario.task_times2])
             Scenario.pushing_calls)
  /\ (forall j v, results Scenario.pushing_return !! j = Some (Some v)
                  <-> ran_at j v Scenario.pushing_calls)
  /\ (forall j, (forall v, ~ ran_at j v Scenario.pushing_calls) ->
                unset (results Scenario.pushing_return) j).
Proof.
  assert (Hrun : awaited Scenario.dynamic_env
                   (Scenario.built createSerialTask Scenario.pushing_options
                                   [Scenario.task_plus1])
                   4 [VNum 5] (fresh (Scenario.world_of [Scenario.task_plus1]))
                 = Ok Scenario.pushing_return
                      (mkSt (Scenario.world_of
                               [Scenario.task_plus1; Scenario.task_times2])
                            Scenario.pushing_calls))
    by (vm_compute; reflexivity).
  split; [exact Hrun|].
  exact (results_record_the_outputs _ _ _ _ _ _ _ Hrun).
Defined.

(** X4.  In every record an invocation of either engine returns, [value]
    is what the highest set slot of [results] holds, the output of the
    last task that ran; it is [undefined] when no slot is set. *)
Theorem value_is_the_last_output {U} (E : Env U) c fuel args w r s' :
  awaited E c fuel args (fresh w) = Ok r s' ->
  (value r = VUndefined /\ forall j, unset (results r) j)
  \/ (exists j, results r !! j = Some (Some (value r))
                /\ ran_at j (value r) (calls s')
                /\ forall j', (j < j')%nat -> unset (results r) j').
Proof.
  intros Hrun.
  destruct (results_ran E c fuel args w r s' Hrun) as [Hiff Hun].
  apply awaited_record in Hrun as [(_ & -> & ->)|(o & i & l & _ & -> & He)].
  - left. simpl. split; [reflexivity|]. intros j. left. apply lookup_nil.
  - destruct (ending_record _ _ _ _ _ He) as (_ & _ & [[Hl Hn]|(j & Hr & Hn)]).
    + left. split; [assumption|]. intros j. apply Hun. intros v. apply Hn.
    + right. exists j. simpl in *. split; [apply Hiff; assumption|].
      split; [assumption|]. intros j' Hlt. apply Hun. intros v. apply Hn. assumption.
Qed.

(** Scenario B: [value = 5] sits in slot 2, the highest set slot. *)
Lemma value_is_the_last_output_witness :
  awaited Scenario.plain_env
    (Scenario.built createSerialTask Scenario.B_options Scenario.three_tasks)
    4 [VNum 5] (fresh (Scenario.world_of Scenario.three_tasks))
  = Ok Scenario.B_return
       (mkSt (Scenario.world_of Scenario.three_tasks) Scenario.B_calls)
  /\ ((value Scenario.B_return = VUndefined
       /\ forall j, unset (results Scenario.B_return) j)
      \/ (exists j, results Scenario.B_return !! j
                    = Some (Some (value Scenario.B_return))
                    /\ ran_at j (value Scenario.B_return) Scenario.B_calls
                    /\ forall j', (j < j')%nat ->
                                  unset (results Scenario.B_return) j')).
Proof.
  assert (Hrun : awaited Scenario.plain_env
                   (Scenario.built createSerialTask Scenario.B_options
                                   Scenario.three_tasks)
                   4 [VNum 5] (fresh (Scenario.world_of Scenario.three_tasks))
                 = Ok Scenario.B_return
                      (mkSt (Scenario.world_of Scenario.three_tasks) Scenario.B_calls))
    by (vm_compute; reflexivity).
  split; [exact Hrun|].
  exact (value_is_the_last_output _ _ _ _ _ _ _ Hrun).
Defined.

(** ** The order of the calls *)

(** The calls of an awaited invocation, with or without a record: none,
    or a history followed by at most one more turn. *)
Lemma awaited_calls {U} (E : Env U) c fuel args w s' :
  state_of (awaited E c fuel args (fresh w)) = Some s' ->
  calls s' = []
  \/ (exists o n i l0 log0 evs,
        history o n i l0 log0 /\ calls s' = evs ++ log0
        /\ (evs = [] \/ exists task st, turn o i task l0 evs st)).
Proof.
  intros Hst.
  assert (He : calls s' = [] \/ exists o n i res, ending o n (calls s') i res).
  { destruct (body c) as [|o|o] eqn:Hb.
    - rewrite awaited_trivial in Hst by assumption. injection Hst as <-. auto.
    - pose proof (awaited_ending E c o fuel args w (or_introl Hb)) as H.
      destruct (awaited E c fuel args (fresh w)) as [r s1|e s1|];
        [| |discriminate]; injection Hst as ->; right.
      + destruct H as (i & l & _ & He & _). eauto.
      + destruct H as (i & He). eauto.
    - pose proof (awaited_ending E c o fuel args w (or_intror Hb)) as H.
      destruct (awaited E c fuel args (fresh w)) as [r s1|e s1|];
        [| |discriminate]; injection Hst as ->; right.
      + destruct H as (i & l & _ & He & _). eauto.
      + destruct H as (i & He). eauto. }
  destruct He as [He|(o & n & i & res & He)]; [auto|]. right.
  inversion He as [i0 l0 log0 Hh|i0 l0 log0 task evs l' Hh Ht
                   |i0 l0 log0 task evs e Hh Ht]; subst.
  - exists o, n, i, l0, (calls s'), []. auto.
  - exists o, n, i, l0, log0, evs. eauto 6.
  - exists o, n, i, l0, log0, evs. eauto 6.
Qed.

Lemma turn_tasks_follow_hooks o i task l evs st :
  turn o i task l evs st -> tasks_follow_hooks evs.
Proof.
  intros Ht j t inp out Hin.
  inversion Ht; subst; in_turn Hin;
    injection Hin as <- <- <- <-;
    exists (last l), b, k; simpl; auto 10.
Qed.

Lemma tasks_follow_hooks_app evs log :
  tasks_follow_hooks evs -> tasks_follow_hooks log ->
  tasks_follow_hooks (evs ++ log).
Proof.
  intros H1 H2 i t inp out Hin. apply in_app_or in Hin as [Hin|Hin].
  - destruct (H1 _ _ _ _ Hin) as (lst & b & k & Hw & Hb & Hbf & Hs & Hsf).
    exists lst, b, k. repeat split; try assumption; apply in_or_app; auto.
  - destruct (H2 _ _ _ _ Hin) as (lst & b & k & Hw & Hb & Hbf & Hs & Hsf).
    exists lst, b, k. repeat split; try assumption; apply in_or_app; auto.
Qed.

Lemma history_tasks_follow_hooks o n i l log :
  history o n i l log -> tasks_follow_hooks log.
Proof.
  induction 1 as [|i l log task evs l' Hh IH Ht].
  - intros j t inp out [].
  - apply tasks_follow_hooks_app; [|assumption].
    eapply turn_tasks_follow_hooks. eassumption.
Qed.

Lemma turn_hooks_precede o i task l evs st :
  turn o i task l evs st -> hooks_precede_tasks evs.
Proof.
  intros Ht p j t inp out Hp.
  inversion Ht; subst;
    (destruct p as [|[|[|[|p]]]]; simpl in Hp; try discriminate Hp);
    injection Hp as <- <- <- <-;
    exists (last l), input, b, k; simpl; auto.
Qed.

Lemma hooks_precede_app evs log :
  hooks_precede_tasks evs -> hooks_precede_tasks log ->
  hooks_precede_tasks (evs ++ log).
Proof.
  intros H1 H2 p i t inp out Hp.
  apply lookup_app_Some in Hp as [Hp|[Hlen Hp]].
  - destruct (H1 _ _ _ _ _ Hp) as (lst & wr & b & k & Hs & Hk & Hb & Hbf & Hw).
    exists lst, wr, b, k.
    repeat split; try assumption; apply lookup_app_l_Some; assumption.
  - destruct (H2 _ _ _ _ _ Hp) as (lst & wr & b & k & Hs & Hk & Hb & Hbf & Hw).
    exists lst, wr, b, k.
    repeat split; try assumption;
      (rewrite lookup_app_r by lia;
       match goal with
       | |- log !! ?a = _ =>
           match goal with
           | H : log !! ?b = _ |- _ => replace a with b by lia; exact H
           end
       end).
Qed.

Lemma history_hooks_precede o n i l log :
  history o n i l log -> hooks_precede_tasks log.
Proof.
  induction 1 as [|i l log task evs l' Hh IH Ht].
  - intros p j t inp out Hp. rewrite lookup_nil in Hp. discriminate.
  - apply hooks_precede_app; [|assumption].
    eapply turn_hooks_precede. eassumption.
Qed.

(** X5.  In every invocation of either engine, whether it returns a
    record or fails, a task is called at index [i] only right after the
    wrapper, the break condition and the skip condition were called at
    [i], in this order, for that task: the three calls made next before
    a task call are the skip condition, before it the break condition,
    before it the wrapper, and both conditions answered falsy values. *)
Theorem task_runs_after_its_hooks {U} (E : Env U) c fuel args w s' :
  state_of (awaited E c fuel args (fresh w)) = Some s' ->
  forall p i t input out,
    calls s' !! p = Some (TaskCall i t input out) ->
    exists lst wrapped b k,
      calls s' !! (p + 1) = Some (HookCall Skip i t lst (Yielded k))
      /\ truthy k = false
      /\ calls s' !! (p + 2) = Some (HookCall Break i t lst (Yielded b))
      /\ truthy b = false
      /\ calls s' !! (p + 3) = Some (HookCall Wrap i t lst (Yielded wrapped)).
Proof.
  intros Hst.
  apply awaited_calls in Hst
    as [->|(o & n & i & l0 & log0 & evs & Hh & -> & [->|(task & st & Ht)])].
  - intros p i t inp out Hp. rewrite lookup_nil in Hp. discriminate.
  - exact (history_hooks_precede _ _ _ _ _ Hh).
  - apply hooks_precede_app.
    + eapply turn_hooks_precede. eassumption.
    + eapply history_hooks_precede. eassumption.
Qed.

(** The failing run: the task that raised at index 1 was called right
    after the wrapper, the break condition and the skip condition at
    index 1, the conditions having answered [false]. *)
Lemma task_runs_after_its_hooks_witness :
  state_of (awaited Scenario.plain_env
              (Scenario.built createSerialTask Scenario.only_tasks
                              Scenario.failing_tasks)
              4 [VNum 5] (fresh (Scenario.world_of Scenario.failing_tasks)))
  = Some (mkSt (Scenario.world_of Scenario.failing_tasks) Scenario.failing_calls)
  /\ hooks_precede_tasks Scenario.failing_calls.
Proof.
  assert (Hrun : state_of (awaited Scenario.plain_env
                             (Scenario.built createSerialTask Scenario.only_tasks
                                             Scenario.failing_tasks)
                             4 [VNum 5]
                             (fresh (Scenario.world_of Scenario.failing_tasks)))
                 = Some (mkSt (Scenario.world_of Scenario.failing_tasks)
                              Scenario.failing_calls))
    by (vm_compute; reflexivity).
  split; [exact Hrun|].
  exact (task_runs_after_its_hooks _ _ _ _ _ _ Hrun).
Defined.

Lemma wrap_indices_app evs log :
  wrap_indices (evs ++ log) = wrap_indices evs ++ wrap_indices log.
Proof. unfold wrap_indices. rewrite filter_app, map_app. reflexivity. Qed.

(** Every turn calls the wrapper once, first. *)
Lemma turn_wrap_indices o i task l evs st :
  turn o i task l evs st -> wrap_indices evs = [i].
Proof. intros Ht. inversion Ht; reflexivity. Qed.

Lemma rev_seq_S m : rev (seq 0 (S m)) = m :: rev (seq 0 m).
Proof. rewrite seq_S, rev_app_distr. reflexivity. Qed.

Lemma descending_app evs log i :
  (forall ev, In ev evs -> ev_index ev = i) ->
  (forall ev, In ev log -> (ev_index ev < i)%nat) ->
  descending log -> descending (evs ++ log).
Proof.
  intros Hevs Hlog Hd a b x y Ha Hb Hab.
  apply lookup_app_Some in Ha as [Ha|[Hla Ha]];
    apply lookup_app_Some in Hb as [Hb|[Hlb Hb]].
  - apply list_elem_of_lookup_2, list_elem_of_In in Ha, Hb.
    rewrite (Hevs _ Ha), (Hevs _ Hb). lia.
  - apply list_elem_of_lookup_2, list_elem_of_In in Ha, Hb.
    rewrite (Hevs _ Ha). specialize (Hlog _ Hb). lia.
  - apply lookup_lt_Some in Hb. lia.
  - eapply Hd; [exact Ha | exact Hb | lia].
Qed.

Lemma history_order o n i l log :
  history o n i l log ->
  wrap_indices log = rev (seq 0 i) /\ descending log.
Proof.
  induction 1 as [|i l log task evs l' Hh [IHw IHd] Ht].
  - split; [reflexivity|]. intros a b x y Ha. rewrite lookup_nil in Ha. discriminate.
  - split.
    + rewrite wrap_indices_app, (turn_wrap_indices _ _ _ _ _ _ Ht), IHw, rev_seq_S.
      reflexivity.
    + apply (descending_app _ _ i); [|  |assumption].
      * intros ev. eapply turn_index. eassumption.
      * intros ev Hin. apply (history_events _ _ _ _ _ Hh _ Hin).
Qed.

(** X6.  In every invocation of either engine, whether it returns a
    record or fails, the indices are visited in ascending order, without
    a gap and once each: the wrapper calls are at the indices
    [0, 1, ..., m - 1] in this order, every other call is at one of these
    indices, and no call at a lower index follows a call at a higher
    one. *)
Theorem indices_visited_in_order {U} (E : Env U) c fuel args w s' :
  state_of (awaited E c fuel args (fresh w)) = Some s' ->
  exists m,
    wrap_indices (calls s') = rev (seq 0 m)
    /\ (forall ev, In ev (calls s') -> (ev_index ev < m)%nat)
    /\ descending (calls s').
Proof.
  intros Hst.
  apply awaited_calls in Hst
    as [->|(o & n & i & l0 & log0 & evs & Hh & -> & [->|(task & st & Ht)])].
  - exists 0. split; [reflexivity|]. split; [intros ev []|].
    intros a b x y Ha. rewrite lookup_nil in Ha. discriminate.
  - exists i. destruct (history_order _ _ _ _ _ Hh) as [Hw Hd].
    split; [assumption|]. split; [|assumption].
    intros ev Hin. apply (history_events _ _ _ _ _ Hh _ Hin).
  - exists (S i). destruct (history_order _ _ _ _ _ Hh) as [Hw Hd].
    split; [|split].
    + rewrite wrap_indices_app, (turn_wrap_indices _ _ _ _ _ _ Ht), Hw, rev_seq_S.
      reflexivity.
    + intros ev Hin. apply in_app_or in Hin as [Hin|Hin].
      * rewrite (turn_index _ _ _ _ _ _ _ Ht Hin). lia.
      * destruct (history_events _ _ _ _ _ Hh _ Hin) as (Hlt & _). lia.
    + apply (descending_app _ _ i); [|  |assumption].
      * intros ev. eapply turn_index. eassumption.
      * intros ev Hin. apply (history_events _ _ _ _ _ Hh _ Hin).
Qed.

(** Scenario B: the three indices, in order. *)
Lemma indices_visited_in_order_witness :
  state_of (awaited Scenario.plain_env Scenario.B_async 4 [VNum 5]
                    (fresh (Scenario.world_of Scenario.three_tasks)))
  = Some (mkSt (Scenario.world_of Scenario.three_tasks) Scenario.B_calls)
  /\ (exists m,
        wrap_indices Scenario.B_calls = rev (seq 0 m)
        /\ (forall ev, In ev Scenario.B_calls -> (ev_index ev < m)%nat)
        /\ descending Scenario.B_calls).
Proof.
  assert (Hrun : state_of (awaited Scenario.plain_env Scenario.B_async 4 [VNum 5]
                                   (fresh (Scenario.world_of Scenario.three_tasks)))
                 = Some (mkSt (Scenario.world_of Scenario.three_tasks)
                              Scenario.B_calls))
    by (vm_compute; reflexivity).
  split; [exact Hrun|].
  exact (indices_visited_in_order _ _ _ _ _ _ Hrun).
Defined.

(** ** The value handed to the hooks as [last] *)

(** The hook calls of a turn carry the [last] of the turn. *)
Lemma turn_hook_last o i task l evs st h j t lst out :
  turn o i task l evs st -> In (HookCall h j t lst out) evs ->
  j = i /\ lst = last l.
Proof.
  intros Ht Hin.
  inversion Ht; subst; in_turn Hin; injection Hin as _ <- _ <- _; auto.
Qed.

Lemma latest_before_app o i task l evs st j lst log :
  turn o i task l evs st -> (j <= i)%nat ->
  latest_before j lst log -> latest_before j lst (evs ++ log).
Proof.
  intros Ht Hj [[Hl Hn]|(j0 & Hlt & Hr0 & Hn)].
  - left. split; [assumption|]. intros j' v Hj' Hr.
    apply ran_at_app in Hr as [Hr|Hr].
    + destruct (turn_ran _ _ _ _ _ _ _ _ Ht Hr) as [-> _]. lia.
    + eapply Hn; eassumption.
  - right. exists j0. split; [assumption|]. split; [apply ran_at_app; auto|].
    intros j' v H1 H2 Hr. apply ran_at_app in Hr as [Hr|Hr].
    + destruct (turn_ran _ _ _ _ _ _ _ _ Ht Hr) as [-> _]. lia.
    + eapply Hn; eassumption.
Qed.

(** The hook calls of one more turn after a history, and those of the
    history, received the latest output before their index. *)
Lemma turn_after_history_last o n i l log task evs st :
  history o n i l log ->
  (forall h j t lst out, In (HookCall h j t lst out) log -> latest_before j lst log) ->
  turn o i task l evs st ->
  forall h j t lst out,
    In (HookCall h j t lst out) (evs ++ log) -> latest_before j lst (evs ++ log).
Proof.
  intros Hh IH Ht h j t lst out Hin. apply in_app_or in Hin as [Hin|Hin].
  - destruct (turn_hook_last _ _ _ _ _ _ _ _ _ _ _ Ht Hin) as [-> ->].
    eapply latest_before_app; [eassumption|lia|].
    destruct (history_latest _ _ _ _ _ Hh) as [[Hl Hn]|(j0 & Hr & Hn)].
    + left. split; [assumption|]. intros j' v _. apply Hn.
    + right. exists j0. split; [eapply history_ran_below; eassumption|].
      split; [assumption|]. intros j' v H1 _. apply Hn. assumption.
  - eapply latest_before_app; [eassumption| |apply (IH _ _ _ _ _ Hin)].
    destruct (history_events _ _ _ _ _ Hh _ Hin) as (Hlt & _). simpl in Hlt. lia.
Qed.

Lemma history_hook_last o n i l log :
  history o n i l log ->
  forall h j t lst out, In (HookCall h j t lst out) log -> latest_before j lst log.
Proof.
  induction 1 as [|i l log task evs l' Hh IH Ht].
  - intros h j t lst out [].
  - eapply turn_after_history_last; eassumption.
Qed.

(** X7.  In every invocation of either engine, whether it returns a
    record or fails, each hook call at index [j] (wrapper, break
    condition, skip condition) receives as [lastReturn] the output of the
    task that ran at the highest index below [j], whatever was skipped in
    between, and [undefined] when no task ran below [j]. *)
Theorem hooks_receive_the_latest_output {U} (E : Env U) c fuel args w s' :
  state_of (awaited E c fuel args (fresh w)) = Some s' ->
  forall h j t lst out,
    In (HookCall h j t lst out) (calls s') -> latest_before j lst (calls s').
Proof.
  intros Hst.
  apply awaited_calls in Hst
    as [->|(o & n & i & l0 & log0 & evs & Hh & -> & [->|(task & st & Ht)])].
  - intros h j t lst out [].
  - exact (history_hook_last _ _ _ _ _ Hh).
  - eapply turn_after_history_last; try eassumption.
    exact (history_hook_last _ _ _ _ _ Hh).
Qed.

(** Scenario B: the hooks at index 2 received 6, the output at index 0,
    index 1 having been skipped. *)
Lemma hooks_receive_the_latest_output_witness :
  state_of (awaited Scenario.plain_env
              (Scenario.built createSerialTask Scenario.B_options Scenario.three_tasks)
              4 [VNum 5] (fresh (Scenario.world_of Scenario.three_tasks)))
  = Some (mkSt (Scenario.world_of Scenario.three_tasks) Scenario.B_calls)
  /\ (forall h j t lst out,
        In (HookCall h j t lst out) Scenario.B_calls ->
        latest_before j lst Scenario.B_calls).
Proof.
  assert (Hrun : state_of (awaited Scenario.plain_env
                             (Scenario.built createSerialTask Scenario.B_options
                                             Scenario.three_tasks)
                             4 [VNum 5]
                             (fresh (Scenario.world_of Scenario.three_tasks)))
                 = Some (mkSt (Scenario.world_of Scenario.three_tasks)
                              Scenario.B_calls))
    by (vm_compute; reflexivity).
  split; [exact Hrun|].
  exact (hooks_receive_the_latest_output _ _ _ _ _ _ Hrun).
Defined.

(** ** The length of [results] *)

Lemma history_results_length o n i l log :
  history o n i l log ->
  (n <= length (l_results l))%nat
  /\ ((n < length (l_results l))%nat ->
      exists v, l_results l !! (length (l_results l) - 1) = Some (Some v)).
Proof.
  induction 1 as [|i l log task evs l' Hh [IHn IHs] Ht].
  - simpl. unfold new_Array. rewrite length_replicate. split; [lia|lia].
  - inversion Ht; subst; simpl; [auto|].
    rewrite length_arr_set. split; [lia|]. intros Hlt.
    destruct (Nat.le_gt_cases (S i) (length (l_results l))) as [Hle|Hgt].
    + rewrite Nat.max_l in Hlt |- * by assumption.
      destruct (IHs Hlt) as [v Hv].
      destruct (Nat.eq_dec (length (l_results l) - 1) i) as [Heq|Hne].
      * exists r. rewrite Heq. apply lookup_arr_set_eq.
      * exists v. apply lookup_arr_set_ne; auto.
    + rewrite Nat.max_r by lia. exists r.
      replace (S i - 1) with i by lia. apply lookup_arr_set_eq.
Qed.

(** X8.  The [results] array of a record returned by a looping callable
    of either engine has at least the length the task list had when the
    invocation began, and is longer only when a task ran beyond that
    length: its last slot then holds that task's output. *)
Theorem results_length {U} (E : Env U) c o fuel args w r s' :
  body c = SyncBody o \/ body c = AsyncBody o ->
  awaited E c fuel args (fresh w) = Ok r s' ->
  (length (elems (tasks o) w) <= length (results r))%nat
  /\ ((length (elems (tasks o) w) < length (results r))%nat ->
      exists v, results r !! (length (results r) - 1) = Some (Some v)).
Proof.
  intros Hb Hrun.
  pose proof (awaited_ending E c o fuel args w Hb) as H.
  rewrite Hrun in H. destruct H as (i & l & -> & He & _). simpl.
  inversion He as [i0 l0 log0 Hh|i0 l0 log0 task evs l' Hh Ht|]; subst.
  - exact (history_results_length _ _ _ _ _ Hh).
  - inversion Ht; subst. simpl. exact (history_results_length _ _ _ _ _ Hh).
Qed.

(** The break of scenario C leaves three slots, as many as there were
    tasks; the dynamic-list test grows [results] from one slot to two. *)
Lemma results_length_witness :
  ((length (elems VTasks (Scenario.world_of Scenario.three_tasks))
    <= length (results Scenario.C_return))%nat
   /\ ((length (elems VTasks (Scenario.world_of Scenario.three_tasks))
        < length (results Scenario.C_return))%nat ->
       exists v, results Scenario.C_return
                 !! (length (results Scenario.C_return) - 1) = Some (Some v)))
  /\ ((length (elems VTasks (Scenario.world_of [Scenario.task_plus1]))
       <= length (results Scenario.pushing_return))%nat
      /\ ((length (elems VTasks (Scenario.world_of [Scenario.task_plus1]))
           < length (results Scenario.pushing_return))%nat ->
          exists v, results Scenario.pushing_return
                    !! (length (results Scenario.pushing_return) - 1)
                    = Some (Some v))).
Proof.
  split.
  - apply (results_length Scenario.plain_env
             (Scenario.built createSerialTask Scenario.C_options Scenario.three_tasks)
             (mkOptions (VStr "kskbTask") VTasks (Given Scenario.index_is_1)
                        DEFAULT_SKIPPER DEFAULT_RESULT_WRAPPER)
             4 [VNum 5] (Scenario.world_of Scenario.three_tasks)
             Scenario.C_return
             (mkSt (Scenario.world_of Scenario.three_tasks) Scenario.C_calls)).
    + left. reflexivity.
    + vm_compute. reflexivity.
  - apply (results_length Scenario.dynamic_env
             (Scenario.built createSerialTask Scenario.pushing_options
                             [Scenario.task_plus1])
             (mkOptions (VStr "kskbTask") VTasks DEFAULT_BREAKER
                        DEFAULT_SKIPPER (Given Scenario.pushing_wrapper))
             4 [VNum 5] (Scenario.world_of [Scenario.task_plus1])
             Scenario.pushing_return
             (mkSt (Scenario.world_of [Scenario.task_plus1; Scenario.task_times2])
                   Scenario.pushing_calls)).
    + left. reflexivity.
    + vm_compute. reflexivity.
Defined.

(** ** [PromiseTry] and [PromiseTrapply] *)

Lemma isThenable_PromiseResolve v : isThenable (PromiseResolve v) = true.
Proof. destruct v; reflexivity. Qed.

(** X9.  [PromiseTry] and [PromiseTrapply] never raise: whatever the
    function does (return a plain value, return a future, raise, or not be
    a function at all), each returns a future-like value, the function's
    own future when it returned one, and awaiting it raises what the
    function raised, once the suspended caller resumes. *)
Theorem PromiseTry_never_raises {U} (E : Env U) :
  (forall h args s,
      exists p s', PromiseTry E h args s = Ok p s' /\ isThenable p = true
        /\ (forall r s1, call_hook E h args s = Ok r s1 -> isThenable r = true ->
                         p = r /\ s' = s1)
        /\ (forall e s1, call_hook E h args s = Err e s1 ->
                         s' = s1
                         /\ await E p s'
                            = Err e (mkSt (meanwhile E (world s')) (calls s'))))
  /\ (forall f input s,
      exists p s', PromiseTrapply E f input s = Ok p s' /\ isThenable p = true
        /\ (forall r s1, fn_apply E f input s = Ok r s1 -> isThenable r = true ->
                         p = r /\ s' = s1)
        /\ (forall e s1, fn_apply E f input s = Err e s1 ->
                         s' = s1
                         /\ await E p s'
                            = Err e (mkSt (meanwhile E (world s')) (calls s')))).
Proof.
  split.
  - intros h args s. unfold PromiseTry.
    pose proof (quiet_call_hook E h args s) as Hq.
    destruct (call_hook E h args s) as [r s1|e s1|]; [| |contradiction].
    + destruct (isThenable r) eqn:Hr.
      * exists r, s1. repeat split; try assumption; try congruence; discriminate.
      * exists (PromiseResolve r), s1.
        split; [reflexivity|]. split; [apply isThenable_PromiseResolve|].
        split; [intros r' s' [= <- <-] Hr'; congruence | discriminate].
    + exists (PromiseReject e), s1. split; [reflexivity|]. split; [reflexivity|].
      split; [discriminate|]. intros e' s' [= <- <-]. auto.
  - intros f input s. unfold PromiseTrapply.
    pose proof (quiet_fn_apply E f input s) as Hq.
    destruct (fn_apply E f input s) as [r s1|e s1|]; [| |contradiction].
    + destruct (isThenable r) eqn:Hr.
      * exists r, s1. repeat split; try assumption; try congruence; discriminate.
      * exists (PromiseResolve r), s1.
        split; [reflexivity|]. split; [apply isThenable_PromiseResolve|].
        split; [intros r' s' [= <- <-] Hr'; congruence | discriminate].
    + exists (PromiseReject e), s1. split; [reflexivity|]. split; [reflexivity|].
      split; [discriminate|]. intros e' s' [= <- <-]. auto.
Qed.

(** ** The builders *)

Lemma function_value v : typeof v = "function" -> exists n arity, v = VFun n arity.
Proof. destruct v; simpl; try discriminate. eauto. Qed.

Lemma string_value v : typeof v = "string" -> exists s, v = VStr s.
Proof. destruct v; simpl; try discriminate. eauto. Qed.

Lemma function_array_dec_of {U} v (w : World U) :
  negb (isArray v) || some_not_function (elems v w) = false -> function_array v w.
Proof.
  intros H. apply orb_false_iff in H as [Ha Hs]. apply negb_false_iff in Ha.
  split; [assumption|]. apply some_not_function_false. assumption.
Qed.

(** What the normalizer has checked when it succeeds. *)
Lemma normalize_checked {U} (options : Val) (w : World U) o :
  normalize options w = Success o ->
  (exists s, name o = VStr s)
  /\ function_array (tasks o) w
  /\ hook_is_function (breakCondition o) = true
  /\ hook_is_function (skipCondition o) = true
  /\ hook_is_function (resultWrapper o) = true.
Proof.
  unfold normalize. cbv zeta. intros Hn.
  destruct (negb (is_object_type options) || is_null options); [discriminate|].
  destruct (negb (is_string _)) eqn:H2; [discriminate|].
  destruct (negb (isArray _) || some_not_function _) eqn:H3; [discriminate|].
  destruct (negb (hook_is_function (hook_or_default (get options "breakCondition") _)))
    eqn:H4; [discriminate|].
  destruct (negb (hook_is_function (hook_or_default (get options "skipCondition") _)))
    eqn:H5; [discriminate|].
  destruct (negb (hook_is_function (hook_or_default (get options "resultWrapper") _)))
    eqn:H6; [discriminate|].
  injection Hn as <-. simpl.
  apply negb_false_iff in H2, H4, H5, H6.
  split; [apply string_value, String.eqb_eq; exact H2|].
  split; [|auto].
  destruct (function_array_dec_of (get options "tasks") w H3) as [Ha Hf]. split; assumption.
Qed.



(** X11.  A builder raises exactly when the normalizer raises, with the
    normalizer's error, or when the task array is not empty and its first
    slot is a hole, which the normalizer accepts ([some] skips holes) and
    on which reading [tasks[0].length] raises a [TypeError]. *)
Theorem builder_raises_exactly {U} opts (w : World U) e :
  (createSerialTask opts w = Failure e
   <-> normalize opts w = Failure e
       \/ (exists o rest,
             normalize opts w = Success o
             /\ elems (get opts "tasks") w = None :: rest
             /\ e = TypeError "Cannot read properties of undefined (reading 'length')"))
  /\ (createSerialTaskAsync opts w = Failure e <-> createSerialTask opts w = Failure e).
Proof.
  assert (H : forall mk,
             build mk opts w = Failure e
             <-> normalize opts w = Failure e
                 \/ (exists o rest,
                       normalize opts w = Success o
                       /\ elems (get opts "tasks") w = None :: rest
                       /\ e = TypeError
                               "Cannot read properties of undefined (reading 'length')")).
  { intros mk. unfold build.
    destruct (normalize opts w) as [o|e0] eqn:Hn.
    - destruct (normalize_fields _ _ _ Hn) as (_ & Ht & _).
      destruct (normalize_checked _ _ _ Hn) as (_ & [_ Hfun] & _).
      rewrite Ht in Hfun |- *.
      destruct (elems (get opts "tasks") w) as [|x xs] eqn:He; simpl.
      + split; [discriminate|]. intros [|(o' & rest & _ & ? & _)]; discriminate.
      + destruct x as [t|].
        * destruct (function_value t (Hfun t (or_introl eq_refl))) as (n & arity & ->).
          unfold elem. simpl. split; [discriminate|].
          intros [|(o' & rest & _ & ? & _)]; discriminate.
        * unfold elem. simpl. split.
          -- intros [= <-]. right. exists o, xs. auto.
          -- intros [|(o' & rest & _ & _ & ->)]; [discriminate|reflexivity].
    - split.
      + intros [= <-]. left. reflexivity.
      + intros [[= <-]|(o' & rest & ? & _)]; [reflexivity|discriminate]. }
  split; [apply H|].
  unfold createSerialTaskAsync, createSerialTask. rewrite !H. reflexivity.
Qed.

(** Over [[ , x => x + 1]] the normalizer succeeds and the builder
    raises. *)
Example builder_raises_on_a_hole :
  (exists o, normalize Scenario.only_tasks Scenario.sparse_world = Success o)
  /\ createSerialTask Scenario.only_tasks Scenario.sparse_world
     = Failure (TypeError "Cannot read properties of undefined (reading 'length')").
Proof. split; [eexists; reflexivity | reflexivity]. Qed.

(** ** The order of the normalizer's checks *)

Lemma present_but_not_dec_false (b : bool) (P : Prop) :
  (b = true <-> P) -> ~ P -> b = false.
Proof. intros H HP. destruct b; [exfalso; apply HP, H; reflexivity|reflexivity]. Qed.

(** X12.  The normalizer checks in a fixed order and reports the first
    check that fails: the input itself, then [name], then [tasks], then
    [breakCondition], [skipCondition] and [resultWrapper]; a later fault
    never hides an earlier one. *)
Theorem normalize_reports_the_first_fault {U} (options : Val) (w : World U) :
  (not_non_null_object options ->
   normalize options w
   = Failure (TypeError "__NAME__: 'options' must be an object"))
  /\ (~ not_non_null_object options ->
      present_but_not "string" (get options "name") ->
      normalize options w
      = Failure (TypeError "__NAME__: 'name' must be a string or omitted"))
  /\ (~ not_non_null_object options ->
      ~ present_but_not "string" (get options "name") ->
      ~ function_array (get options "tasks") w ->
      normalize options w
      = Failure (TypeError "__NAME__: 'tasks' must be a function array"))
  /\ (~ not_non_null_object options ->
      ~ present_but_not "string" (get options "name") ->
      function_array (get options "tasks") w ->
      present_but_not "function" (get options "breakCondition") ->
      normalize options w
      = Failure (TypeError
                   "__NAME__: 'breakCondition' must be a function or omitted"))
  /\ (~ not_non_null_object options ->
      ~ present_but_not "string" (get options "name") ->
      function_array (get options "tasks") w ->
      ~ present_but_not "function" (get options "breakCondition") ->
      present_but_not "function" (get options "skipCondition") ->
      normalize options w
      = Failure (TypeError
                   "__NAME__: 'skipCondition' must be a function or omitted"))
  /\ (~ not_non_null_object options ->
      ~ present_but_not "string" (get options "name") ->
      function_array (get options "tasks") w ->
      ~ present_but_not "function" (get options "breakCondition") ->
      ~ present_but_not "function" (get options "skipCondition") ->
      present_but_not "function" (get options "resultWrapper") ->
      normalize options w
      = Failure (TypeError
                   "__NAME__: 'resultWrapper' must be a function or omitted")).
Proof.
  pose proof (reject_input options) as R1.
  pose proof (reject_name (get options "name") "kskbTask") as R2.
  pose proof (reject_tasks (get options "tasks") w) as R3.
  pose proof (reject_hook (get options "breakCondition") DEFAULT_BREAKER eq_refl) as R4.
  pose proof (reject_hook (get options "skipCondition") DEFAULT_SKIPPER eq_refl) as R5.
  pose proof (reject_hook (get options "resultWrapper") DEFAULT_RESULT_WRAPPER eq_refl) as R6.
  unfold normalize. cbv zeta.
  repeat split; intros.
  - rewrite (proj2 R1) by assumption. reflexivity.
  - rewrite (present_but_not_dec_false _ _ R1) by assumption.
    rewrite (proj2 R2) by assumption. reflexivity.
  - rewrite (present_but_not_dec_false _ _ R1) by assumption.
    rewrite (present_but_not_dec_false _ _ R2) by assumption.
    rewrite (proj2 R3) by assumption. reflexivity.
  - rewrite (present_but_not_dec_false _ _ R1) by assumption.
    rewrite (present_but_not_dec_false _ _ R2) by assumption.
    rewrite (present_but_not_dec_false _ _ R3) by tauto.
    rewrite (proj2 R4) by assumption. reflexivity.
  - rewrite (present_but_not_dec_false _ _ R1) by assumption.
    rewrite (present_but_not_dec_false _ _ R2) by assumption.
    rewrite (present_but_not_dec_false _ _ R3) by tauto.
    rewrite (present_but_not_dec_false _ _ R4) by assumption.
    rewrite (proj2 R5) by assumption. reflexivity.
  - rewrite (present_but_not_dec_false _ _ R1) by assumption.
    rewrite (present_but_not_dec_false _ _ R2) by assumption.
    rewrite (present_but_not_dec_false _ _ R3) by tauto.
    rewrite (present_but_not_dec_false _ _ R4) by assumption.
    rewrite (present_but_not_dec_false _ _ R5) by assumption.
    rewrite (proj2 R6) by assumption. reflexivity.
Qed.

(** The validation-order test: with [name], [tasks] and [breakCondition]
    all wrong, the error is about [name]. *)
Example first_fault_is_name :
  normalize Scenario.all_wrong_options (Scenario.world_of [])
  = Failure (TypeError "__NAME__: 'name' must be a string or omitted").
Proof. reflexivity. Qed.

(** ** The engines change nothing themselves *)

Lemma keeps_preserves {U A} (P : World U -> Prop) (m : M U A) :
  keeps P m -> preserves P m.
Proof.
  intros Hk s Hs. specialize (Hk s Hs). destruct (m s); auto.
Qed.

Section Frame.
Context {U : Type}.
Variable hook_call : HookFn -> list Val -> M U Val.
Variable task_call : Val -> Val -> M U Val.
Variable P : World U -> Prop.
Hypothesis hook_keeps : forall h args, keeps P (hook_call h args).
Hypothesis task_keeps : forall t i, keeps P (task_call t i).

Lemma iteration_keeps o args i task l :
  keeps P (iteration hook_call task_call o args i task l).
Proof.
  unfold iteration.
  apply keeps_bind; [apply keeps_logged, hook_keeps|]. intros input.
  apply keeps_bind; [apply keeps_logged, hook_keeps|]. intros b.
  destruct (truthy b); [apply keeps_ret|].
  apply keeps_bind; [apply keeps_logged, hook_keeps|]. intros k.
  destruct (truthy k); [apply keeps_ret|].
  apply keeps_bind; [apply keeps_logged, task_keeps|]. intros r.
  apply keeps_ret.
Qed.

Lemma loop_preserves o args fuel :
  forall i l, preserves P (loop hook_call task_call fuel o args i l).
Proof.
  induction fuel as [|fuel IH]; intros i l s Hs; [exact I|].
  rewrite loop_S.
  destruct (i <? length (elems (tasks o) (world s)))%nat; [|assumption].
  pose proof (iteration_keeps o args i (elem (elems (tasks o) (world s)) i) l s Hs) as Hk.
  destruct (iteration hook_call task_call o args i _ l s) as [[l'|l'] s'|e s'|];
    [apply IH; assumption | assumption | assumption | exact I].
Qed.

End Frame.

(** X14.  The engines change nothing themselves: a property of the world
    (the task list and the state of the user's program) that every
    function of the environment keeps, and that what runs while an engine
    is suspended keeps, still holds when an invocation of either engine
    returns, raises or rejects. *)
Theorem invocation_keeps_what_the_functions_keep {U} (E : Env U)
    (P : World U -> Prop) c fuel args s :
  env_keeps E P -> P (world s) ->
  forall s', state_of (invoke E c fuel args s) = Some s' -> P (world s').
Proof.
  intros Hk Hs s'. unfold invoke.
  destruct (body c) as [|o|o].
  - simpl. intros [= <-]. assumption.
  - unfold sync_fn, bind, read_elems. cbn [ret]. rewrite sync_loop_skeleton.
    pose proof (loop_preserves (sync_hook E) (sync_task E) P
                  (fun h a => keeps_sync_hook E P Hk h a)
                  (fun t i => keeps_sync_task E P Hk t i)
                  o args fuel 0 (init_locals (length (elems (tasks o) (world s)))) s Hs)
      as H.
    destruct (loop _ _ fuel o args 0 _ s) as [l s1|e s1|]; simpl;
      [intros [= <-]; assumption | intros [= <-]; assumption | discriminate].
  - unfold async_fn, bind, read_elems. cbn [ret]. rewrite async_loop_skeleton.
    pose proof (loop_preserves (async_hook E) (async_task E) P
                  (fun h a => keeps_async_hook E P Hk h a)
                  (fun t i => keeps_async_task E P Hk t i)
                  o args fuel 0 (init_locals (length (elems (tasks o) (world s)))) s Hs)
      as H.
    destruct (loop _ _ fuel o args 0 _ s) as [l s1|e s1|]; simpl;
      [intros [= <-]; assumption | intros [= <-]; assumption | discriminate].
Qed.

Lemma plain_env_keeps (P : World unit -> Prop) : env_keeps Scenario.plain_env P.
Proof.
  unfold env_keeps. simpl. repeat split.
  - intros n args w Hw. unfold Scenario.plain_user.
    destruct n as [|[|[|[|[|[|[|n]]]]]]]; exact Hw.
  - intros v w Hw. unfold Scenario.settle_object.
    destruct (is_undefined _); assumption.
  - intros ps w Hw. assumption.
  - intros w Hw. assumption.
Qed.

(** The failing run over functions that leave the task list alone: the
    list is the same after the failure. *)
Lemma invocation_keeps_what_the_functions_keep_witness :
  state_of (invoke Scenario.plain_env
              (Scenario.built createSerialTask Scenario.only_tasks
                              Scenario.failing_tasks)
              4 [VNum 5] (Scenario.start Scenario.failing_tasks))
  = Some (mkSt (Scenario.world_of Scenario.failing_tasks) Scenario.failing_calls)
  /\ wtasks (world (mkSt (Scenario.world_of Scenario.failing_tasks)
                         Scenario.failing_calls))
     = map Some Scenario.failing_tasks.
Proof.
  assert (Hrun : state_of (invoke Scenario.plain_env
                             (Scenario.built createSerialTask Scenario.only_tasks
                                             Scenario.failing_tasks)
                             4 [VNum 5] (Scenario.start Scenario.failing_tasks))
                 = Some (mkSt (Scenario.world_of Scenario.failing_tasks)
                              Scenario.failing_calls))
    by (vm_compute; reflexivity).
  split; [exact Hrun|].
  exact (invocation_keeps_what_the_functions_keep Scenario.plain_env
           (fun w => wtasks w = map Some Scenario.failing_tasks)
           _ 4 [VNum 5] (Scenario.start Scenario.failing_tasks)
           (plain_env_keeps _) eq_refl _ Hrun).
Defined.

(** ** The asynchronous engine as the synchronous one over awaited
    functions *)

Section AwaitedFunctions.
Context {U : Type} (E : Env U).
Hypothesis calm : undisturbed E.

Lemma await_settled_outcome v s : await E v s = lift (settled_outcome E v) s.
Proof.
  destruct s as [w cs]. unfold await, settled_outcome, lift.
  destruct v as [| |?|?|?|? ?|?| |[|] ?|?]; simpl; try reflexivity;
    destruct (isThenable _); reflexivity.
Qed.

(** A call of an awaited function is the call, then [await] of what it
    gives. *)
Lemma call_Awaited f args s :
  call (Awaited E) f args s
  = match call E f args s with
    | Ok r s' => await E r s'
    | Err e s' => await E (PromiseReject e) s'
    | Diverge => Diverge
    end.
Proof.
  destruct f; try (simpl; symmetry; apply (await_rejected E calm)).
  unfold call, lift. simpl.
  destruct (user_fn E id args (world s)) as [v w'|e w'].
  - rewrite await_settled_outcome. reflexivity.
  - reflexivity.
Qed.

Lemma async_hook_Awaited h o task i args lst s :
  async_hook E h (hook_args o task i args lst) s
  = sync_hook (Awaited E) h (hook_args o task i args lst) s.
Proof.
  unfold async_hook, sync_hook, bind, PromiseTry. destruct h.
  - apply (await_plain E calm). reflexivity.
  - destruct i; apply (await_plain E calm); reflexivity.
  - cbn [call_hook]. rewrite call_Awaited.
    destruct (call E v _ s) as [r s1|e s1|]; try reflexivity.
    destruct (isThenable r) eqn:Hr; [reflexivity|].
    apply await_PromiseResolve. assumption.
Qed.

Lemma async_task_Awaited task input s :
  async_task E task input s = sync_task (Awaited E) task input s.
Proof.
  unfold async_task, sync_task, bind, PromiseTrapply.
  destruct task; try (simpl; apply (await_rejected E calm)).
  - unfold fn_apply, bind.
    replace (CreateListFromArrayLike (Awaited E) input s)
      with (CreateListFromArrayLike E input s) by (destruct input; reflexivity).
    destruct (CreateListFromArrayLike E input s) as [argv s1|e s1|];
      [|apply (await_rejected E calm)|reflexivity].
    rewrite (call_Awaited (VFun id arity)).
    destruct (call E (VFun id arity) argv s1) as [r s2|e s2|]; try reflexivity.
    destruct (isThenable r) eqn:Hr; [reflexivity|].
    apply await_PromiseResolve. assumption.
  - cbn [fn_apply]. rewrite call_Awaited.
    destruct (call E _ _ s) as [r s2|e s2|]; try reflexivity.
    destruct (isThenable r) eqn:Hr; [reflexivity|].
    apply await_PromiseResolve. assumption.
Qed.

Lemma async_fn_Awaited fuel o args s :
  async_fn E fuel o args s = sync_fn (Awaited E) fuel o args s.
Proof.
  unfold async_fn, sync_fn, bind. simpl.
  rewrite async_loop_skeleton, sync_loop_skeleton.
  rewrite (loop_ext (async_hook E) (sync_hook (Awaited E))
                    (async_task E) (sync_task (Awaited E)));
    [reflexivity | |].
  - intros h task i lst s0. apply async_hook_Awaited.
  - apply async_task_Awaited.
Qed.

End AwaitedFunctions.



(** ** The inputs the default wrapper makes *)

Lemma wraps_default_cons args ev log :
  (forall j t lst input, ev <> HookCall Wrap j t lst (Yielded input)) ->
  wraps_default args log -> wraps_default args (ev :: log).
Proof.
  intros Hev Hl j t lst input [Heq|Hin]; [exfalso; eapply Hev; eassumption|].
  eapply Hl. eassumption.
Qed.

Section DefaultWrapper.
Context {U : Type}.
Variable hook_call : HookFn -> list Val -> M U Val.
Variable task_call : Val -> Val -> M U Val.
Variable o : StrictOptions.
Variable args : list Val.
Hypothesis hook_quiet : forall h a, quiet (hook_call h a).
Hypothesis task_quiet : forall task input, quiet (task_call task input).
Hypothesis wrapper_default : resultWrapper o = DEFAULT_RESULT_WRAPPER.
Hypothesis hook_wrap :
  forall task i lst s v s',
    hook_call DEFAULT_RESULT_WRAPPER (hook_args o task i args lst) s = Ok v s' ->
    v = default_input args i lst.

Lemma iteration_wraps_default i task l s :
  wraps_default args (calls s) ->
  match iteration hook_call task_call o args i task l s with
  | Ok _ s' => wraps_default args (calls s')
  | Err _ s' => wraps_default args (calls s')
  | Diverge => True
  end.
Proof.
  intros Hs. unfold iteration, bind.
  pose proof (logged_quiet (HookCall Wrap i task (last l)) _ s
                (hook_quiet (resultWrapper o) (hook_args o task i args (last l)))) as H1.
  destruct (logged (HookCall Wrap i task (last l)) _ s) as [input s1|e s1|];
    [destruct H1 as [H1 [s0 Hc]]
    | rewrite H1; apply wraps_default_cons; [discriminate|assumption]
    | exact I ].
  assert (Hs1 : wraps_default args (calls s1)).
  { rewrite H1. intros j t lst inp [Heq|Hin]; [|eapply Hs; eassumption].
    injection Heq as <- <- <- <-. rewrite wrapper_default in Hc.
    eapply hook_wrap. eassumption. }
  pose proof (logged_quiet (HookCall Break i task (last l)) _ s1
                (hook_quiet (breakCondition o) (hook_args o task i args (last l)))) as H2.
  destruct (logged (HookCall Break i task (last l)) _ s1) as [b s2|e s2|];
    [destruct H2 as [H2 _]
    | rewrite H2; apply wraps_default_cons; [discriminate|assumption]
    | exact I ].
  assert (Hs2 : wraps_default args (calls s2))
    by (rewrite H2; apply wraps_default_cons; [discriminate|assumption]).
  destruct (truthy b); [exact Hs2|].
  pose proof (logged_quiet (HookCall Skip i task (last l)) _ s2
                (hook_quiet (skipCondition o) (hook_args o task i args (last l)))) as H3.
  destruct (logged (HookCall Skip i task (last l)) _ s2) as [k s3|e s3|];
    [destruct H3 as [H3 _]
    | rewrite H3; apply wraps_default_cons; [discriminate|assumption]
    | exact I ].
  assert (Hs3 : wraps_default args (calls s3))
    by (rewrite H3; apply wraps_default_cons; [discriminate|assumption]).
  destruct (truthy k); [exact Hs3|].
  pose proof (logged_quiet (TaskCall i task input) _ s3 (task_quiet task input)) as H4.
  destruct (logged (TaskCall i task input) _ s3) as [r s4|e s4|];
    [destruct H4 as [H4 _]|  |exact I];
    simpl; rewrite H4; (apply wraps_default_cons; [discriminate|assumption]).
Qed.

Lemma loop_wraps_default fuel :
  forall i l s,
    wraps_default args (calls s) ->
    match loop hook_call task_call fuel o args i l s with
    | Ok _ s' => wraps_default args (calls s')
    | Err _ s' => wraps_default args (calls s')
    | Diverge => True
    end.
Proof.
  induction fuel as [|fuel IH]; intros i l s Hs; [exact I|].
  rewrite loop_S.
  destruct (i <? length (elems (tasks o) (world s)))%nat; [|assumption].
  pose proof (iteration_wraps_default i (elem (elems (tasks o) (world s)) i) l s Hs) as Hk.
  destruct (iteration hook_call task_call o args i _ l s) as [[l'|l'] s'|e s'|];
    [apply IH; assumption | assumption | assumption | exact I].
Qed.

End DefaultWrapper.

Lemma sync_hook_wrap {U} (E : Env U) o args task i lst s v s' :
  sync_hook E DEFAULT_RESULT_WRAPPER (hook_args o task i args lst) s = Ok v s' ->
  v = default_input args i lst.
Proof. destruct i; simpl; intros [= <- _]; reflexivity. Qed.

Lemma async_hook_wrap {U} (E : Env U) o args task i lst s v s' :
  async_hook E DEFAULT_RESULT_WRAPPER (hook_args o task i args lst) s = Ok v s' ->
  v = default_input args i lst.
Proof. destruct i; cbv; intros [= <- _]; reflexivity. Qed.

(** The wrapper answers of a run with the default wrapper. *)
Lemma awaited_wraps_default {U} (E : Env U) c o fuel args w s' :
  body c = SyncBody o \/ body c = AsyncBody o ->
  resultWrapper o = DEFAULT_RESULT_WRAPPER ->
  state_of (awaited E c fuel args (fresh w)) = Some s' ->
  wraps_default args (calls s').
Proof.
  intros [Hb|Hb] Hw; unfold awaited, invoke; rewrite Hb.
  - unfold sync_fn, bind, read_elems. simpl. rewrite sync_loop_skeleton.
    pose proof (loop_wraps_default (sync_hook E) (sync_task E) o args
                  (quiet_sync_hook E) (quiet_sync_task E) Hw
                  (sync_hook_wrap E o args)
                  fuel 0 (init_locals (length (elems (tasks o) w))) (fresh w)
                  ltac:(intros j t lst input [])) as H.
    destruct (loop _ _ fuel o args 0 _ (fresh w)) as [l s1|e s1|]; simpl;
      [intros [= <-]; assumption | intros [= <-]; assumption | discriminate].
  - unfold async_fn, bind, read_elems. simpl. rewrite async_loop_skeleton.
    pose proof (loop_wraps_default (async_hook E) (async_task E) o args
                  (quiet_async_hook E) (quiet_async_task E) Hw
                  (async_hook_wrap E o args)
                  fuel 0 (init_locals (length (elems (tasks o) w))) (fresh w)
                  ltac:(intros j t lst input [])) as H.
    destruct (loop _ _ fuel o args 0 _ (fresh w)) as [l s1|e s1|]; simpl;
      [intros [= <-]; assumption | intros [= <-]; assumption | discriminate].
Qed.

(** The calls of a finished run: each task call follows the hook calls
    of its turn, and each hook call received the latest output. *)
Lemma awaited_turns {U} (E : Env U) c fuel args w s' :
  state_of (awaited E c fuel args (fresh w)) = Some s' ->
  tasks_follow_hooks (calls s')
  /\ (forall h j t lst out,
        In (HookCall h j t lst out) (calls s') -> latest_before j lst (calls s')).
Proof.
  intros Hst.
  apply awaited_calls in Hst
    as [->|(o & n & i & l0 & log0 & evs & Hh & -> & [->|(task & st & Ht)])].
  - split; [intros i t inp out []|intros h j t lst out []].
  - split; [exact (history_tasks_follow_hooks _ _ _ _ _ Hh)
           |exact (history_hook_last _ _ _ _ _ Hh)].
  - split.
    + apply tasks_follow_hooks_app.
      * eapply turn_tasks_follow_hooks. eassumption.
      * eapply history_tasks_follow_hooks. eassumption.
    + eapply turn_after_history_last; try eassumption.
      exact (history_hook_last _ _ _ _ _ Hh).
Qed.

(** X16.  With the default result wrapper, in every invocation of either
    engine and whatever the break and the skip condition are, a task at
    an index after the first is applied to the one-element list of the
    output of the task that ran at the highest index below it, the
    skipped tasks in between passing it on ([undefined] when none
    ran). *)
Theorem default_wrapper_chains_the_tasks {U} (E : Env U) c o fuel args w s' :
  body c = SyncBody o \/ body c = AsyncBody o ->
  resultWrapper o = DEFAULT_RESULT_WRAPPER ->
  state_of (awaited E c fuel args (fresh w)) = Some s' ->
  forall j t input out,
    In (TaskCall j t input out) (calls s') ->
    j <> 0 ->
    exists lst, input = VArr [Some lst] /\ latest_before j lst (calls s').
Proof.
  intros Hb Hw Hst j t input out Hin Hj.
  pose proof (awaited_wraps_default E c o fuel args w s' Hb Hw Hst) as Hd.
  destruct (awaited_turns E c fuel args w s' Hst) as [Hf Hl].
  destruct (Hf _ _ _ _ Hin) as (lst & b & k & Hwrap & _).
  specialize (Hd _ _ _ _ Hwrap). specialize (Hl _ _ _ _ _ Hwrap).
  unfold default_input in Hd.
  destruct j as [|j]; [contradiction|]. simpl in Hd.
  exists lst. auto.
Qed.

(** Scenario B on the asynchronous engine: with index 1 skipped, the
    task at index 2 is applied to [[6]], the output at index 0. *)
Lemma default_wrapper_chains_the_tasks_witness :
  state_of (awaited Scenario.plain_env Scenario.B_async 4 [VNum 5]
                    (fresh (Scenario.world_of Scenario.three_tasks)))
  = Some (mkSt (Scenario.world_of Scenario.three_tasks) Scenario.B_calls)
  /\ (forall j t input out,
        In (TaskCall j t input out) Scenario.B_calls ->
        j <> 0 ->
        exists lst, input = VArr [Some lst] /\ latest_before j lst Scenario.B_calls).
Proof.
  assert (Hrun : state_of (awaited Scenario.plain_env Scenario.B_async 4 [VNum 5]
                                   (fresh (Scenario.world_of Scenario.three_tasks)))
                 = Some (mkSt (Scenario.world_of Scenario.three_tasks)
                              Scenario.B_calls))
    by (vm_compute; reflexivity).
  split; [exact Hrun|].
  exact (default_wrapper_chains_the_tasks Scenario.plain_env Scenario.B_async
           (mkOptions (VStr "kskbTask") VTasks DEFAULT_BREAKER
                      (Given Scenario.index_is_1) DEFAULT_RESULT_WRAPPER)
           4 [VNum 5] (Scenario.world_of Scenario.three_tasks) _
           (or_intror eq_refl) eq_refl Hrun).
Defined.

(** ** A future as a condition of the synchronous engine *)

(** A future-like value is an object or a function, hence truthy. *)
Lemma isThenable_truthy v : isThenable v = true -> truthy v = true.
Proof.
  intros H. destruct v; try reflexivity; vm_compute in H; discriminate.
Qed.

(** X17.  The synchronous engine does not await its conditions: given a
    break condition that returns a future-like value whenever it returns
    (an [async] function), every invocation that returns, over a list
    that is not empty, stopped at index 0 without running a task,
    whatever the future would have settled to. *)
Theorem sync_engine_breaks_on_a_future {U} (E : Env U) c o fuel args w r s' n arity :
  body c = SyncBody o ->
  breakCondition o = Given (VFun n arity) ->
  (forall a w0 v w1, user_fn E n a w0 = Returns v w1 -> isThenable v = true) ->
  elems (tasks o) w <> [] ->
  awaited E c fuel args (fresh w) = Ok r s' ->
  breakAt r = 0%Z /\ value r = VUndefined /\ skipped r = []
  /\ (forall j, unset (results r) j)
  /\ (forall i t input out, ~ In (TaskCall i t input out) (calls s')).
Proof.
  intros Hb Hbc Hth Hne Hrun.
  unfold awaited, invoke in Hrun. rewrite Hb in Hrun.
  unfold sync_fn, bind, read_elems in Hrun. cbn [ret] in Hrun.
  rewrite sync_loop_skeleton in Hrun.
  destruct fuel as [|fuel]; [discriminate|].
  rewrite loop_S in Hrun. cbn [world fresh] in Hrun.
  destruct (elems (tasks o) w) as [|x xs] eqn:He; [contradiction|].
  cbn [length Nat.ltb Nat.leb] in Hrun.
  unfold iteration, bind, logged in Hrun. rewrite Hbc in Hrun.
  pose proof (quiet_sync_hook E (resultWrapper o)
                (hook_args o (elem (x :: xs) 0) 0 args (last (init_locals (S (length xs)))))
                (fresh w)) as Hq.
  destruct (sync_hook E (resultWrapper o) _ (fresh w)) as [input s1|e s1|];
    [|discriminate|discriminate].
  unfold sync_hook, call_hook, call, lift in Hrun. cbn [world] in Hrun.
  destruct (user_fn E n _ (world s1)) as [v w1|e w1] eqn:Hu; [|discriminate].
  rewrite (isThenable_truthy v (Hth _ _ _ _ Hu)) in Hrun.
  injection Hrun as <- <-. cbn.
  split; [reflexivity|]. split; [reflexivity|]. split; [reflexivity|].
  split; [intros j; apply (unset_new_Array (S (length xs)))|].
  intros i t input0 out [H|[H|H]]; [discriminate|discriminate|].
  cbn in Hq. rewrite Hq in H. destruct H.
Qed.

(** Over the three arithmetic tasks, with [async] break condition: the
    run stops at index 0. *)
Lemma sync_engine_breaks_on_a_future_witness :
  awaited Scenario.async_env
    (Scenario.built createSerialTask Scenario.async_break_options Scenario.three_tasks)
    4 [VNum 5] (fresh (Scenario.world_of Scenario.three_tasks))
  = Ok {| value := VUndefined; results := [None; None; None]; trivial := false;
          breakAt := 0%Z; skipped := [] |}
       (mkSt (Scenario.world_of Scenario.three_tasks)
             [HookCall Break 0 Scenario.task_plus1 VUndefined
                       (Yielded (VPromise false (VNum 1)));
              HookCall Wrap 0 Scenario.task_plus1 VUndefined
                       (Yielded (VArr [Some (VNum 5)]))])
  /\ breakAt {| value := VUndefined; results := [None; None; None]; trivial := false;
                breakAt := 0%Z; skipped := [] |} = 0%Z.
Proof.
  assert (Hrun :
    awaited Scenario.async_env
      (Scenario.built createSerialTask Scenario.async_break_options Scenario.three_tasks)
      4 [VNum 5] (fresh (Scenario.world_of Scenario.three_tasks))
    = Ok {| value := VUndefined; results := [None; None; None]; trivial := false;
            breakAt := 0%Z; skipped := [] |}
         (mkSt (Scenario.world_of Scenario.three_tasks)
               [HookCall Break 0 Scenario.task_plus1 VUndefined
                         (Yielded (VPromise false (VNum 1)));
                HookCall Wrap 0 Scenario.task_plus1 VUndefined
                         (Yielded (VArr [Some (VNum 5)]))]))
    by (vm_compute; reflexivity).
  split; [exact Hrun|].
  exact (proj1 (sync_engine_breaks_on_a_future Scenario.async_env
                  (Scenario.built createSerialTask Scenario.async_break_options
                                  Scenario.three_tasks)
                  (mkOptions (VStr "kskbTask") VTasks (Given (VFun 10 1))
                             DEFAULT_SKIPPER DEFAULT_RESULT_WRAPPER)
                  4 [VNum 5] (Scenario.world_of Scenario.three_tasks) _ _ 10 1
                  eq_refl eq_refl
                  ltac:(intros a w0 v w1 [= <- _]; reflexivity)
                  ltac:(discriminate) Hrun)).
Defined.

(** ** The functions called are the listed tasks *)

Lemma turn_task_of o i task l evs st ev :
  turn o i task l evs st -> In ev evs -> ev_task ev = task.
Proof.
  intros Ht Hin. inversion Ht; subst; simpl in Hin;
    repeat (destruct Hin as [<-|Hin]; [reflexivity|]); destruct Hin.
Qed.

Section ListedTasks.
Context {U : Type}.
Variable hook_call : HookFn -> list Val -> M U Val.
Variable task_call : Val -> Val -> M U Val.
Variable o : StrictOptions.
Variable ts : list (option Val).
Hypothesis hook_quiet : forall h a, quiet (hook_call h a).
Hypothesis task_quiet : forall task input, quiet (task_call task input).
Hypothesis hook_default :
  forall a s v s', hook_call DEFAULT_BREAKER a s = Ok v s' -> truthy v = false.
Hypothesis hook_keeps :
  forall h a, keeps (fun w => elems (tasks o) w = ts) (hook_call h a).
Hypothesis task_keeps :
  forall t i, keeps (fun w => elems (tasks o) w = ts) (task_call t i).

Lemma loop_listed_tasks args fuel :
  forall i l s,
    elems (tasks o) (world s) = ts ->
    (forall ev, In ev (calls s) ->
                (ev_index ev < length ts)%nat /\ ev_task ev = elem ts (ev_index ev)) ->
    match loop hook_call task_call fuel o args i l s with
    | Ok _ s' | Err _ s' =>
        forall ev, In ev (calls s') ->
                   (ev_index ev < length ts)%nat /\ ev_task ev = elem ts (ev_index ev)
    | Diverge => True
    end.
Proof.
  induction fuel as [|fuel IH]; intros i l s Hw Hs; [exact I|].
  rewrite loop_S. rewrite Hw.
  destruct (Nat.ltb_spec i (length ts)) as [Hlt|Hge]; [|assumption].
  pose proof (iteration_keeps hook_call task_call _ hook_keeps task_keeps
                o args i (elem ts i) l s Hw) as Hk.
  pose proof (iteration_turn hook_call task_call hook_quiet task_quiet hook_default
                o args i (elem ts i) l s) as Ht.
  assert (Hevs : forall (s' : St U) evs st,
             calls s' = evs ++ calls s -> turn o i (elem ts i) l evs st ->
             forall ev, In ev (calls s') ->
               (ev_index ev < length ts)%nat /\ ev_task ev = elem ts (ev_index ev)).
  { intros s' evs st -> Hturn ev Hin. apply in_app_or in Hin as [Hin|Hin]; [|auto].
    rewrite (turn_index _ _ _ _ _ _ _ Hturn Hin), (turn_task_of _ _ _ _ _ _ _ Hturn Hin).
    auto. }
  destruct (iteration hook_call task_call o args i _ l s) as [[l'|l'] s'|e s'|];
    [|  |  |exact I]; destruct Ht as (evs & Hc & Hturn).
  - apply IH; [assumption|]. eapply Hevs; eassumption.
  - eapply Hevs; eassumption.
  - eapply Hevs; eassumption.
Qed.

End ListedTasks.

(** X18.  Over functions that leave the task list alone, as does what
    runs while an engine is suspended, every call of
    an invocation of either engine, whether it returns a record or fails,
    is at an index of the list and about the function found there: the
    task called at index [j] is [tasks[j]], and so is the task handed to
    the hooks at [j]. *)
Theorem calls_are_about_the_listed_tasks {U} (E : Env U) c o fuel args w s' ts :
  body c = SyncBody o \/ body c = AsyncBody o ->
  env_keeps E (fun w0 => elems (tasks o) w0 = ts) ->
  elems (tasks o) w = ts ->
  state_of (awaited E c fuel args (fresh w)) = Some s' ->
  forall ev, In ev (calls s') ->
    (ev_index ev < length ts)%nat /\ ev_task ev = elem ts (ev_index ev).
Proof.
  intros [Hb|Hb] Hk Hw; unfold awaited, invoke; rewrite Hb.
  - unfold sync_fn, bind, read_elems. simpl. rewrite sync_loop_skeleton.
    pose proof (loop_listed_tasks (sync_hook E) (sync_task E) o ts
                  (quiet_sync_hook E) (quiet_sync_task E) (sync_hook_default E)
                  (fun h a => keeps_sync_hook E _ Hk h a)
                  (fun t i => keeps_sync_task E _ Hk t i)
                  args fuel 0 (init_locals (length (elems (tasks o) w))) (fresh w)
                  Hw ltac:(intros ev [])) as H.
    destruct (loop _ _ fuel o args 0 _ (fresh w)) as [l s1|e s1|]; simpl;
      [intros [= <-]; assumption | intros [= <-]; assumption | discriminate].
  - unfold async_fn, bind, read_elems. simpl. rewrite async_loop_skeleton.
    pose proof (loop_listed_tasks (async_hook E) (async_task E) o ts
                  (quiet_async_hook E) (quiet_async_task E) (async_hook_default E)
                  (fun h a => keeps_async_hook E _ Hk h a)
                  (fun t i => keeps_async_task E _ Hk t i)
                  args fuel 0 (init_locals (length (elems (tasks o) w))) (fresh w)
                  Hw ltac:(intros ev [])) as H.
    destruct (loop _ _ fuel o args 0 _ (fresh w)) as [l s1|e s1|]; simpl;
      [intros [= <-]; assumption | intros [= <-]; assumption | discriminate].
Qed.

(** Scenario B: the calls at index 2 are about [x => x - 1]. *)
Lemma calls_are_about_the_listed_tasks_witness :
  state_of (awaited Scenario.plain_env Scenario.B_async 4 [VNum 5]
                    (fresh (Scenario.world_of Scenario.three_tasks)))
  = Some (mkSt (Scenario.world_of Scenario.three_tasks) Scenario.B_calls)
  /\ (forall ev, In ev Scenario.B_calls ->
        (ev_index ev < 3)%nat
        /\ ev_task ev = elem (map Some Scenario.three_tasks) (ev_index ev)).
Proof.
  assert (Hrun : state_of (awaited Scenario.plain_env Scenario.B_async 4 [VNum 5]
                                   (fresh (Scenario.world_of Scenario.three_tasks)))
                 = Some (mkSt (Scenario.world_of Scenario.three_tasks)
                              Scenario.B_calls))
    by (vm_compute; reflexivity).
  split; [exact Hrun|].
  exact (calls_are_about_the_listed_tasks Scenario.plain_env Scenario.B_async
           (mkOptions (VStr "kskbTask") VTasks DEFAULT_BREAKER
                      (Given Scenario.index_is_1) DEFAULT_RESULT_WRAPPER)
           4 [VNum 5] (Scenario.world_of Scenario.three_tasks) _
           (map Some Scenario.three_tasks)
           (or_intror eq_refl) (plain_env_keeps _) eq_refl Hrun).
Defined.

(** ** A bounded list bounds the calls *)

Lemma turn_length o i task l evs st : turn o i task l evs st -> (length evs <= 4)%nat.
Proof. intros Ht. inversion Ht; simpl; lia. Qed.

Lemma history_length o n i l log :
  history o n i l log -> (length log <= 4 * i)%nat.
Proof.
  induction 1 as [|i l log task evs l' Hh IH Ht]; [simpl; lia|].
  rewrite length_app. pose proof (turn_length _ _ _ _ _ _ Ht). lia.
Qed.

(** The turns of a finished run: the wrapper was called at the indices
    below some [m], and at most four calls were made at each. *)
Lemma awaited_turn_count {U} (E : Env U) c fuel args w s' :
  state_of (awaited E c fuel args (fresh w)) = Some s' ->
  exists m, wrap_indices (calls s') = rev (seq 0 m)
            /\ (length (calls s') <= 4 * m)%nat.
Proof.
  intros Hst.
  apply awaited_calls in Hst
    as [->|(o & n & i & l0 & log0 & evs & Hh & -> & [->|(task & st & Ht)])].
  - exists 0. split; [reflexivity|simpl; lia].
  - exists i. destruct (history_order _ _ _ _ _ Hh) as [Hw _].
    split; [assumption|]. exact (history_length _ _ _ _ _ Hh).
  - exists (S i). destruct (history_order _ _ _ _ _ Hh) as [Hw _]. split.
    + rewrite wrap_indices_app, (turn_wrap_indices _ _ _ _ _ _ Ht), Hw, rev_seq_S.
      reflexivity.
    + rewrite length_app. pose proof (turn_length _ _ _ _ _ _ Ht).
      pose proof (history_length _ _ _ _ _ Hh). lia.
Qed.

Section BoundedList.
Context {U : Type}.
Variable hook_call : HookFn -> list Val -> M U Val.
Variable task_call : Val -> Val -> M U Val.
Variable o : StrictOptions.
Variable N : nat.
Hypothesis hook_quiet : forall h a, quiet (hook_call h a).
Hypothesis task_quiet : forall task input, quiet (task_call task input).
Hypothesis hook_default :
  forall a s v s', hook_call DEFAULT_BREAKER a s = Ok v s' -> truthy v = false.
Hypothesis hook_keeps : forall h a, keeps (at_most N (tasks o)) (hook_call h a).
Hypothesis task_keeps : forall t i, keeps (at_most N (tasks o)) (task_call t i).

Lemma loop_bounded args fuel :
  forall i l s,
    at_most N (tasks o) (world s) ->
    (forall ev, In ev (calls s) -> (ev_index ev < N)%nat) ->
    match loop hook_call task_call fuel o args i l s with
    | Ok _ s' | Err _ s' => forall ev, In ev (calls s') -> (ev_index ev < N)%nat
    | Diverge => True
    end.
Proof.
  induction fuel as [|fuel IH]; intros i l s Hw Hs; [exact I|].
  rewrite loop_S.
  destruct (Nat.ltb_spec i (length (elems (tasks o) (world s)))) as [Hlt|Hge];
    [|assumption].
  pose proof (iteration_keeps hook_call task_call _ hook_keeps task_keeps
                o args i (elem (elems (tasks o) (world s)) i) l s Hw) as Hk.
  pose proof (iteration_turn hook_call task_call hook_quiet task_quiet hook_default
                o args i (elem (elems (tasks o) (world s)) i) l s) as Ht.
  assert (Hevs : forall (s' : St U) evs st,
             calls s' = evs ++ calls s ->
             turn o i (elem (elems (tasks o) (world s)) i) l evs st ->
             forall ev, In ev (calls s') -> (ev_index ev < N)%nat).
  { intros s' evs st -> Hturn ev Hin. apply in_app_or in Hin as [Hin|Hin]; [|auto].
    rewrite (turn_index _ _ _ _ _ _ _ Hturn Hin). unfold at_most in Hw. lia. }
  destruct (iteration hook_call task_call o args i _ l s) as [[l'|l'] s'|e s'|];
    [|  |  |exact I]; destruct Ht as (evs & Hc & Hturn).
  - apply IH; [assumption|]. eapply Hevs; eassumption.
  - eapply Hevs; eassumption.
  - eapply Hevs; eassumption.
Qed.

End BoundedList.

(** X13.  While no function of the environment, and nothing that runs
    while the engine is suspended, lets the task list grow beyond [N]
    tasks, an invocation of either engine takes at most [N] turns: every
    call it makes is at an index below [N], the wrapper is called at
    most [N] times, and at most [4 N] calls are made in all. *)
Theorem bounded_list_bounds_the_calls {U} (E : Env U) c o N fuel args w s' :
  body c = SyncBody o \/ body c = AsyncBody o ->
  env_keeps E (at_most N (tasks o)) ->
  at_most N (tasks o) w ->
  state_of (awaited E c fuel args (fresh w)) = Some s' ->
  (forall ev, In ev (calls s') -> (ev_index ev < N)%nat)
  /\ (length (wrap_indices (calls s')) <= N)%nat
  /\ (length (calls s') <= 4 * N)%nat.
Proof.
  intros Hb Hk Hw Hst.
  assert (Hidx : forall ev, In ev (calls s') -> (ev_index ev < N)%nat).
  { revert Hst. destruct Hb as [Hb|Hb]; unfold awaited, invoke; rewrite Hb.
    - unfold sync_fn, bind, read_elems. simpl. rewrite sync_loop_skeleton.
      pose proof (loop_bounded (sync_hook E) (sync_task E) o N
                    (quiet_sync_hook E) (quiet_sync_task E) (sync_hook_default E)
                    (fun h a => keeps_sync_hook E _ Hk h a)
                    (fun t i => keeps_sync_task E _ Hk t i)
                    args fuel 0 (init_locals (length (elems (tasks o) w))) (fresh w)
                    Hw ltac:(intros ev [])) as H.
      destruct (loop _ _ fuel o args 0 _ (fresh w)) as [l s1|e s1|]; simpl;
        [intros [= <-]; assumption | intros [= <-]; assumption | discriminate].
    - unfold async_fn, bind, read_elems. simpl. rewrite async_loop_skeleton.
      pose proof (loop_bounded (async_hook E) (async_task E) o N
                    (quiet_async_hook E) (quiet_async_task E) (async_hook_default E)
                    (fun h a => keeps_async_hook E _ Hk h a)
                    (fun t i => keeps_async_task E _ Hk t i)
                    args fuel 0 (init_locals (length (elems (tasks o) w))) (fresh w)
                    Hw ltac:(intros ev [])) as H.
      destruct (loop _ _ fuel o args 0 _ (fresh w)) as [l s1|e s1|]; simpl;
        [intros [= <-]; assumption | intros [= <-]; assumption | discriminate]. }
  split; [exact Hidx|].
  destruct (awaited_turn_count E c fuel args w s' Hst) as (m & Hm & Hlen).
  assert (HmN : (m <= N)%nat).
  { destruct m as [|m]; [lia|].
    assert (Hin : In m (wrap_indices (calls s')))
      by (rewrite Hm, rev_seq_S; left; reflexivity).
    unfold wrap_indices in Hin. apply in_map_iff in Hin as (ev & <- & Hev).
    apply list_elem_of_In, list_elem_of_filter in Hev as [_ Hev].
    apply list_elem_of_In in Hev. specialize (Hidx ev Hev). lia. }
  split; [|lia].
  rewrite Hm, length_rev, length_seq. exact HmN.
Qed.

(** The dynamic-list test: the list never holds more than two tasks;
    two turns are taken and eight calls made. *)
Lemma bounded_list_bounds_the_calls_witness :
  state_of (awaited Scenario.dynamic_env
              (Scenario.built createSerialTask Scenario.pushing_options
                              [Scenario.task_plus1])
              7 [VNum 5] (fresh (Scenario.world_of [Scenario.task_plus1])))
  = Some (mkSt (Scenario.world_of [Scenario.task_plus1; Scenario.task_times2])
               Scenario.pushing_calls)
  /\ (forall ev, In ev Scenario.pushing_calls -> (ev_index ev < 2)%nat)
  /\ (length (wrap_indices Scenario.pushing_calls) <= 2)%nat
  /\ (length Scenario.pushing_calls <= 4 * 2)%nat.
Proof.
  assert (Hrun : state_of (awaited Scenario.dynamic_env
                             (Scenario.built createSerialTask Scenario.pushing_options
                                             [Scenario.task_plus1])
                             7 [VNum 5]
                             (fresh (Scenario.world_of [Scenario.task_plus1])))
                 = Some (mkSt (Scenario.world_of
                                 [Scenario.task_plus1; Scenario.task_times2])
                              Scenario.pushing_calls))
    by (vm_compute; reflexivity).
  split; [exact Hrun|].
  exact (bounded_list_bounds_the_calls Scenario.dynamic_env
           (Scenario.built createSerialTask Scenario.pushing_options
                           [Scenario.task_plus1])
           (mkOptions (VStr "kskbTask") VTasks DEFAULT_BREAKER DEFAULT_SKIPPER
                      (Given Scenario.pushing_wrapper))
           2 7 [VNum 5] (Scenario.world_of [Scenario.task_plus1]) _
           (or_introl eq_refl) dynamic_env_at_most_2
           ltac:(unfold at_most; simpl; lia) Hrun).
Defined.
